(** * graph-theory: storage backends, d-ary heap, indexed priority queue,
      DFS topological sort

    A shallow embedding of the TypeScript sources and the properties
    checked against them.

    Conventions of the embedding.
    - A JavaScript [number] used as an index or a size is a [Z], and
      [+ 1], [- 1], [max] and the comparisons on it are those of [Z].  The
      code computes with doubles, which agree with [Z] as long as the
      numbers stay within [Js.MAX_SAFE_INTEGER] in absolute value (and
      [index + 1] still at [2^53]); a statement whose conclusion depends
      on that carries the bound as a hypothesis.  The few places where
      the code can produce a non-finite number (division by a zero
      branching factor) use [jsnum].
    - A JavaScript array is a [list (option A)]: [None] is [undefined]
      (a hole, or a slot past the end).  Reading out of range gives
      [undefined]; writing past the end extends the array, as JavaScript
      does.  A write under a key that is not an array index (a negative
      number) creates a plain property and leaves the elements alone; the
      embedding drops such a write and reads [undefined] back.  That is
      what the code does wherever the property can only hold [undefined].
      It is not what the code does for [DAryHeap.removeAtIndex] with a
      negative index, and so for [DAryHeap.remove] of a value that is not
      in the heap, which store an element under the key [-1]: for those
      calls the embedding does not follow the code, and nothing below is
      stated about them.
    - Code that throws returns the exception together with the state at
      the moment of the throw. *)

From Stdlib Require Import ZArith List Bool Lia String Arith Permutation Sorted.
Import ListNotations.
Local Open Scope Z_scope.

Set Implicit Arguments.

(* ================================================================== *)
(** ** JavaScript arrays *)
(* ================================================================== *)

Module Js.

Section Array.
Context {A : Type}.

Definition array := list (option A).

(** [a[i]] *)
Definition get (a : array) (i : Z) : option A :=
  if i <? 0 then None
  else match nth_error a (Z.to_nat i) with
       | Some x => x
       | None => None
       end.

(** In-range update of slot [n]. *)
Fixpoint update (a : array) (n : nat) (v : option A) : array :=
  match a, n with
  | [], _ => []
  | _ :: t, O => v :: t
  | x :: t, S m => x :: update t m v
  end.

(** [a[i] = v] *)
Definition set (a : array) (i : Z) (v : option A) : array :=
  if i <? 0 then a
  else
    let n := Z.to_nat i in
    if (n <? List.length a)%nat then update a n v
    else a ++ repeat None (n - List.length a) ++ [v].

(** [a.length] *)
Definition length (a : array) : Z := Z.of_nat (List.length a).

(** [a.pop()]: the removed element and the shortened array. *)
Definition pop (a : array) : option A * array :=
  (last a None, removelast a).

(** [a.push(v)] *)
Definition push (a : array) (v : A) : array := a ++ [Some v].

(** An array without holes. *)
Definition dense (a : array) : Prop :=
  forall i, 0 <= i < length a -> get a i <> None.

(** The array [[v1, ..., vn]] of defined values. *)
Definition ofList (vs : list A) : array := map Some vs.

End Array.

(** A JavaScript number that may fail to be finite. *)
Inductive jsnum : Type :=
| Num (z : Z)
| NaN
| PosInf
| NegInf.

(** [Number.MAX_SAFE_INTEGER], [2^53 - 1]: up to here, and for
    [index + 1] up to [2^53], the code's numbers are exact. *)
Definition MAX_SAFE_INTEGER : Z := 9007199254740991.

End Js.

(* ================================================================== *)
(** ** Method calls on mutable objects *)
(* ================================================================== *)

Module Eff.

(** Result of a method call on a mutable object whose state is [S]. *)
Inductive outcome (S A : Type) : Type :=
| Ret (a : A) (s : S)           (* normal return *)
| Throw (msg : string) (s : S)  (* exception, with the state reached *)
| Diverge.                      (* the call does not return *)

Arguments Ret {S A} a s.
Arguments Throw {S A} msg s.
Arguments Diverge {S A}.

Section Monad.
Context {S : Type}.

Definition M (A : Type) : Type := S -> outcome S A.

Definition ret {A} (a : A) : M A := fun s => Ret a s.

Definition bind {A B} (m : M A) (k : A -> M B) : M B :=
  fun s =>
    match m s with
    | Ret a s' => k a s'
    | Throw msg s' => Throw msg s'
    | Diverge => Diverge
    end.

Definition throw {A} (msg : string) : M A := fun s => Throw msg s.

Definition diverge {A} : M A := fun _ => Diverge.

Definition gets {A} (f : S -> A) : M A := fun s => Ret (f s) s.

Definition modify (f : S -> S) : M unit := fun s => Ret tt (f s).

(** [xs.reduce(f, init)] with an effectful callback. *)
Fixpoint reduce {A B} (f : B -> A -> M B) (xs : list A) (init : B) : M B :=
  match xs with
  | [] => ret init
  | x :: t => bind (f init x) (fun acc => reduce f t acc)
  end.
End Monad.

Declare Scope eff_scope.
Delimit Scope eff_scope with eff.
Notation "x <- m ;; k" := (bind m (fun x => k))
  (at level 61, m at next level, right associativity) : eff_scope.
Notation "m ;;; k" := (bind m (fun _ => k))
  (at level 61, right associativity) : eff_scope.

(** [for (const x of xs) body(x)] *)
Fixpoint forEach {S A} (xs : list A) (body : A -> M (S := S) unit)
  : M (S := S) unit :=
  match xs with
  | [] => ret tt
  | x :: t => bind (body x) (fun _ => forEach t body)
  end.

(** The integers [lo, lo+1, ..., hi] visited by
    [for (k = lo; k <= hi; k++)]. *)
Definition range (lo hi : Z) : list Z :=
  map (fun k => lo + Z.of_nat k) (seq 0 (Z.to_nat (hi - lo + 1))).

End Eff.

Import Eff.

(* ================================================================== *)
(** ** DAryHeap *)
(* ================================================================== *)

Module DAryHeap.

(** [private defaultLessThanCompare = (a, b) => b - a] *)
Definition defaultLessThanCompare (a b : Z) : Z := b - a.

Section Methods.
Variable T : Type.
(** [this.d] and [this.lessThanCompare]; the state threaded through the
    methods is [this.heap]. *)
Variable d : Z.
Variable lessThanCompare : T -> T -> Z.

Local Open Scope eff_scope.

Definition arr := @Js.array T.

(** [Math.floor((index - 1) / this.d)] *)
Definition parentIndex (index : Z) : Js.jsnum :=
  if d =? 0 then
    if index - 1 =? 0 then Js.NaN
    else if 0 <? index - 1 then Js.PosInf else Js.NegInf
  else Js.Num ((index - 1) / d).

Definition size : M (S := arr) Z := gets Js.length.

(** The loop [for (i = 1; i <= d; i++)] of [childIndices]. *)
Definition childIndices (index : Z) : M (S := arr) (list Z) :=
  n <- size ;;
  ret (filter (fun childIndex => childIndex <? n)
              (map (fun i => d * index + Z.of_nat i)
                   (seq 1 (Z.to_nat d)))).

Definition isLessThan (a b : option T) : M (S := arr) bool :=
  match a, b with
  | Some x, Some y => ret (0 <? lessThanCompare x y)
  | _, _ => throw "Invalid inputs"
  end.

(** [[h[s], h[t]] = [h[t], h[s]]]: both reads, then the two writes. *)
Definition exchange (source destination : Z) (h : arr) : arr :=
  let a := Js.get h destination in
  let b := Js.get h source in
  Js.set (Js.set h source a) destination b.

Definition swap (source destination : Z) : M (S := arr) unit :=
  modify (exchange source destination).

Definition read (i : Z) : M (S := arr) (option T) :=
  gets (fun h => Js.get h i).

Fixpoint swimUp_rec (fuel : nat) (index : Z) : M (S := arr) Z :=
  if index =? 0 then ret index
  else
    match fuel with
    | O => diverge
    | Datatypes.S fuel' =>
      match parentIndex index with
      | Js.Num parent =>
        value <- read index ;;
        parentValue <- read parent ;;
        lt <- isLessThan value parentValue ;;
        if negb lt then ret index
        else swap index parent ;;; swimUp_rec fuel' parent
      | _ =>
        (* heap[NaN] and heap[+-Infinity] are undefined *)
        value <- read index ;;
        _ <- isLessThan value None ;;
        ret index
      end
    end.

(** Each recursive call is at a strictly smaller non-negative index, so
    [index + 1] steps are enough (see [swimUp_returns]). *)
Definition swimUp (index : Z) : M (S := arr) Z :=
  swimUp_rec (Datatypes.S (Z.to_nat index)) index.

Definition minValueChild (childIndices : list Z) (first : Z)
  : M (S := arr) Z :=
  reduce (fun minValueIndex currentIndex =>
            cur <- read currentIndex ;;
            mn <- read minValueIndex ;;
            lt <- isLessThan cur mn ;;
            ret (if lt then currentIndex else minValueIndex))
         childIndices first.

Fixpoint sinkDown_rec (fuel : nat) (index : Z) : M (S := arr) Z :=
  cs <- childIndices index ;;
  match cs with
  | [] => ret index
  | first :: _ =>
    minValueChildIndex <- minValueChild cs first ;;
    value <- read index ;;
    childValue <- read minValueChildIndex ;;
    lt <- isLessThan value childValue ;;
    if lt then ret index
    else
      match fuel with
      | O => diverge
      | Datatypes.S fuel' =>
        swap index minValueChildIndex ;;;
        sinkDown_rec fuel' minValueChildIndex
      end
  end.

(** Each recursive call is at a strictly larger index below the size, so
    [size] steps are enough (see [sinkDown_returns]). *)
Definition sinkDown (index : Z) : M (S := arr) Z :=
  n <- size ;;
  sinkDown_rec (Z.to_nat n) index.

Definition insert (value : T) : M (S := arr) Z :=
  modify (fun h => Js.push h value) ;;;
  n <- size ;;
  swimUp (n - 1).

Definition peek : M (S := arr) (option T) := read 0.

Definition pop : M (S := arr) (option T) :=
  fun h => let (v, h') := Js.pop h in Ret v h'.

Definition poll : M (S := arr) (option T) :=
  n <- size ;;
  if n =? 0 then ret None
  else
    swap 0 (n - 1) ;;;
    value <- pop ;;
    _ <- sinkDown 0 ;;
    ret value.

(** [index] is meant to be an array index.  For a negative number the
    code stores the last element under that key and goes on from there;
    the embedding of arrays drops that write, so it follows the code for
    [0 <= index] only. *)
Definition removeAtIndex (index : Z) : M (S := arr) unit :=
  n <- size ;;
  swap index (n - 1) ;;;
  _ <- pop ;;
  _ <- swimUp index ;;
  _ <- sinkDown index ;;
  ret tt.

(** [private defaultEqualCompare = (a, b) => a === b], given [===] on the
    element type; a hole compares unequal to every value. *)
Definition defaultEqualCompare (eqb : T -> T -> bool)
           (a : T) (b : option T) : bool :=
  match b with
  | Some y => eqb a y
  | None => false
  end.

(** The loop of [findIndex] from slot [i] on: the first index whose
    element the callback accepts, or [-1]. *)
Fixpoint findIndexFrom (compare : T -> option T -> bool) (value : T)
         (i : Z) (h : arr) : Z :=
  match h with
  | [] => -1
  | x :: t =>
    if compare value x then i else findIndexFrom compare value (i + 1) t
  end.

Definition findIndex (value : T) (compare : T -> option T -> bool)
  : M (S := arr) Z :=
  gets (findIndexFrom compare value 0).

(** [remove(value, compare)]; when nothing matches, [removeAtIndex] is
    handed [-1], where the embedding does not follow the code (see the
    remark there). *)
Definition remove (value : T) (compare : T -> option T -> bool)
  : M (S := arr) unit :=
  index <- findIndex value compare ;;
  removeAtIndex index.

(** The loop [for (i = last; i >= 0; i--) sinkDown(i)], run [count]
    times from [i]. *)
Fixpoint heapifyLoop (count : nat) (i : Z) : M (S := arr) unit :=
  match count with
  | O => ret tt
  | Datatypes.S count' =>
    _ <- sinkDown i ;;
    heapifyLoop count' (i - 1)
  end.

Definition heapify (values : list T) : M (S := arr) unit :=
  modify (fun _ => Js.ofList values) ;;;
  n <- size ;;
  match parentIndex (n - 1) with
  | Js.Num lastNonLeafIndex =>
    heapifyLoop (Z.to_nat (lastNonLeafIndex + 1)) lastNonLeafIndex
  | Js.PosInf =>
    (* Infinity >= 0 holds and Infinity - 1 is Infinity again *)
    diverge
  | Js.NaN | Js.NegInf =>
    (* the loop condition i >= 0 is false at once *)
    ret tt
  end.

End Methods.

(** The object: [d], [heap] and [lessThanCompare]. *)
Record t (T : Type) : Type := mk {
  d : Z;
  heap : @Js.array T;
  lessThanCompare : T -> T -> Z
}.

(** The second constructor argument: an array of values or a comparator. *)
Inductive valuesOrCompare (T : Type) : Type :=
| Values (values : list T)
| Compare (compare : T -> T -> Z).

Arguments Values {T} values.
Arguments Compare {T} compare.

(** [constructor(d, valuesOrCompare?, compare?)].  [defaultCompare] is
    what [(a, b) => b - a] computes on the element type; on numbers it is
    [defaultLessThanCompare].  The outcome carries the object under
    construction. *)
Definition constructor {T} (defaultCompare : T -> T -> Z)
           (d : Z) (voc : option (valuesOrCompare T))
           (compare : option (T -> T -> Z)) : outcome (t T) unit :=
  let compare1 := match compare with
                  | Some c => c
                  | None => defaultCompare
                  end in
  let compare2 := match voc with
                  | Some (Compare c) => c
                  | _ => compare1
                  end in
  match voc with
  | Some (Values values) =>
    match heapify d compare2 values [] with
    | Ret _ h => Ret tt (mk d h compare2)
    | Throw msg h => Throw msg (mk d h compare2)
    | Diverge => Diverge
    end
  | _ => Ret tt (mk d [] compare2)
  end.

End DAryHeap.

(* ================================================================== *)
(** ** JavaScript [Map] *)
(* ================================================================== *)

(** A [Map] iterates its keys in insertion order, and setting an existing
    key keeps its place: an association list without duplicate keys. *)
Module JsMap.

Section Map.
Context {K V : Type}.
Variable eqb : K -> K -> bool.

Definition t := list (K * V).

Definition empty : t := [].

Fixpoint get (m : t) (k : K) : option V :=
  match m with
  | [] => None
  | (k', v) :: r => if eqb k k' then Some v else get r k
  end.

Definition has (m : t) (k : K) : bool :=
  match get m k with
  | Some _ => true
  | None => false
  end.

Fixpoint set (m : t) (k : K) (v : V) : t :=
  match m with
  | [] => [(k, v)]
  | (k', v') :: r =>
    if eqb k k' then (k', v) :: r else (k', v') :: set r k v
  end.

Fixpoint delete (m : t) (k : K) : t :=
  match m with
  | [] => []
  | (k', v') :: r => if eqb k k' then r else (k', v') :: delete r k
  end.

Definition keys (m : t) : list K := map fst m.
End Map.

End JsMap.

(* ================================================================== *)
(** ** BinaryHeap and IndexedPriorityQueue *)
(* ================================================================== *)

Module BinaryHeap.

Section Methods.
Variable T : Type.
Variable compare : T -> T -> Z.

Local Open Scope eff_scope.

(** Modelled from the spec: the class [BinaryHeap] of
    [heap/binary-heap.deprecated.class] is not among the sources.  The
    spec describes the queue's heap as a DAryHeap with [d = 2] ordered
    by the injected comparator, so [insert], [poll], [peek] and [size]
    are those of [DAryHeap] at [d = 2]. *)
Definition insert (value : T) : M (S := DAryHeap.arr T) Z :=
  DAryHeap.insert 2 compare value.

Definition poll : M (S := DAryHeap.arr T) (option T) :=
  DAryHeap.poll 2 compare.

Definition peek : M (S := DAryHeap.arr T) (option T) :=
  DAryHeap.peek (T := T).

Definition size : M (S := DAryHeap.arr T) Z :=
  DAryHeap.size (T := T).

(** Modelled from the spec: [updateAt(index, value)], also missing,
    performs "an in-place update at its known index (reposition via the
    heap's removal/reinsertion-at-index mechanics)" and returns the new
    index: the slot is overwritten, then the entry swims up and sinks
    down from where it is. *)
Definition updateAt (index : Z) (value : T)
  : M (S := DAryHeap.arr T) Z :=
  modify (fun h => Js.set h index (Some value)) ;;;
  up <- DAryHeap.swimUp 2 compare index ;;
  DAryHeap.sinkDown 2 compare up.
End Methods.

End BinaryHeap.

Module IndexedPriorityQueue.

Section Methods.
(** [V] is the value type; [eqb] is the key equality of the [Map]. *)
Variable V : Type.
Variable eqb : V -> V -> bool.

Local Open Scope eff_scope.

(** An entry [[value, priority]]. *)
Definition entry : Type := V * Z.

Record t : Type := mk {
  heap : DAryHeap.arr entry;
  hash : @JsMap.t V Z
}.

(** [compare = (a, b) => b[1] - a[1]] *)
Definition compare (a b : entry) : Z := snd b - snd a.

(** [constructor()] *)
Definition create : t := mk [] JsMap.empty.

(** Run a method of [this.heap]. *)
Definition onHeap {A} (m : M (S := DAryHeap.arr entry) A)
  : M (S := t) A :=
  fun q =>
    match m (heap q) with
    | Ret a h => Ret a (mk h (hash q))
    | Throw msg h => Throw msg (mk h (hash q))
    | Diverge => Diverge
    end.

Definition size : M (S := t) Z := onHeap (BinaryHeap.size (T := entry)).

Definition peek : M (S := t) (option entry) :=
  onHeap (BinaryHeap.peek (T := entry)).

Definition findIndex (value : V) : M (S := t) Z :=
  index <- gets (fun q => JsMap.get eqb (hash q) value) ;;
  match index with
  | Some i => if -1 <? i then ret i else ret (-1)
  | None => ret (-1)
  end.

Definition hashSet (value : V) (index : Z) : M (S := t) unit :=
  modify (fun q => mk (heap q) (JsMap.set eqb (hash q) value index)).

Definition hashDelete (value : V) : M (S := t) unit :=
  modify (fun q => mk (heap q) (JsMap.delete eqb (hash q) value)).

Definition enqueue (value : V) (priority : Z) : M (S := t) unit :=
  index <- findIndex value ;;
  if -1 <? index then
    newIndex <- onHeap (BinaryHeap.updateAt compare index
                                            (value, priority)) ;;
    hashSet value newIndex
  else
    newIndex <- onHeap (BinaryHeap.insert compare (value, priority)) ;;
    hashSet value newIndex.

Definition dequeue : M (S := t) (option entry) :=
  item <- onHeap (BinaryHeap.poll compare) ;;
  match item with
  | Some it => hashDelete (fst it) ;;; ret item
  | None => ret item
  end.
End Methods.

End IndexedPriorityQueue.

(* ================================================================== *)
(** ** GraphStorage backends *)
(* ================================================================== *)

(** A weight is a [number], modelled by [Js.jsnum]; a call that leaves the
    optional weight out passes [None]. *)

(** [w === Infinity] *)
Definition isInfinity (w : Js.jsnum) : bool :=
  match w with
  | Js.PosInf => true
  | _ => false
  end.

Module AdjacencyList.

Local Open Scope eff_scope.

Record t : Type := mk {
  vertices : Z;
  adjacencyList : @JsMap.t Z (@JsMap.t Z Js.jsnum)
}.

Definition create (size : option Z) : t :=
  mk (match size with Some n => n | None => 0 end) JsMap.empty.

Definition size : M (S := t) Z := gets vertices.

Definition setEdge (source destination : Z) (weight : option Js.jsnum)
  : M (S := t) unit :=
  if (source <? 0) || (destination <? 0)
  then throw "Negative vertex is not allowed"
  else
    modify (fun g =>
      if JsMap.has Z.eqb (adjacencyList g) source then g
      else mk (vertices g)
              (JsMap.set Z.eqb (adjacencyList g) source JsMap.empty)) ;;;
    modify (fun g =>
      let w := match weight with Some w => w | None => Js.Num 0 end in
      match JsMap.get Z.eqb (adjacencyList g) source with
      | Some row =>
        mk (vertices g)
           (JsMap.set Z.eqb (adjacencyList g) source
                      (JsMap.set Z.eqb row destination w))
      | None => g
      end) ;;;
    modify (fun g =>
      mk (Z.max (Z.max (vertices g) (source + 1)) (destination + 1))
         (adjacencyList g)).

Definition weight (source destination : Z) : M (S := t) Js.jsnum :=
  n <- size ;;
  let lastIndex := n - 1 in
  if (lastIndex <? source) || (lastIndex <? destination)
  then throw "Out of graph bound"
  else
    row <- gets (fun g => JsMap.get Z.eqb (adjacencyList g) source) ;;
    match row with
    | Some r =>
      match JsMap.get Z.eqb r destination with
      | Some w => ret w
      | None => ret Js.PosInf
      end
    | None => ret Js.PosInf
    end.

Definition neighbors (vertex : Z) : M (S := t) (list Z) :=
  n <- size ;;
  let lastIndex := n - 1 in
  if lastIndex <? vertex then throw "Out of graph bound"
  else
    row <- gets (fun g => JsMap.get Z.eqb (adjacencyList g) vertex) ;;
    match row with
    | Some r => ret (JsMap.keys r)
    | None => ret []
    end.

End AdjacencyList.

Module AdjacencyMatrix.

Local Open Scope eff_scope.

(** A row of the matrix is an array object.  [rowObjects] holds the
    arrays allocated so far; the outer array [adjacencyMatrix] holds
    references into it, so that two slots may denote one array. *)
Definition ref := nat.

Record t : Type := mk {
  vertices : Z;
  adjacencyMatrix : @Js.array ref;
  rowObjects : list (@Js.array Js.jsnum)
}.

(** [new Array(n).fill(v)] *)
Definition filled {A} (n : Z) (v : A) : @Js.array A :=
  repeat (Some v) (Z.to_nat n).

(** Overwrite the object behind reference [r]. *)
Fixpoint store {A} (objs : list A) (r : ref) (o : A) : list A :=
  match objs, r with
  | [], _ => []
  | _ :: t, O => o :: t
  | x :: t, Datatypes.S r' => x :: store t r' o
  end.

(** Allocate a fresh array object. *)
Definition alloc (row : @Js.array Js.jsnum) : M (S := t) ref :=
  fun g =>
    Ret (List.length (rowObjects g))
        (mk (vertices g) (adjacencyMatrix g) (rowObjects g ++ [row])).

(** [constructor(size?)]; [new Array(size)] rejects a negative length. *)
Definition constructor (size : option Z) : M (S := t) unit :=
  match size with
  | None => ret tt
  | Some n =>
    if n <? 0 then throw "Invalid array length"
    else
      r <- alloc (filled n Js.PosInf) ;;
      modify (fun g => mk n (filled n r) (rowObjects g))
  end.

Definition create (size : option Z) : outcome t unit :=
  constructor size (mk 0 [] []).

Definition size : M (S := t) Z := gets vertices.

(** [this.adjacencyMatrix[i][j] = v] *)
Definition setCell (i j : Z) (v : Js.jsnum) : M (S := t) unit :=
  fun g =>
    match Js.get (adjacencyMatrix g) i with
    | None => Throw "Cannot set properties of undefined" g
    | Some r =>
      match nth_error (rowObjects g) r with
      | None => Throw "Cannot set properties of undefined" g
      | Some row =>
        Ret tt (mk (vertices g) (adjacencyMatrix g)
                   (store (rowObjects g) r (Js.set row j (Some v))))
      end
    end.

(** [this.adjacencyMatrix[i]] *)
Definition getRow (i : Z) : M (S := t) (@Js.array Js.jsnum) :=
  fun g =>
    match Js.get (adjacencyMatrix g) i with
    | None => Throw "Cannot read properties of undefined" g
    | Some r =>
      match nth_error (rowObjects g) r with
      | None => Throw "Cannot read properties of undefined" g
      | Some row => Ret row g
      end
    end.

(** [this.adjacencyMatrix[i] = new Array(n).fill(Infinity)] *)
Definition newRow (i n : Z) : M (S := t) unit :=
  r <- alloc (filled n Js.PosInf) ;;
  modify (fun g =>
    mk (vertices g) (Js.set (adjacencyMatrix g) i (Some r)) (rowObjects g)).

(** The body of the loop over [i] that grows the matrix. *)
Definition growRow (lastIndex greaterIndex i : Z) : M (S := t) unit :=
  if i <=? lastIndex then
    forEach (range (lastIndex + 1) greaterIndex) (fun j =>
      setCell i j Js.PosInf)
  else newRow i (greaterIndex + 1).

Definition setEdge (source destination : Z) (weight : option Js.jsnum)
  : M (S := t) unit :=
  if (source <? 0) || (destination <? 0)
  then throw "Negative vertex is not allowed"
  else
    n <- size ;;
    let lastIndex := n - 1 in
    (if (lastIndex <? source) || (lastIndex <? destination) then
       let greaterIndex := Z.max source destination in
       forEach (range 0 greaterIndex) (growRow lastIndex greaterIndex) ;;;
       modify (fun g =>
         mk (greaterIndex + 1) (adjacencyMatrix g) (rowObjects g))
     else ret tt) ;;;
    match weight with
    | Some w => setCell source destination w
    | None => setCell source destination (Js.Num 0)
    end.

(** The result is [None] when the cell read is [undefined]. *)
Definition weight (source destination : Z)
  : M (S := t) (option Js.jsnum) :=
  n <- size ;;
  let lastIndex := n - 1 in
  if (lastIndex <? source) || (lastIndex <? destination)
  then throw "Out of graph bound"
  else
    row <- getRow source ;;
    ret (Js.get row destination).

(** [row.map((v, i) => v !== Infinity ? i : undefined)
        .filter((i) => i !== undefined)]; holes are skipped by both. *)
Fixpoint finiteIndices (row : @Js.array Js.jsnum) (i : Z) : list Z :=
  match row with
  | [] => []
  | Some v :: r =>
    if isInfinity v then finiteIndices r (i + 1)
    else i :: finiteIndices r (i + 1)
  | None :: r => finiteIndices r (i + 1)
  end.

Definition neighbors (vertex : Z) : M (S := t) (list Z) :=
  n <- size ;;
  let lastIndex := n - 1 in
  if lastIndex <? vertex then throw "Out of graph bound"
  else
    row <- getRow vertex ;;
    ret (finiteIndices row 0).

End AdjacencyMatrix.

Module EdgeList.

Local Open Scope eff_scope.

(** [static DEFAULT_WEIGHT = 1] *)
Definition DEFAULT_WEIGHT : Js.jsnum := Js.Num 1.

Record Edge : Type := mkEdge {
  source : Z;
  destination : Z;
  _weight : Js.jsnum
}.

(** [set weight(value) { this._weight = value ?? Edge.DEFAULT_WEIGHT }] *)
Definition setWeight (e : Edge) (value : option Js.jsnum) : Edge :=
  mkEdge (source e) (destination e)
         (match value with Some w => w | None => DEFAULT_WEIGHT end).

(** [new Edge(source, destination, weight)] *)
Definition newEdge (s d : Z) (weight : option Js.jsnum) : Edge :=
  setWeight (mkEdge s d DEFAULT_WEIGHT) weight.

Record t : Type := mk {
  vertices : Z;
  edges : list Edge
}.

Definition create (size : option Z) : t :=
  mk (match size with Some n => n | None => 0 end) [].

Definition size : M (S := t) Z := gets vertices.

Definition connects (s d : Z) (e : Edge) : bool :=
  (source e =? s) && (destination e =? d).

(** [xs.findIndex(p)]: the first index satisfying [p], or [-1]. *)
Fixpoint findIndex {A} (p : A -> bool) (xs : list A) : Z :=
  match xs with
  | [] => -1
  | x :: r =>
    if p x then 0
    else let i := findIndex p r in if i <? 0 then -1 else i + 1
  end.

(** [xs[i].weight = w] for an index found by [findIndex]. *)
Fixpoint setWeightAt (xs : list Edge) (i : nat) (w : option Js.jsnum)
  : list Edge :=
  match xs, i with
  | [], _ => []
  | e :: r, O => setWeight e w :: r
  | e :: r, Datatypes.S j => e :: setWeightAt r j w
  end.

Definition setVertex (vertex : Z) : M (S := t) unit :=
  if vertex <? 0 then throw "Negative vertex is not allowed"
  else
    existEdgeIndex <-
      gets (fun g => findIndex (connects vertex vertex) (edges g)) ;;
    (if existEdgeIndex <? 0 then
       modify (fun g =>
         mk (vertices g)
            (edges g ++ [newEdge vertex vertex (Some (Js.Num 0))]))
     else ret tt) ;;;
    modify (fun g => mk (Z.max (vertices g) (vertex + 1)) (edges g)).

Definition setEdge (s d : Z) (weight : option Js.jsnum)
  : M (S := t) unit :=
  if (s <? 0) || (d <? 0)
  then throw "Negative vertex is not allowed"
  else
    setVertex s ;;;
    setVertex d ;;;
    existEdgeIndex <-
      gets (fun g => findIndex (connects s d) (edges g)) ;;
    (if -1 <? existEdgeIndex then
       modify (fun g =>
         mk (vertices g)
            (setWeightAt (edges g) (Z.to_nat existEdgeIndex) weight))
     else
       modify (fun g => mk (vertices g) (edges g ++ [newEdge s d weight])))
    ;;;
    modify (fun g =>
      mk (Z.max (Z.max (vertices g) (s + 1)) (d + 1)) (edges g)).

Definition weight (s d : Z) : M (S := t) Js.jsnum :=
  n <- size ;;
  let lastIndex := n - 1 in
  if (lastIndex <? s) || (lastIndex <? d)
  then throw "Out of graph bound"
  else
    existEdge <- gets (fun g => find (connects s d) (edges g)) ;;
    match existEdge with
    | None => ret Js.PosInf
    | Some e => ret (_weight e)
    end.

Definition neighbors (vertex : Z) : M (S := t) (list Z) :=
  n <- size ;;
  let lastIndex := n - 1 in
  if lastIndex <? vertex then throw "Out of graph bound"
  else
    gets (fun g =>
      flat_map (fun e =>
                  if source e =? vertex then [destination e] else [])
               (edges g)).

End EdgeList.

(* ================================================================== *)
(** ** Dfs_TopSortStrategy *)
(* ================================================================== *)

Module DfsTopSort.

Local Open Scope eff_scope.

(** The class [DirectedGraph] is not among the sources; the strategy
    calls only [size()] and [neighbors(vertex)], which are taken as
    parameters.  [neighbors v = None] stands for a call that throws. *)
Record DirectedGraph : Type := mkGraph {
  size : Z;
  neighbors : Z -> option (list Z)
}.

(** The two arrays the traversal mutates. *)
Record state : Type := mk {
  visited : @Js.array bool;
  order : @Js.array Z
}.

(** [visited[v]] used as a condition: [undefined] is falsy. *)
Definition isVisited (v : Z) : M (S := state) bool :=
  gets (fun s => match Js.get (visited s) v with
                 | Some b => b
                 | None => false
                 end).

(** [visited[v] = true] *)
Definition markVisited (v : Z) : M (S := state) unit :=
  modify (fun s => mk (Js.set (visited s) v (Some true)) (order s)).

(** [order[i] = v] *)
Definition setOrder (i v : Z) : M (S := state) unit :=
  modify (fun s => mk (visited s) (Js.set (order s) i (Some v))).

Fixpoint topSort (fuel : nat) (graph : DirectedGraph)
         (vertex currentIndex : Z) : M (S := state) Z :=
  match fuel with
  | O => diverge
  | Datatypes.S fuel' =>
    match neighbors graph vertex with
    | None => throw "Out of graph bound"
    | Some ns =>
      currentIndex' <-
        reduce (fun cur neighbor =>
                  seen <- isVisited neighbor ;;
                  if seen then ret cur
                  else
                    markVisited neighbor ;;;
                    topSort fuel' graph neighbor cur)
               ns currentIndex ;;
      setOrder currentIndex' vertex ;;;
      ret (currentIndex' - 1)
    end
  end.

(** [Array.from({ length: n })] and [Array.from({ length: n }, () => v)] *)
Definition arrayOfLength {A} (n : Z) (v : option A) : @Js.array A :=
  repeat v (Z.to_nat n).

(** The nesting of [topSort] calls is at most the number of vertices
    when every neighbour is a vertex of the graph, so [size] levels are
    enough there (see [execute_returns]). *)
Definition execute (graph : DirectedGraph)
  : outcome state (@Js.array Z) :=
  let n := size graph in
  let start := mk (arrayOfLength n (Some false)) (arrayOfLength n None) in
  let loop :=
    reduce (fun currentIndex vertex =>
              seen <- isVisited vertex ;;
              if seen then ret currentIndex
              else
                markVisited vertex ;;;
                topSort (Z.to_nat n) graph vertex currentIndex)
           (range 0 (n - 1)) (n - 1) in
  (_ <- loop ;; gets order) start.

End DfsTopSort.

(* ================================================================== *)
(** ** Vocabulary of the properties *)
(* ================================================================== *)

Module Scenario.

Local Open Scope eff_scope.

(** [for (const v of values) heap.insert(v)] *)
Definition insertAll {T} (d : Z) (compare : T -> T -> Z)
           (values : list T) : M (S := DAryHeap.arr T) unit :=
  forEach values (fun v => _ <- DAryHeap.insert d compare v ;; ret tt).

(** [count] successive calls of [poll()], results in call order. *)
Fixpoint pollAll {T} (d : Z) (compare : T -> T -> Z) (count : nat)
  : M (S := DAryHeap.arr T) (list (option T)) :=
  match count with
  | O => ret []
  | Datatypes.S k =>
    v <- DAryHeap.poll d compare ;;
    vs <- pollAll d compare k ;;
    ret (v :: vs)
  end.

(** The public mutators of [DAryHeap]; an index is an array index. *)
Inductive heapCall (T : Type) : Type :=
| Insert (value : T)
| Poll
| RemoveAtIndex (index : nat)
| Heapify (values : list T).

Arguments Insert {T} value.
Arguments Poll {T}.
Arguments RemoveAtIndex {T} index.
Arguments Heapify {T} values.

Definition heapStep {T} (d : Z) (compare : T -> T -> Z)
           (c : heapCall T) : M (S := DAryHeap.arr T) unit :=
  match c with
  | Insert v => _ <- DAryHeap.insert d compare v ;; ret tt
  | Poll => _ <- DAryHeap.poll d compare ;; ret tt
  | RemoveAtIndex i => DAryHeap.removeAtIndex d compare (Z.of_nat i)
  | Heapify vs => DAryHeap.heapify d compare vs
  end.

(** A sequence of calls, each of which returns normally for the run to
    return normally. *)
Definition heapRun {T} (d : Z) (compare : T -> T -> Z)
           (cs : list (heapCall T)) : M (S := DAryHeap.arr T) unit :=
  forEach cs (heapStep d compare).

(** [compare(a, b) >= 0] on two array slots. *)
Definition ranksAtOrAbove {T} (compare : T -> T -> Z)
           (a b : option T) : Prop :=
  match a, b with
  | Some x, Some y => 0 <= compare x y
  | _, _ => False
  end.

(** The heap-order property: every index [i] ranks at or above each of
    its children [d*i+1 .. d*i+d] below the size. *)
Definition heapOrdered {T} (d : Z) (compare : T -> T -> Z)
           (h : DAryHeap.arr T) : Prop :=
  forall i c,
    0 <= i -> d * i + 1 <= c <= d * i + d -> c < Js.length h ->
    ranksAtOrAbove compare (Js.get h i) (Js.get h c).

(** A comparator that orders consistently: its sign is antisymmetric
    and "at or above" is transitive. *)
Definition consistent {T} (compare : T -> T -> Z) : Prop :=
  (forall a b, compare a b <= 0 -> 0 <= compare b a) /\
  (forall a b c, 0 <= compare a b -> 0 <= compare b c ->
                 0 <= compare a c).

(** The comparator [(a, b) => a < b ? 1 : -1], which answers [-1] for
    equal values in either order. *)
Definition strictCompare (a b : Z) : Z := if a <? b then 1 else -1.

(** The heap of the scenario: [new DAryHeap(3)] after inserting
    5, 3, 8, 1, 9. *)
Definition scenarioHeap : outcome (DAryHeap.arr Z) unit :=
  match DAryHeap.constructor DAryHeap.defaultLessThanCompare 3 None None with
  | Ret _ obj =>
    insertAll (DAryHeap.d obj) (DAryHeap.lessThanCompare obj) [5; 3; 8; 1; 9]
              (DAryHeap.heap obj)
  | Throw msg obj => Throw msg (DAryHeap.heap obj)
  | Diverge => Diverge
  end.

End Scenario.

(** Vocabulary for the storage backends. *)
Module Storage.

Local Open Scope eff_scope.

(** One call [setEdge(source, destination, weight?)]. *)
Record edgeCall : Type := mkCall {
  callSource : Z;
  callDestination : Z;
  callWeight : option Js.jsnum
}.

Definition setEdgesAL (calls : list edgeCall) : M (S := AdjacencyList.t) unit :=
  forEach calls (fun c =>
    AdjacencyList.setEdge (callSource c) (callDestination c) (callWeight c)).

Definition setEdgesAM (calls : list edgeCall)
  : M (S := AdjacencyMatrix.t) unit :=
  forEach calls (fun c =>
    AdjacencyMatrix.setEdge (callSource c) (callDestination c)
                            (callWeight c)).

Definition setEdgesEL (calls : list edgeCall) : M (S := EdgeList.t) unit :=
  forEach calls (fun c =>
    EdgeList.setEdge (callSource c) (callDestination c) (callWeight c)).

(** The object a constructor call without arguments starts from. *)
Definition blankAM : AdjacencyMatrix.t := AdjacencyMatrix.mk 0 [] [].

(** The weight the adjacency list and the matrix store for a call. *)
Definition stored (w : option Js.jsnum) : Js.jsnum :=
  match w with Some w => w | None => Js.Num 0 end.

(** The weight the edge list stores for a call. *)
Definition storedEL (w : option Js.jsnum) : Js.jsnum :=
  match w with Some w => w | None => EdgeList.DEFAULT_WEIGHT end.

(** Some call of the sequence set the edge [u -> v]. *)
Definition wasSet (calls : list edgeCall) (u v : Z) : Prop :=
  exists c, In c calls /\ callSource c = u /\ callDestination c = v.

(** Some call of the sequence named [u] as an endpoint. *)
Definition wasNamed (calls : list edgeCall) (u : Z) : Prop :=
  exists c, In c calls /\ (callSource c = u \/ callDestination c = u).

(** No call passes [Infinity] as a weight. *)
Definition finiteWeights (calls : list edgeCall) : Prop :=
  forall c, In c calls -> callWeight c <> Some Js.PosInf.

(** Every call passes a weight. *)
Definition explicitWeights (calls : list edgeCall) : Prop :=
  forall c, In c calls -> callWeight c <> None.

(** Two arrays of vertices hold the same set. *)
Definition sameSet (xs ys : list Z) : Prop :=
  forall x, In x xs <-> In x ys.

(** The weight the adjacency list stores for [u -> v], if any. *)
Definition edgeAL (g : AdjacencyList.t) (u v : Z) : option Js.jsnum :=
  match JsMap.get Z.eqb (AdjacencyList.adjacencyList g) u with
  | Some row => JsMap.get Z.eqb row v
  | None => None
  end.

(** The row array behind slot [i] of the matrix. *)
Definition rowAM (g : AdjacencyMatrix.t) (i : Z)
  : option (@Js.array Js.jsnum) :=
  match Js.get (AdjacencyMatrix.adjacencyMatrix g) i with
  | Some r => nth_error (AdjacencyMatrix.rowObjects g) r
  | None => None
  end.

(** The reference in slot [i] of the matrix. *)
Definition slotAM (g : AdjacencyMatrix.t) (i : Z)
  : option AdjacencyMatrix.ref :=
  Js.get (AdjacencyMatrix.adjacencyMatrix g) i.

(** [adjacencyMatrix[i][j]], when row [i] exists. *)
Definition cellAM (g : AdjacencyMatrix.t) (i j : Z) : option Js.jsnum :=
  match rowAM g i with
  | Some row => Js.get row j
  | None => None
  end.

Definition sameRef (a : option AdjacencyMatrix.ref)
           (r : AdjacencyMatrix.ref) : bool :=
  match a with
  | Some r' => Nat.eqb r' r
  | None => false
  end.

(** Every reference held by the matrix denotes an allocated array. *)
Definition validRefs (g : AdjacencyMatrix.t) : Prop :=
  forall i r, slotAM g i = Some r ->
              (r < List.length (AdjacencyMatrix.rowObjects g))%nat.

(** No two slots of the matrix share a row array. *)
Definition distinctRows (g : AdjacencyMatrix.t) : Prop :=
  forall i i' r, slotAM g i = Some r -> slotAM g i' = Some r -> i = i'.

(** Valid references, and a row behind every slot below the vertex
    count. *)
Definition wellFormedAM (g : AdjacencyMatrix.t) : Prop :=
  0 <= AdjacencyMatrix.vertices g /\
  validRefs g /\
  (forall i, 0 <= i < AdjacencyMatrix.vertices g -> slotAM g i <> None).

(** Same vertex count, same slots, as many row arrays. *)
Definition sameShape (g g' : AdjacencyMatrix.t) : Prop :=
  AdjacencyMatrix.vertices g' = AdjacencyMatrix.vertices g /\
  AdjacencyMatrix.adjacencyMatrix g' = AdjacencyMatrix.adjacencyMatrix g /\
  List.length (AdjacencyMatrix.rowObjects g')
  = List.length (AdjacencyMatrix.rowObjects g).

(** [new Array(n).fill(Infinity)[j]] *)
Definition filledCell (n j : Z) : option Js.jsnum :=
  if (0 <=? j) && (j <? n) then Some Js.PosInf else None.

(** Cell [(i, j)] after the loop over rows [a .. hi] that grows a matrix
    whose last index was [last]. *)
Definition grownFrom (g : AdjacencyMatrix.t) (last hi a i j : Z)
  : option Js.jsnum :=
  if (a <=? i) && (i <=? hi) then
    if i <=? last then
      if (last + 1 <=? j) && (j <=? hi) then Some Js.PosInf
      else cellAM g i j
    else filledCell (hi + 1) j
  else cellAM g i j.

(** Cell [(i, j)] after the growth step of [setEdge(s, d)], if any. *)
Definition grown (g : AdjacencyMatrix.t) (s d i j : Z) : option Js.jsnum :=
  if Z.max s d <? AdjacencyMatrix.vertices g then cellAM g i j
  else grownFrom g (AdjacencyMatrix.vertices g - 1) (Z.max s d) 0 i j.

Definition weightOf (e : option EdgeList.Edge) : option Js.jsnum :=
  match e with
  | Some e => Some (EdgeList._weight e)
  | None => None
  end.

(** The weight the edge list holds for [u -> v], if any. *)
Definition edgeEL (g : EdgeList.t) (u v : Z) : option Js.jsnum :=
  weightOf (find (EdgeList.connects u v) (EdgeList.edges g)).

(** The edges after the two [setVertex] calls of [setEdge(s, d)]: the
    placeholder self-loops are in. *)
Definition withLoops (g : EdgeList.t) (s d u v : Z) : option Js.jsnum :=
  if (u =? v) && ((u =? s) || (u =? d))
  then match edgeEL g u u with
       | Some w => Some w
       | None => Some (Js.Num 0)
       end
  else edgeEL g u v.

(** Every call names non-negative vertices. *)
Definition nonNegative (calls : list edgeCall) : Prop :=
  forall c, In c calls -> 0 <= callSource c /\ 0 <= callDestination c.

(** What [weight] returns for a stored edge, or for none. *)
Definition weightOr (e : option Js.jsnum) : Js.jsnum :=
  match e with
  | Some w => w
  | None => Js.PosInf
  end.

(** The three backends after the same calls, each started empty. *)
Record agree (calls : list edgeCall) (gAL : AdjacencyList.t)
       (gAM : AdjacencyMatrix.t) (gEL : EdgeList.t) : Prop := mkAgree {
  agree_sizeAM : AdjacencyMatrix.vertices gAM = AdjacencyList.vertices gAL;
  agree_sizeEL : EdgeList.vertices gEL = AdjacencyList.vertices gAL;
  agree_size : 0 <= AdjacencyList.vertices gAL;
  agree_wf : wellFormedAM gAM;
  agree_distinct : distinctRows gAM;
  agree_cells : forall i j,
      0 <= i < AdjacencyList.vertices gAL ->
      cellAM gAM i j
      = if (0 <=? j) && (j <? AdjacencyList.vertices gAL)
        then Some (weightOr (edgeAL gAL i j)) else None;
  agree_setAL : forall u v, edgeAL gAL u v <> None <-> wasSet calls u v;
  agree_range : forall u, wasNamed calls u ->
                          0 <= u < AdjacencyList.vertices gAL;
  agree_setEL : forall u v, u <> v ->
                            (edgeEL gEL u v <> None <-> wasSet calls u v);
  agree_loopEL : forall u, edgeEL gEL u u <> None <-> wasNamed calls u;
  agree_finite : finiteWeights calls ->
                 forall u v, edgeAL gAL u v <> Some Js.PosInf /\
                             edgeEL gEL u v <> Some Js.PosInf;
  agree_explicit : explicitWeights calls ->
                   forall u v, u <> v -> edgeEL gEL u v = edgeAL gAL u v
}.

(** Every call names vertices up to [Number.MAX_SAFE_INTEGER], so that
    the code's [index + 1] and [size() - 1] are exact. *)
Definition safeIndices (calls : list edgeCall) : Prop :=
  forall c, In c calls ->
            callSource c <= Js.MAX_SAFE_INTEGER /\
            callDestination c <= Js.MAX_SAFE_INTEGER.

(** The weight argument of the last call that set the edge [u -> v], if
    there was one. *)
Fixpoint lastWeight (calls : list edgeCall) (u v : Z)
  : option (option Js.jsnum) :=
  match calls with
  | [] => None
  | c :: rest =>
    match lastWeight rest u v with
    | Some w => Some w
    | None =>
      if (u =? callSource c) && (v =? callDestination c)
      then Some (callWeight c) else None
    end
  end.

(** [wasNamed], decided. *)
Definition named (calls : list edgeCall) (u : Z) : bool :=
  existsb (fun c => (u =? callSource c) || (u =? callDestination c)) calls.

(** The weight of a self-loop after [setVertex]: the one it had, or the
    placeholder's 0. *)
Definition loopOf (e : option Js.jsnum) : Js.jsnum :=
  match e with
  | Some w => w
  | None => Js.Num 0
  end.

(** The matrix after [setEdge(1, 1, 7)] on a new one. *)
Definition sampleAM : AdjacencyMatrix.t :=
  match setEdgesAM [mkCall 1 1 (Some (Js.Num 7))] blankAM with
  | Ret _ g => g
  | _ => blankAM
  end.

(** The size after a sequence of [setEdge] calls on a new storage: one
    more than the largest index named. *)
Definition sizeAfter (calls : list edgeCall) : Z :=
  fold_left (fun n c =>
               Z.max (Z.max n (callSource c + 1)) (callDestination c + 1))
            calls 0.

(** The end points of an edge of the edge list. *)
Definition endpoints (e : EdgeList.Edge) : Z * Z :=
  (EdgeList.source e, EdgeList.destination e).

(** No two edges of the edge list connect the same pair of vertices. *)
Definition uniqueEdges (g : EdgeList.t) : Prop :=
  NoDup (map endpoints (EdgeList.edges g)).

(** No row of the adjacency list holds a destination twice. *)
Definition uniqueKeys (g : AdjacencyList.t) : Prop :=
  forall u row,
    JsMap.get Z.eqb (AdjacencyList.adjacencyList g) u = Some row ->
    NoDup (JsMap.keys row).

End Storage.

(** Vocabulary for the indexed priority queue. *)
Module QueueInv.

(** Every tracked value sits in the heap at the index the map records. *)
Definition indexConsistent {V} (eqb : V -> V -> bool)
           (q : IndexedPriorityQueue.t V) : Prop :=
  forall v i,
    JsMap.get eqb (IndexedPriorityQueue.hash q) v = Some i ->
    exists p, Js.get (IndexedPriorityQueue.heap q) i = Some (v, p).

Local Open Scope eff_scope.
Local Open Scope string_scope.

(** [enqueue("a", 1); enqueue("b", 2); enqueue("c", 3); dequeue()] on a
    new queue. *)
Definition staleScenario
  : outcome (IndexedPriorityQueue.t string)
            (option (IndexedPriorityQueue.entry string)) :=
  (IndexedPriorityQueue.enqueue String.eqb "a" 1 ;;;
   IndexedPriorityQueue.enqueue String.eqb "b" 2 ;;;
   IndexedPriorityQueue.enqueue String.eqb "c" 3 ;;;
   IndexedPriorityQueue.dequeue String.eqb)
    (IndexedPriorityQueue.create string).

End QueueInv.

(** Vocabulary and invariant for the topological sort. *)
Module TopSortInv.

Import DfsTopSort.

Section Graph.
Variable g : DirectedGraph.

(** [u -> v] is an edge: [u] is a vertex and [v] one of its
    neighbours. *)
Definition edge (u v : Z) : Prop :=
  0 <= u < size g /\ exists ns, neighbors g u = Some ns /\ In v ns.

(** [v] is reachable from [u] along edges. *)
Inductive reaches : Z -> Z -> Prop :=
| reaches_refl u : reaches u u
| reaches_step u v w : reaches u v -> edge v w -> reaches u w.

(** No edge closes a cycle. *)
Definition acyclic : Prop := forall u v, edge u v -> ~ reaches v u.

(** [neighbors] answers for every vertex, with vertices. *)
Definition wellFormed : Prop :=
  0 <= size g /\
  forall u, 0 <= u < size g ->
            exists ns, neighbors g u = Some ns /\
                       forall v, In v ns -> 0 <= v < size g.

(** A list in which every vertex comes before all its successors. *)
Inductive topo : list Z -> Prop :=
| topo_nil : topo []
| topo_cons x l :
    topo l -> (forall w, edge x w -> In w l) -> topo (x :: l).

(** The [order] array when the vertices [fin] have been placed, last
    slots first. *)
Definition pending (fin : list Z) : @Js.array Z :=
  repeat None (Z.to_nat (size g) - List.length fin) ++ map Some fin.

(** [currentIndex] at that point. *)
Definition nextIndex (fin : list Z) : Z :=
  Z.of_nat (Z.to_nat (size g) - List.length fin) - 1.

(** The traversal's invariant: [stk] are the vertices whose [topSort]
    call is in progress, [fin] those already placed. *)
Record inv (st : state) (stk fin : list Z) : Prop := mkInv {
  inv_vis : forall v, Js.get (visited st) v = Some true
                      <-> In v stk \/ In v fin;
  inv_nodup : NoDup (stk ++ fin);
  inv_range : forall v, In v (stk ++ fin) -> 0 <= v < size g;
  inv_topo : acyclic -> topo fin;
  inv_order : order st = pending fin
}.

(** What the loops do with one vertex: skip it when visited, else mark
    it and sort from it. *)
Definition visit (fuel : nat) (cur vertex : Z) : M (S := state) Z :=
  bind (isVisited vertex)
       (fun seen =>
          if seen then ret cur
          else bind (markVisited vertex)
                    (fun _ => topSort fuel g vertex cur)).

(** [topSort] with [fuel] levels of nesting places the vertex it is
    called on, and the vertices it discovers, in front of those already
    placed. *)
Definition sorts (fuel : nat) : Prop :=
  forall x stk fin st,
    inv st (x :: stk) fin ->
    (forall y, In y (x :: stk) -> reaches y x) ->
    (Z.to_nat (size g) < fuel + List.length (x :: stk) + List.length fin)%nat ->
    exists st' pre,
      topSort fuel g x (nextIndex fin) st
      = Ret (nextIndex (x :: pre ++ fin)) st' /\
      inv st' stk (x :: pre ++ fin).
End Graph.

(** The graph of the test: edges (0,1), (0,2), (1,3), (2,3), (3,4). *)
Definition diamond : DirectedGraph :=
  mkGraph 5 (fun v =>
    if v =? 0 then Some [1; 2]
    else if v =? 1 then Some [3]
    else if v =? 2 then Some [3]
    else if v =? 3 then Some [4]
    else if v =? 4 then Some []
    else None).

(** A graph with a cycle: edges (0,1), (1,0), (1,2). *)
Definition looped : DirectedGraph :=
  mkGraph 3 (fun v =>
    if v =? 0 then Some [1]
    else if v =? 1 then Some [0; 2]
    else if v =? 2 then Some []
    else None).

End TopSortInv.

(** Invariants of the heap's rebalancing routines. *)
Module HeapInv.

Section Inv.
Variable T : Type.
Variable d : Z.
Variable compare : T -> T -> Z.

Implicit Types (h : DAryHeap.arr T).

Definition parent (c : Z) : Z := (c - 1) / d.

Definition above h (i c : Z) : Prop :=
  Scenario.ranksAtOrAbove compare (Js.get h i) (Js.get h c).

(** Every child whose parent index is at least [lo] is ordered. *)
Definition orderedFrom (lo : Z) h : Prop :=
  forall c, 1 <= c < Js.length h -> lo <= parent c ->
            above h (parent c) c.

(** Slot [k] is the only one that may outrank its parent. *)
Definition upInv (k : Z) h : Prop :=
  Js.dense h /\ 0 <= k < Js.length h /\
  (forall c, 1 <= c < Js.length h -> c <> k -> above h (parent c) c) /\
  (1 <= k -> forall c, 1 <= c < Js.length h -> parent c = k ->
                       above h (parent k) c).

(** Among the parents from [lo] on, slot [k] is the only one that may
    be outranked by a child. *)
Definition downInv (lo k : Z) h : Prop :=
  Js.dense h /\ 0 <= lo <= k /\
  (forall c, 1 <= c < Js.length h -> lo <= parent c -> parent c <> k ->
             above h (parent c) c) /\
  (1 <= k -> lo <= parent k ->
   forall c, 1 <= c < Js.length h -> parent c = k ->
             above h (parent k) c).

(** Slot [k] holds an arbitrary value: it may outrank its parent and
    be outranked by its children. *)
Definition holeInv (k : Z) h : Prop :=
  Js.dense h /\ 0 <= k < Js.length h /\
  (forall c, 1 <= c < Js.length h -> c <> k -> parent c <> k ->
             above h (parent c) c) /\
  (1 <= k -> forall c, 1 <= c < Js.length h -> parent c = k ->
                       above h (parent k) c).

(** The child indices of [k] below the size, as [childIndices] lists
    them. *)
Definition children (k : Z) h : list Z :=
  filter (fun c => c <? Js.length h)
         (map (fun i => d * k + Z.of_nat i) (seq 1 (Z.to_nat d))).

(** What every public mutator preserves. *)
Definition good h : Prop := Js.dense h /\ orderedFrom 0 h.
End Inv.

(** The index map of an exchange of slots [i] and [j]. *)
Definition transpose (i j n : nat) : nat :=
  if Nat.eqb n j then i else if Nat.eqb n i then j else n.

(** Each value ranks at or above every later one. *)
Definition sortedBy {T} (compare : T -> T -> Z) (vs : list T) : Prop :=
  StronglySorted (fun a b => 0 <= compare a b) vs.

End HeapInv.

(* ================================================================== *)
(** * Properties *)
(* ================================================================== *)

Unset Implicit Arguments.

(** ** JavaScript arrays *)

Module JsFacts.

Section Array.
Context {A : Type}.
Implicit Types (a : @Js.array A) (v : option A).

Lemma get_neg a i : i < 0 -> Js.get a i = None.
Proof.
  intros H. unfold Js.get.
  destruct (Z.ltb_spec i 0); [reflexivity | lia].
Qed.

Lemma get_beyond a i : Js.length a <= i -> Js.get a i = None.
Proof.
  intros H. unfold Js.get, Js.length in *.
  destruct (Z.ltb_spec i 0); [reflexivity |].
  destruct (nth_error a (Z.to_nat i)) eqn:E; [| reflexivity].
  assert (Z.to_nat i < List.length a)%nat
    by (apply nth_error_Some; congruence).
  lia.
Qed.

Lemma get_nat a (n : nat) :
  Js.get a (Z.of_nat n) = match nth_error a n with
                          | Some x => x
                          | None => None
                          end.
Proof.
  unfold Js.get.
  destruct (Z.ltb_spec (Z.of_nat n) 0); [lia |].
  now rewrite Nat2Z.id.
Qed.

Lemma length_update a n v :
  List.length (Js.update a n v) = List.length a.
Proof.
  revert n; induction a as [| x t IH]; intros [| n]; simpl; auto.
Qed.

Lemma nth_update a n m v :
  (n < List.length a)%nat ->
  nth_error (Js.update a n v) m
  = if Nat.eqb m n then Some v else nth_error a m.
Proof.
  revert n m; induction a as [| x t IH]; intros n m Hn; simpl in *.
  - lia.
  - destruct n as [| n]; destruct m as [| m]; simpl; auto.
    apply IH. lia.
Qed.

Lemma length_set a i v :
  0 <= i ->
  Js.length (Js.set a i v) = Z.max (Js.length a) (i + 1).
Proof.
  intros Hi. unfold Js.set, Js.length.
  destruct (Z.ltb_spec i 0); [lia |].
  destruct (Nat.ltb_spec (Z.to_nat i) (List.length a)).
  - rewrite length_update. lia.
  - rewrite !length_app, repeat_length. simpl. lia.
Qed.

Lemma set_neg a i v : i < 0 -> Js.set a i v = a.
Proof.
  intros H. unfold Js.set.
  destruct (Z.ltb_spec i 0); [reflexivity | lia].
Qed.

Lemma get_set a i j v :
  0 <= i ->
  Js.get (Js.set a i v) j = if j =? i then v else Js.get a j.
Proof.
  intros Hi. unfold Js.set.
  destruct (Z.ltb_spec i 0); [lia |].
  destruct (Z.ltb_spec j 0) as [Hj | Hj].
  { destruct (Z.eqb_spec j i); [lia |].
    now rewrite !get_neg by lia. }
  rewrite <- (Z2Nat.id j) by lia.
  rewrite !get_nat.
  destruct (Nat.ltb_spec (Z.to_nat i) (List.length a)) as [Hlt | Hge].
  - rewrite nth_update by assumption.
    destruct (Nat.eqb_spec (Z.to_nat j) (Z.to_nat i)) as [E | E];
      destruct (Z.eqb_spec (Z.of_nat (Z.to_nat j)) i); auto; lia.
  - destruct (Z.eqb_spec (Z.of_nat (Z.to_nat j)) i) as [E | E].
    + assert (Z.to_nat j = Z.to_nat i) as -> by lia.
      rewrite nth_error_app2 by lia.
      rewrite nth_error_app2 by (rewrite repeat_length; lia).
      rewrite repeat_length, Nat.sub_diag. reflexivity.
    + destruct (Nat.lt_ge_cases (Z.to_nat j) (List.length a)).
      * now rewrite nth_error_app1 by assumption.
      * rewrite nth_error_app2 by assumption.
        assert (nth_error a (Z.to_nat j) = None) as ->
            by (apply nth_error_None; lia).
        destruct (Nat.lt_ge_cases (Z.to_nat j - List.length a)
                                  (Z.to_nat i - List.length a)).
        -- rewrite nth_error_app1 by (rewrite repeat_length; lia).
           now rewrite nth_error_repeat by lia.
        -- rewrite nth_error_app2 by (rewrite repeat_length; lia).
           rewrite repeat_length.
           destruct (Z.to_nat j - List.length a
                     - (Z.to_nat i - List.length a))%nat
             as [| k] eqn:Ek; [lia |].
           simpl. now destruct k.
Qed.

Lemma get_repeat n v i :
  0 <= i < Z.of_nat n -> Js.get (repeat v n) i = v.
Proof.
  intros H. rewrite <- (Z2Nat.id i) by lia. rewrite get_nat.
  now rewrite nth_error_repeat by lia.
Qed.

Lemma length_removelast a :
  Js.length (removelast a) = Z.max 0 (Js.length a - 1).
Proof.
  unfold Js.length. induction a as [| x t IH]; [reflexivity |].
  destruct t as [| y t]; [reflexivity |].
  change (removelast (x :: y :: t)) with (x :: removelast (y :: t)).
  simpl List.length in *. lia.
Qed.

Lemma get_removelast a i :
  i < Js.length a - 1 -> Js.get (removelast a) i = Js.get a i.
Proof.
  intros H. destruct (Z.ltb_spec i 0) as [Hn | Hn].
  { now rewrite !get_neg by lia. }
  rewrite <- (Z2Nat.id i) by lia. rewrite !get_nat.
  unfold Js.length in H.
  assert (Hlt : (S (Z.to_nat i) < List.length a)%nat) by lia.
  clear H Hn. revert Hlt. generalize (Z.to_nat i) as n.
  induction a as [| x t IH]; intros n Hlt; [simpl in Hlt; lia |].
  destruct t as [| y t]; [simpl in Hlt; lia |].
  change (removelast (x :: y :: t)) with (x :: removelast (y :: t)).
  destruct n as [| n]; [reflexivity |].
  simpl nth_error. apply IH. simpl in *. lia.
Qed.

Lemma length_nonneg a : 0 <= Js.length a.
Proof. unfold Js.length. lia. Qed.

Lemma get_nil i : Js.get (A := A) [] i = None.
Proof.
  unfold Js.get. destruct (i <? 0); [reflexivity |].
  now destruct (Z.to_nat i).
Qed.
End Array.

End JsFacts.

(** ** DAryHeap *)

Module DAryHeapFacts.

Import DAryHeap Scenario HeapInv.

Section Swap.
Variable T : Type.
Implicit Types (h : arr T).

Lemma get_exchange h i j c :
  0 <= i -> 0 <= j ->
  Js.get (exchange i j h) c
  = if c =? j then Js.get h i
    else if c =? i then Js.get h j else Js.get h c.
Proof.
  intros Hi Hj. unfold exchange.
  rewrite !JsFacts.get_set by assumption. reflexivity.
Qed.

Lemma length_exchange h i j :
  0 <= i < Js.length h -> 0 <= j < Js.length h ->
  Js.length (exchange i j h) = Js.length h.
Proof.
  intros Hi Hj. unfold exchange.
  rewrite !JsFacts.length_set by lia. lia.
Qed.

Lemma dense_get h i :
  Js.dense h -> 0 <= i < Js.length h -> exists x, Js.get h i = Some x.
Proof.
  intros D Hi. specialize (D i Hi).
  destruct (Js.get h i) as [x |]; [now exists x | congruence].
Qed.

Lemma dense_exchange h i j :
  Js.dense h -> 0 <= i < Js.length h -> 0 <= j < Js.length h ->
  Js.dense (exchange i j h).
Proof.
  intros D Hi Hj c Hc.
  rewrite length_exchange in Hc by assumption.
  rewrite get_exchange by lia.
  destruct (c =? j); [apply D; lia |].
  destruct (c =? i); apply D; lia.
Qed.

Lemma dense_ofList (vs : list T) : Js.dense (Js.ofList vs).
Proof.
  intros i Hi. unfold Js.length, Js.ofList in *.
  rewrite length_map in Hi.
  rewrite <- (Z2Nat.id i) by lia. rewrite JsFacts.get_nat.
  rewrite nth_error_map.
  destruct (nth_error vs (Z.to_nat i)) eqn:E; simpl; [congruence |].
  apply nth_error_None in E. lia.
Qed.
End Swap.

Section AnyBranching.
Variable T : Type.
Variable d : Z.
Variable compare : T -> T -> Z.

Implicit Types (h : arr T).

(** [swimUp] at a slot that holds [undefined] throws, whatever [d] is. *)
Lemma swimUp_undefined k h :
  k <> 0 -> Js.get h k = None ->
  swimUp d compare k h = Throw "Invalid inputs" h.
Proof.
  intros Hk Hget. unfold swimUp. simpl swimUp_rec.
  destruct (Z.eqb_spec k 0); [lia |].
  destruct (parentIndex d k);
    unfold bind, read, gets; rewrite Hget; reflexivity.
Qed.

(** The array after [swap(k, n - 1)] and [pop()], for [k] at or past the
    last slot: slot [k] is gone. *)
Lemma removed_past_length k h :
  0 <= k -> Js.length h - 1 <= k ->
  Js.length (removelast (exchange k (Js.length h - 1) h)) = k.
Proof.
  intros Hk Hge. rewrite JsFacts.length_removelast. unfold exchange.
  pose proof (JsFacts.length_nonneg h).
  destruct (Z.ltb_spec (Js.length h - 1) 0).
  - rewrite (JsFacts.set_neg _ (Js.length h - 1)) by assumption.
    rewrite JsFacts.length_set by assumption. lia.
  - rewrite !JsFacts.length_set by lia. lia.
Qed.

Lemma removeAtIndex_eq k h :
  removeAtIndex d compare k h
  = (_ <- swimUp d compare k ;; _ <- sinkDown d compare k ;; ret tt)%eff
      (removelast (exchange k (Js.length h - 1) h)).
Proof. reflexivity. Qed.

Lemma sinkDown_empty k h :
  Js.length h = 0 -> 0 <= k -> sinkDown d compare k h = Ret k h.
Proof.
  intros Hlen Hk. unfold sinkDown, bind, size, gets. rewrite Hlen. simpl.
  unfold bind. unfold childIndices, bind, size, gets, ret. rewrite Hlen.
  destruct (filter _ _) as [| c t] eqn:E; [reflexivity |].
  assert (Hin : In c (c :: t)) by now left.
  rewrite <- E in Hin. apply filter_In in Hin. destruct Hin as [Hin Hlt].
  apply in_map_iff in Hin. destruct Hin as (i & <- & Hi).
  apply in_seq in Hi. apply Z.ltb_lt in Hlt.
  assert (0 < d) by lia. nia.
Qed.

(** *** The fuel is enough: [swimUp] and [sinkDown] always return or
    throw *)

Lemma swimUp_rec_at_root fuel h : swimUp_rec d compare fuel 0 h = Ret 0 h.
Proof. destruct fuel; reflexivity. Qed.

Lemma parentIndex_num k p :
  parentIndex d k = Js.Num p -> d <> 0 /\ p = (k - 1) / d.
Proof.
  unfold parentIndex. destruct (Z.eqb_spec d 0).
  - destruct (k - 1 =? 0); [discriminate |].
    destruct (0 <? k - 1); discriminate.
  - intros [= <-]. now split.
Qed.

Lemma swimUp_rec_returns fuel : forall k h,
  k <= Z.of_nat fuel -> swimUp_rec d compare (S fuel) k h <> Diverge.
Proof.
  induction fuel as [| fuel IH]; intros k h Hfuel; simpl swimUp_rec;
    (destruct (Z.eqb_spec k 0) as [| Hk0]; [discriminate |]);
    (destruct (parentIndex d k) as [p | | |] eqn:EP;
     [| unfold bind, read, gets; destruct (Js.get h k); discriminate ..]);
    unfold bind, read, gets;
    (destruct (Js.get h k) as [x |] eqn:Ex; [| discriminate]);
    (destruct (Js.get h p) as [y |] eqn:Ey; [| discriminate]);
    simpl; (destruct (0 <? compare x y); simpl; [| discriminate]).
  - rewrite JsFacts.get_neg in Ex by lia. discriminate.
  - unfold swap, modify.
    destruct (Z.eq_dec p 0) as [-> | Hp0].
    { destruct fuel; discriminate. }
    apply IH.
    apply parentIndex_num in EP. destruct EP as [Hd ->].
    assert (Hk : 1 <= k).
    { destruct (Z.le_gt_cases 0 k); [lia |].
      rewrite JsFacts.get_neg in Ex by lia. discriminate. }
    assert (Hp : 0 <= (k - 1) / d).
    { destruct (Z.le_gt_cases 0 ((k - 1) / d)); [assumption |].
      rewrite JsFacts.get_neg in Ey by lia. discriminate. }
    destruct (Z.lt_trichotomy d 0) as [Hneg | [? | Hpos]]; [| lia |].
    + pose proof (Z.div_mod (k - 1) d Hd).
      pose proof (Z.mod_neg_bound (k - 1) d Hneg). nia.
    + assert ((k - 1) / d <= k - 1)
        by (apply Z.div_le_upper_bound; nia).
      lia.
Qed.

Theorem swimUp_returns k h : swimUp d compare k h <> Diverge.
Proof. unfold swimUp. apply swimUp_rec_returns. lia. Qed.

Lemma minValueChild_total cs : forall acc h,
  (exists m, minValueChild compare cs acc h = Ret m h /\ In m (acc :: cs))
  \/ exists msg, minValueChild compare cs acc h = Throw msg h.
Proof.
  induction cs as [| c cs IH]; intros acc h.
  { left. exists acc. split; [reflexivity | now left]. }
  unfold minValueChild. simpl reduce. unfold bind, read, gets.
  destruct (Js.get h c) as [x |]; [| right; eexists; reflexivity].
  destruct (Js.get h acc) as [y |]; [| right; eexists; reflexivity].
  simpl.
  destruct (IH (if 0 <? compare x y then c else acc) h)
    as [(m & E & Hin) | (msg & E)].
  - left. exists m. split; [exact E |].
    destruct (0 <? compare x y); destruct Hin as [<- | Hin];
      simpl; auto.
  - right. exists msg. exact E.
Qed.

Lemma sinkDown_rec_returns fuel : forall k h,
  k < 0 \/ Js.length h - k <= Z.of_nat fuel ->
  sinkDown_rec d compare fuel k h <> Diverge.
Proof.
  induction fuel as [| fuel IH]; intros k h Hfuel; simpl sinkDown_rec;
    unfold bind at 1; unfold childIndices, bind, size, gets, ret;
    fold (HeapInv.children d k h);
    (destruct (HeapInv.children d k h) as [| first rest] eqn:Ecs;
     [discriminate |]);
    (destruct (minValueChild_total (first :: rest) first h)
       as [(m & E & Hin) | (msg & E)];
     [| rewrite E; discriminate]);
    rewrite E; unfold read, gets;
    (destruct (Js.get h k) as [x |] eqn:Ex; [| discriminate]);
    (destruct (Js.get h m) as [y |] eqn:Ey; [| discriminate]);
    simpl; (destruct (0 <? compare x y); [discriminate |]).
  all: assert (Hm : In m (HeapInv.children d k h))
    by (rewrite Ecs; destruct Hin as [<- | Hin]; [now left | exact Hin]).
  all: unfold HeapInv.children in Hm; apply filter_In in Hm;
    destruct Hm as [Hm Hlt]; apply Z.ltb_lt in Hlt;
    apply in_map_iff in Hm; destruct Hm as (i & <- & Hi);
    apply in_seq in Hi.
  all: assert (Hk : 0 <= k)
    by (destruct (Z.le_gt_cases 0 k); [assumption |];
        rewrite JsFacts.get_neg in Ex by lia; discriminate).
  all: assert (Hkm : k < d * k + Z.of_nat i) by nia.
  - exfalso. lia.
  - unfold swap, modify. apply IH. right.
    unfold exchange. rewrite !JsFacts.length_set by lia. lia.
Qed.

Theorem sinkDown_returns k h : sinkDown d compare k h <> Diverge.
Proof.
  unfold sinkDown, bind, size, gets. apply sinkDown_rec_returns.
  destruct (Z.lt_ge_cases k 0); [now left | right].
  pose proof (JsFacts.length_nonneg h). lia.
Qed.
End AnyBranching.

Section Order.
Variable T : Type.
Variable d : Z.
Variable compare : T -> T -> Z.
Hypothesis d_pos : 1 <= d.
Hypothesis compare_ok : consistent compare.

Implicit Types (h : arr T).

Local Abbreviation parent := (parent d).
Local Abbreviation above := (above compare).
Local Abbreviation children := (children d).
Local Abbreviation good := (good d compare).

Lemma parent_bounds c : 1 <= c -> 0 <= parent c < c.
Proof.
  intros Hc. unfold HeapInv.parent. split.
  - apply Z.div_pos; lia.
  - assert ((c - 1) / d <= c - 1)
    by (apply Z.div_le_upper_bound; nia).
  lia.
Qed.

Lemma parent_child i c :
  0 <= i -> d * i + 1 <= c <= d * i + d -> parent c = i.
Proof.
  intros Hi Hc. unfold HeapInv.parent.
  symmetry. apply Z.div_unique with (r := c - 1 - d * i); lia.
Qed.

Lemma child_parent c :
  1 <= c -> d * parent c + 1 <= c <= d * parent c + d.
Proof.
  intros Hc. unfold HeapInv.parent.
  pose proof (Z.div_mod (c - 1) d ltac:(lia)).
  pose proof (Z.mod_pos_bound (c - 1) d ltac:(lia)). lia.
Qed.

Lemma parent_mono a b : a <= b -> parent a <= parent b.
Proof.
  intros H. unfold HeapInv.parent. apply Z.div_le_mono; lia.
Qed.

Lemma parentIndex_pos index :
  parentIndex d index = Js.Num (parent index).
Proof.
  unfold parentIndex. destruct (Z.eqb_spec d 0); [lia | reflexivity].
Qed.

Lemma above_some h i c x y :
  Js.get h i = Some x -> Js.get h c = Some y ->
  above h i c <-> 0 <= compare x y.
Proof.
  intros Hx Hy. unfold HeapInv.above. rewrite Hx, Hy. reflexivity.
Qed.

Lemma above_trans h1 h2 h3 a b c :
  Scenario.ranksAtOrAbove compare (Js.get h1 a) (Js.get h2 b) ->
  Scenario.ranksAtOrAbove compare (Js.get h2 b) (Js.get h3 c) ->
  Scenario.ranksAtOrAbove compare (Js.get h1 a) (Js.get h3 c).
Proof.
  destruct compare_ok as [_ Htr].
  destruct (Js.get h1 a), (Js.get h2 b), (Js.get h3 c);
    simpl; try tauto. apply Htr.
Qed.

(** The claim's form of the heap-order property and the one used in
    the proofs. *)
Lemma heapOrdered_iff h :
  heapOrdered d compare h <-> orderedFrom d compare 0 h.
Proof.
  split.
  - intros H c Hc _. pose proof (parent_bounds c ltac:(lia)).
    apply H; [lia | apply child_parent; lia | lia].
  - intros H i c Hi Hc Hlt.
    rewrite <- (parent_child i c Hi Hc).
    apply H; [lia |]. rewrite (parent_child i c Hi Hc). lia.
Qed.

Lemma not_less_above x y : (0 <? compare x y) = false -> 0 <= compare y x.
Proof.
  intros H. apply compare_ok. apply Z.ltb_ge in H. exact H.
Qed.

Lemma less_above x y : (0 <? compare x y) = true -> 0 <= compare x y.
Proof. intros H. apply Z.ltb_lt in H. lia. Qed.

Lemma swimUp_rec_step fuel k h x y :
  k <> 0 -> Js.get h k = Some x -> Js.get h (parent k) = Some y ->
  swimUp_rec d compare (S fuel) k h
  = if 0 <? compare x y
    then swimUp_rec d compare fuel (parent k) (exchange k (parent k) h)
    else Ret k h.
Proof.
  intros Hk Hx Hy. simpl swimUp_rec.
  destruct (Z.eqb_spec k 0); [lia |].
  rewrite parentIndex_pos.
  unfold bind, read, gets, swap, modify. rewrite Hx, Hy. simpl.
  unfold ret. destruct (0 <? compare x y); reflexivity.
Qed.

(** One exchange with the parent moves the exception of [upInv] up. *)
Lemma upInv_exchange k h x y :
  1 <= k -> holeInv d compare k h ->
  Js.get h k = Some x -> Js.get h (parent k) = Some y ->
  (0 <? compare x y) = true ->
  upInv d compare (parent k) (exchange k (parent k) h).
Proof.
  intros Hk (D & Hkr & Hord & Hgr) Hx Hy Hlt.
  pose proof (parent_bounds k Hk) as Hp.
  assert (Hlen : Js.length (exchange k (parent k) h) = Js.length h)
    by (apply length_exchange; lia).
  assert (Hxy : Scenario.ranksAtOrAbove compare (Js.get h k)
                                         (Js.get h (parent k))).
  { rewrite Hx, Hy. simpl. now apply less_above. }
  split; [apply dense_exchange; [assumption | lia | lia] |].
  split; [lia |].
  split.
  - intros c Hc Hne. rewrite Hlen in Hc.
    pose proof (parent_bounds c ltac:(lia)) as Hpc.
    unfold HeapInv.above. rewrite !get_exchange by lia.
    destruct (Z.eqb_spec c (parent k)); [lia |].
    destruct (Z.eqb_spec c k) as [-> | Hck].
    + rewrite Z.eqb_refl. exact Hxy.
    + destruct (Z.eqb_spec (parent c) (parent k)) as [E | E].
      * eapply above_trans; [exact Hxy |].
        rewrite <- E. apply Hord; [lia | assumption | lia].
      * destruct (Z.eqb_spec (parent c) k) as [E' | E'].
        -- apply Hgr; [lia | lia | assumption].
        -- apply Hord; [lia | assumption | assumption].
  - intros Hp1 c Hc Hpar. rewrite Hlen in Hc.
    pose proof (parent_bounds _ Hp1) as Hpp.
    assert (Hzy : above h (parent (parent k)) (parent k))
      by (apply Hord; lia).
    unfold HeapInv.above. rewrite !get_exchange by lia.
    destruct (Z.eqb_spec (parent (parent k)) (parent k)); [lia |].
    destruct (Z.eqb_spec (parent (parent k)) k); [lia |].
    destruct (Z.eqb_spec c (parent k)) as [E | _].
    { pose proof (parent_bounds c ltac:(lia)). lia. }
    destruct (Z.eqb_spec c k) as [-> | Hck]; [exact Hzy |].
    eapply above_trans; [exact Hzy |].
    rewrite <- Hpar. apply Hord; [lia | assumption | lia].
Qed.

Lemma upInv_hole k h : upInv d compare k h -> holeInv d compare k h.
Proof.
  intros (D & Hk & Hord & Hgr). repeat split; auto; try lia.
Qed.

(** [swimUp] from the only slot that may outrank its parent restores the
    heap order. *)
Lemma swimUp_rec_ordered fuel : forall k h,
  k < Z.of_nat fuel -> upInv d compare k h ->
  exists k' h',
    swimUp_rec d compare fuel k h = Ret k' h' /\
    Js.dense h' /\ Js.length h' = Js.length h /\
    orderedFrom d compare 0 h'.
Proof.
  induction fuel as [| fuel IH]; intros k h Hfuel Hinv.
  { destruct Hinv as (_ & Hk & _). lia. }
  pose proof Hinv as (D & Hk & Hord & Hgr).
  destruct (Z.eq_dec k 0) as [-> | Hk0].
  { exists 0, h. rewrite swimUp_rec_at_root. repeat split; auto.
    intros c Hc _. apply Hord; lia. }
  pose proof (parent_bounds k ltac:(lia)) as Hp.
  destruct (dense_get _ h k D ltac:(lia)) as [x Hx].
  destruct (dense_get _ h (parent k) D ltac:(lia)) as [y Hy].
  rewrite (swimUp_rec_step fuel k h x y Hk0 Hx Hy).
  destruct (0 <? compare x y) eqn:Hlt.
  - destruct (IH (parent k) (exchange k (parent k) h)) as
        (k' & h' & E & D' & L' & O').
    + lia.
    + eapply upInv_exchange; eauto using upInv_hole. lia.
    + exists k', h'. rewrite E. repeat split; auto.
      rewrite L'. apply length_exchange; lia.
  - exists k, h. repeat split; auto.
    intros c Hc _. destruct (Z.eq_dec c k) as [-> | Hck].
    + unfold HeapInv.above. rewrite Hx, Hy. simpl.
      now apply not_less_above.
    + apply Hord; lia.
Qed.


(** *** Sinking down *)

Lemma childIndices_eq k h : childIndices d k h = Ret (children k h) h.
Proof. reflexivity. Qed.

Lemma in_children k h c :
  In c (children k h) <-> d * k + 1 <= c <= d * k + d /\ c < Js.length h.
Proof.
  unfold children. rewrite filter_In, in_map_iff. split.
  - intros [(i & <- & Hi) Hlt]. apply in_seq in Hi.
    apply Z.ltb_lt in Hlt. lia.
  - intros [Hc Hlt]. split; [| apply Z.ltb_lt; assumption].
    exists (Z.to_nat (c - d * k)). split; [lia |].
    apply in_seq. lia.
Qed.

Lemma above_refl h i :
  Js.dense h -> 0 <= i < Js.length h -> above h i i.
Proof.
  intros D Hi. destruct (dense_get _ h i D Hi) as [x Hx].
  unfold HeapInv.above. rewrite Hx. simpl.
  destruct (Z.le_gt_cases 0 (compare x x)); [assumption |].
  apply compare_ok. lia.
Qed.

Lemma minValueChild_spec cs : forall acc h,
  Js.dense h ->
  (forall c, In c cs -> 0 <= c < Js.length h) ->
  0 <= acc < Js.length h ->
  exists m,
    minValueChild compare cs acc h = Ret m h /\
    In m (acc :: cs) /\ above h m acc /\
    (forall c, In c cs -> above h m c).
Proof.
  induction cs as [| c t IH]; intros acc h D Hcs Hacc.
  { exists acc. repeat split; [now left | now apply above_refl |].
    intros c []. }
  destruct (dense_get _ h c D (Hcs c (or_introl eq_refl))) as [x Hx].
  destruct (dense_get _ h acc D Hacc) as [y Hy].
  assert (Hstep : minValueChild compare (c :: t) acc h
                  = minValueChild compare t
                      (if 0 <? compare x y then c else acc) h).
  { unfold minValueChild. simpl reduce.
    unfold bind at 1. unfold bind at 1. unfold read, gets.
    unfold bind at 1. unfold bind at 1. rewrite Hx, Hy. reflexivity. }
  rewrite Hstep.
  destruct (0 <? compare x y) eqn:Hlt.
  - destruct (IH c h D) as (m & E & Hin & Hm & Hall).
    + intros c' Hc'. apply Hcs. now right.
    + apply Hcs. now left.
    + assert (Hca : above h c acc).
      { unfold HeapInv.above. rewrite Hx, Hy. now apply less_above. }
      exists m. rewrite E. repeat split.
      * destruct Hin as [<- | Hin]; [right; now left | right; now right].
      * eapply above_trans; eassumption.
      * intros c' [<- | Hc']; [assumption | now apply Hall].
  - destruct (IH acc h D) as (m & E & Hin & Hm & Hall).
    + intros c' Hc'. apply Hcs. now right.
    + assumption.
    + assert (Hac : above h acc c).
      { unfold HeapInv.above. rewrite Hx, Hy. simpl.
        now apply not_less_above. }
      exists m. rewrite E. repeat split.
      * destruct Hin as [<- | Hin]; [now left | right; now right].
      * assumption.
      * intros c' [<- | Hc']; [| now apply Hall].
        eapply above_trans; eassumption.
Qed.

Lemma sinkDown_rec_leaf fuel k h :
  children k h = [] -> sinkDown_rec d compare fuel k h = Ret k h.
Proof.
  intros E. destruct fuel; simpl; unfold bind;
    rewrite childIndices_eq, E; reflexivity.
Qed.

Lemma sinkDown_rec_step fuel k h first rest m x y :
  children k h = first :: rest ->
  minValueChild compare (first :: rest) first h = Ret m h ->
  Js.get h k = Some x -> Js.get h m = Some y ->
  sinkDown_rec d compare fuel k h
  = if 0 <? compare x y then Ret k h
    else match fuel with
         | O => Diverge
         | S fuel' => sinkDown_rec d compare fuel' m (exchange k m h)
         end.
Proof.
  intros Ecs Emin Hx Hy.
  destruct fuel; simpl; unfold bind at 1;
    rewrite childIndices_eq, Ecs; unfold bind at 1; rewrite Emin;
    unfold bind, read, gets; rewrite Hx, Hy; simpl;
    destruct (0 <? compare x y); reflexivity.
Qed.

(** One exchange with the best child moves the exception of [downInv]
    down. *)
Lemma downInv_exchange lo k m h x y :
  downInv d compare lo k h ->
  In m (children k h) ->
  (forall c, In c (children k h) -> above h m c) ->
  Js.get h k = Some x -> Js.get h m = Some y ->
  (0 <? compare x y) = false ->
  downInv d compare lo m (exchange k m h).
Proof.
  intros (D & Hlo & Hord & Hgr) Hm Hmin Hx Hy Hlt.
  apply in_children in Hm. destruct Hm as [Hmc Hml].
  assert (Hkm : k < m) by nia.
  assert (Hpm : parent m = k) by (apply parent_child; lia).
  assert (Hlen : Js.length (exchange k m h) = Js.length h)
    by (apply length_exchange; lia).
  assert (Hyx : Scenario.ranksAtOrAbove compare (Js.get h m) (Js.get h k)).
  { rewrite Hx, Hy. simpl. now apply not_less_above. }
  split; [apply dense_exchange; [assumption | lia | lia] |].
  split; [lia |].
  split.
  - intros c Hc Hlop Hne. rewrite Hlen in Hc.
    pose proof (parent_bounds c ltac:(lia)) as Hpc.
    unfold HeapInv.above. rewrite !get_exchange by lia.
    destruct (Z.eqb_spec (parent c) m); [lia |].
    destruct (Z.eqb_spec c m) as [Ecm | Ecm].
    { subst c. rewrite Hpm, Z.eqb_refl. exact Hyx. }
    destruct (Z.eqb_spec (parent c) k) as [Epk | Epk].
    + destruct (Z.eqb_spec c k); [lia |].
      apply Hmin. apply in_children.
      pose proof (child_parent c ltac:(lia)). rewrite Epk in *. lia.
    + destruct (Z.eqb_spec c k) as [-> | Eck].
      * apply Hgr; [lia | assumption | lia | assumption].
      * apply Hord; [lia | assumption | assumption].
  - intros Hm1 Hlop c Hc Hpar. rewrite Hlen in Hc.
    pose proof (parent_bounds c ltac:(lia)) as Hpc.
    unfold HeapInv.above. rewrite Hpm, !get_exchange by lia.
    destruct (Z.eqb_spec k m); [lia |]. rewrite Z.eqb_refl.
    destruct (Z.eqb_spec c m); [lia |].
    destruct (Z.eqb_spec c k); [lia |].
    rewrite <- Hpar. apply Hord; [lia | lia | lia].
Qed.

(** [sinkDown] from the only parent that may be outranked restores the
    heap order among the parents from [lo] on. *)
Lemma sinkDown_rec_ordered fuel : forall lo k h,
  Js.length h - k <= Z.of_nat fuel -> downInv d compare lo k h ->
  exists k' h',
    sinkDown_rec d compare fuel k h = Ret k' h' /\
    Js.dense h' /\ Js.length h' = Js.length h /\
    orderedFrom d compare lo h'.
Proof.
  induction fuel as [| fuel IH]; intros lo k h Hfuel Hinv;
    pose proof Hinv as (D & Hlo & Hord & Hgr);
    (destruct (children k h) as [| first rest] eqn:Ecs;
     [ exists k, h; rewrite (sinkDown_rec_leaf _ _ _ Ecs);
       repeat split; auto;
       intros c Hc Hlop;
       destruct (Z.eq_dec (parent c) k) as [Epk | Epk];
       [ exfalso; assert (In c (children k h)) as Hin
           by (apply in_children;
               pose proof (child_parent c ltac:(lia));
               rewrite Epk in *; lia);
         rewrite Ecs in Hin; destruct Hin
       | apply Hord; assumption ]
     | ]).
  all: assert (Hfirst : In first (children k h))
    by (rewrite Ecs; now left).
  all: assert (Hrange : forall c, In c (first :: rest) ->
                                   0 <= c < Js.length h)
    by (intros c Hc; rewrite <- Ecs in Hc;
        apply in_children in Hc; nia).
  all: destruct (minValueChild_spec (first :: rest) first h D Hrange
                   (Hrange first (or_introl eq_refl)))
    as (m & Emin & Hin & _ & Hmin).
  all: assert (Hm : In m (children k h))
    by (rewrite Ecs; destruct Hin as [<- | Hin]; [now left | exact Hin]).
  all: rewrite <- Ecs in Hmin.
  all: pose proof Hm as Hm'; apply in_children in Hm'.
  all: destruct (dense_get _ h k D ltac:(nia)) as [x Hx].
  all: destruct (dense_get _ h m D ltac:(nia)) as [y Hy].
  all: rewrite (sinkDown_rec_step _ k h first rest m x y Ecs Emin Hx Hy).
  all: destruct (0 <? compare x y) eqn:Hlt.
  all: try (exists k, h; repeat split; auto;
            intros c Hc Hlop;
            destruct (Z.eq_dec (parent c) k) as [Epk | Epk];
            [ rewrite Epk;
              apply above_trans with (h2 := h) (b := m);
              [ unfold Scenario.ranksAtOrAbove; rewrite Hx, Hy;
                now apply less_above
              | apply Hmin; apply in_children;
                pose proof (child_parent c ltac:(lia));
                rewrite Epk in *; lia ]
            | apply Hord; assumption ]).
  - exfalso. nia.
  - destruct (IH lo m (exchange k m h)) as (k' & h' & E & D' & L' & O').
    + rewrite length_exchange by nia. nia.
    + eapply downInv_exchange; eauto.
    + exists k', h'. rewrite E. repeat split; auto.
      rewrite L'. apply length_exchange; nia.
Qed.


(** *** The public operations *)

Lemma sinkDown_eq k h :
  sinkDown d compare k h
  = sinkDown_rec d compare (Z.to_nat (Js.length h)) k h.
Proof. reflexivity. Qed.

Lemma sinkDown_ordered lo k h :
  downInv d compare lo k h ->
  exists k' h',
    sinkDown d compare k h = Ret k' h' /\
    Js.dense h' /\ Js.length h' = Js.length h /\
    orderedFrom d compare lo h'.
Proof.
  intros Hinv. rewrite sinkDown_eq.
  apply sinkDown_rec_ordered; [| assumption].
  destruct Hinv as (_ & Hlo & _).
  pose proof (JsFacts.length_nonneg h). lia.
Qed.

Lemma ordered_downInv k h :
  good h -> 0 <= k < Js.length h -> downInv d compare 0 k h.
Proof.
  intros [D O] Hk.
  split; [assumption |]. split; [lia |]. split.
  - intros c Hc Hlo _. now apply O.
  - intros Hk1 _ c Hc Hpar.
    pose proof (parent_bounds k Hk1).
    apply above_trans with (h2 := h) (b := k).
    + apply O; lia.
    + rewrite <- Hpar. apply O; [lia |].
      pose proof (parent_bounds c ltac:(lia)). lia.
Qed.

(** [swimUp] from a slot holding an arbitrary value leaves at most that
    slot outranked by its children. *)
Lemma swimUp_hole k h :
  holeInv d compare k h ->
  exists k' h',
    swimUp d compare k h = Ret k' h' /\
    Js.length h' = Js.length h /\ downInv d compare 0 k h'.
Proof.
  intros Hinv. pose proof Hinv as (D & Hk & Hord & Hgr).
  unfold swimUp.
  destruct (Z.eq_dec k 0) as [-> | Hk0].
  { exists 0, h. rewrite swimUp_rec_at_root.
    split; [reflexivity |]. split; [reflexivity |].
    split; [assumption |]. split; [lia |]. split.
    - intros c Hc _ Hne. apply Hord; lia.
    - intros Hk1. lia. }
  pose proof (parent_bounds k ltac:(lia)) as Hp.
  destruct (dense_get _ h k D ltac:(lia)) as [x Hx].
  destruct (dense_get _ h (parent k) D ltac:(lia)) as [y Hy].
  rewrite (swimUp_rec_step _ k h x y Hk0 Hx Hy).
  destruct (0 <? compare x y) eqn:Hlt.
  - destruct (swimUp_rec_ordered (Z.to_nat k) (parent k)
                (exchange k (parent k) h))
      as (k' & h' & E & D' & L' & O').
    + lia.
    + eapply upInv_exchange; eauto. lia.
    + assert (L : Js.length h' = Js.length h)
        by (rewrite L'; apply length_exchange; lia).
      exists k', h'. rewrite E.
      split; [reflexivity |]. split; [assumption |].
      apply ordered_downInv; [split; assumption | lia].
  - exists k, h.
    split; [reflexivity |]. split; [reflexivity |].
    split; [assumption |]. split; [lia |]. split.
    + intros c Hc _ Hne. destruct (Z.eq_dec c k) as [-> | Hck].
      * unfold HeapInv.above. rewrite Hx, Hy. simpl.
        now apply not_less_above.
      * apply Hord; assumption.
    + intros Hk1 _. now apply Hgr.
Qed.

Lemma length_push h (v : T) : Js.length (Js.push h v) = Js.length h + 1.
Proof. unfold Js.length, Js.push. rewrite length_app. simpl. lia. Qed.

Lemma get_push h (v : T) i :
  Js.get (Js.push h v) i
  = if i =? Js.length h then Some v else Js.get h i.
Proof.
  unfold Js.push, Js.length.
  destruct (Z.ltb_spec i 0) as [Hn | Hn].
  { rewrite !JsFacts.get_neg by lia.
    destruct (Z.eqb_spec i (Z.of_nat (List.length h))); [lia | reflexivity]. }
  rewrite <- (Z2Nat.id i) by lia. rewrite !JsFacts.get_nat.
  destruct (Z.eqb_spec (Z.of_nat (Z.to_nat i)) (Z.of_nat (List.length h)))
    as [E | E].
  - apply Nat2Z.inj in E. rewrite E, nth_error_app2, Nat.sub_diag by lia.
    reflexivity.
  - destruct (Nat.lt_ge_cases (Z.to_nat i) (List.length h)).
    + now rewrite nth_error_app1 by assumption.
    + rewrite nth_error_app2 by assumption.
      assert (nth_error h (Z.to_nat i) = None) as ->
          by (apply nth_error_None; lia).
      destruct (Z.to_nat i - List.length h)%nat as [| j] eqn:Ej; [lia |].
      simpl. now destruct j.
Qed.

Lemma insert_good v h :
  good h -> exists k h', insert d compare v h = Ret k h' /\ good h'.
Proof.
  intros [D O].
  pose proof (JsFacts.length_nonneg h) as Hn.
  assert (E : insert d compare v h
              = swimUp d compare (Js.length h) (Js.push h v)).
  { unfold insert, bind, modify, size, gets. rewrite length_push.
    f_equal. lia. }
  rewrite E. unfold swimUp.
  destruct (swimUp_rec_ordered (S (Z.to_nat (Js.length h)))
              (Js.length h) (Js.push h v))
    as (k' & h' & E' & D' & L' & O').
  - lia.
  - split; [| split; [rewrite length_push; lia | split]].
    + intros i Hi. rewrite length_push in Hi. rewrite get_push.
      destruct (Z.eqb_spec i (Js.length h)); [congruence |].
      apply D. lia.
    + intros c Hc Hne. rewrite length_push in Hc.
      pose proof (parent_bounds c ltac:(lia)).
      unfold HeapInv.above. rewrite !get_push.
      destruct (Z.eqb_spec (parent c) (Js.length h)); [lia |].
      destruct (Z.eqb_spec c (Js.length h)); [lia |].
      apply O; lia.
    + intros Hk c Hc Hpar. rewrite length_push in Hc.
      pose proof (parent_bounds c ltac:(lia)). lia.
  - exists k', h'. split; [assumption | split; assumption].
Qed.

(** The array after [swap(k, n - 1)] and [pop()], for [k] below the last
    slot. *)
Lemma removed_length k h :
  0 <= k < Js.length h - 1 ->
  Js.length (removelast (exchange k (Js.length h - 1) h))
  = Js.length h - 1.
Proof.
  intros Hk. rewrite JsFacts.length_removelast.
  rewrite length_exchange by lia. lia.
Qed.

Lemma removed_get k h i :
  0 <= k < Js.length h - 1 -> i < Js.length h - 1 ->
  Js.get (removelast (exchange k (Js.length h - 1) h)) i
  = if i =? k then Js.get h (Js.length h - 1) else Js.get h i.
Proof.
  intros Hk Hi. rewrite JsFacts.get_removelast
    by (rewrite length_exchange by lia; lia).
  rewrite get_exchange by lia.
  destruct (Z.eqb_spec i (Js.length h - 1)); [lia | reflexivity].
Qed.

Lemma removed_dense k h :
  Js.dense h -> 0 <= k < Js.length h - 1 ->
  Js.dense (removelast (exchange k (Js.length h - 1) h)).
Proof.
  intros D Hk i Hi. rewrite removed_length in Hi by assumption.
  rewrite removed_get by lia.
  destruct (i =? k); apply D; lia.
Qed.

Lemma removed_hole k h :
  good h -> 0 <= k < Js.length h - 1 ->
  holeInv d compare k (removelast (exchange k (Js.length h - 1) h)).
Proof.
  intros [D O] Hk.
  split; [now apply removed_dense |].
  rewrite removed_length by assumption.
  split; [lia |]. split.
  - intros c Hc Hck Hpk. pose proof (parent_bounds c ltac:(lia)).
    unfold HeapInv.above. rewrite !removed_get by lia.
    destruct (Z.eqb_spec (parent c) k); [lia |].
    destruct (Z.eqb_spec c k); [lia |].
    apply O; lia.
  - intros Hk1 c Hc Hpar.
    pose proof (parent_bounds c ltac:(lia)).
    pose proof (parent_bounds k Hk1).
    unfold HeapInv.above. rewrite !removed_get by lia.
    destruct (Z.eqb_spec (parent k) k); [lia |].
    destruct (Z.eqb_spec c k); [lia |].
    apply above_trans with (h2 := h) (b := k).
    + apply O; lia.
    + rewrite <- Hpar. apply O; lia.
Qed.


Lemma good_empty h : Js.length h = 0 -> good h.
Proof.
  intros Hlen. split.
  - intros i Hi. lia.
  - intros c Hc. lia.
Qed.

Lemma poll_good h :
  good h -> exists v h', poll d compare h = Ret v h' /\ good h'.
Proof.
  intros G. pose proof G as [D O].
  pose proof (JsFacts.length_nonneg h) as Hn.
  unfold poll, bind at 1, size, gets.
  destruct (Z.eqb_spec (Js.length h) 0) as [E0 | E0].
  { exists None, h. split; [reflexivity | assumption]. }
  unfold bind at 1, swap, modify. unfold bind at 1, pop. simpl.
  set (h2 := removelast (exchange 0 (Js.length h - 1) h)).
  assert (Hinv : downInv d compare 0 0 h2).
  { destruct (Z.eq_dec (Js.length h) 1) as [E1 | E1].
    - assert (L2 : Js.length h2 = 0).
      { unfold h2. rewrite JsFacts.length_removelast.
        rewrite length_exchange by lia. lia. }
      split; [intros i Hi; lia |]. split; [lia |].
      split; [intros c Hc; lia | intros Hk; lia].
    - destruct (removed_hole 0 h G ltac:(lia)) as (D2 & Hk & Hord & _).
      fold h2 in D2, Hk, Hord.
      split; [assumption |]. split; [lia |]. split.
      + intros c Hc _ Hne. apply Hord; [assumption | lia | assumption].
      + intros Hk1. lia. }
  destruct (sinkDown_ordered 0 0 h2 Hinv) as (k' & h' & E & D' & _ & O').
  unfold bind at 1. rewrite E.
  eexists _, h'. split; [reflexivity | split; assumption].
Qed.

Lemma removeAtIndex_good (k : nat) h h' :
  good h ->
  removeAtIndex d compare (Z.of_nat k) h = Ret tt h' -> good h'.
Proof.
  intros G. rewrite removeAtIndex_eq.
  set (h2 := removelast (exchange (Z.of_nat k) (Js.length h - 1) h)).
  destruct (Z.lt_ge_cases (Z.of_nat k) (Js.length h - 1)) as [Hlt | Hge].
  - destruct (swimUp_hole (Z.of_nat k) h2) as (k1 & h3 & E1 & L1 & I1).
    { apply removed_hole; [assumption | lia]. }
    destruct (sinkDown_ordered 0 (Z.of_nat k) h3 I1)
      as (k2 & h4 & E2 & D2 & _ & O2).
    unfold bind at 1. rewrite E1. unfold bind at 1. rewrite E2.
    unfold ret. intros [= <-]. split; assumption.
  - assert (L2 : Js.length h2 = Z.of_nat k)
      by (apply removed_past_length; lia).
    destruct k as [| k].
    + unfold bind at 1, swimUp. rewrite swimUp_rec_at_root.
      unfold bind at 1. rewrite sinkDown_empty by (assumption || lia).
      unfold ret. intros [= <-]. now apply good_empty.
    + unfold bind at 1.
      rewrite swimUp_undefined
        by (try lia; apply JsFacts.get_beyond; lia).
      discriminate.
Qed.

Lemma heapifyLoop_good count : forall i h,
  Z.of_nat count = i + 1 ->
  Js.dense h -> orderedFrom d compare (i + 1) h ->
  exists h', heapifyLoop d compare count i h = Ret tt h' /\ good h'.
Proof.
  induction count as [| count IH]; intros i h Hc D O.
  { exists h. split; [reflexivity |]. split; [assumption |].
    replace 0 with (i + 1) by lia. assumption. }
  assert (Hinv : downInv d compare i i h).
  { split; [assumption |]. split; [lia |]. split.
    - intros c Hc' Hlo Hne. apply O; [assumption | lia].
    - intros Hi Hlo. pose proof (parent_bounds i Hi). lia. }
  destruct (sinkDown_ordered i i h Hinv) as (k' & h1 & E & D1 & _ & O1).
  destruct (IH (i - 1) h1) as (h' & E' & G').
  - lia.
  - assumption.
  - replace (i - 1 + 1) with i by lia. assumption.
  - exists h'. simpl heapifyLoop. unfold bind at 1. rewrite E.
    split; assumption.
Qed.

Lemma heapify_good (vs : list T) h :
  exists h', heapify d compare vs h = Ret tt h' /\ good h'.
Proof.
  unfold heapify, bind at 1, modify. unfold bind at 1, size, gets.
  rewrite parentIndex_pos.
  set (h0 := Js.ofList vs).
  pose proof (dense_ofList _ vs) as D. fold h0 in D.
  destruct (Z.lt_ge_cases (Js.length h0) 2) as [Hsmall | Hbig].
  - assert (Hneg : parent (Js.length h0 - 1) + 1 <= 0).
    { unfold HeapInv.parent.
      assert ((Js.length h0 - 1 - 1) / d < 0)
        by (apply Z.div_lt_upper_bound; lia).
      lia. }
    replace (Z.to_nat (parent (Js.length h0 - 1) + 1)) with O by lia.
    exists h0. split; [reflexivity |]. split; [assumption |].
    intros c Hc. lia.
  - pose proof (parent_bounds (Js.length h0 - 1) ltac:(lia)) as Hp.
    apply heapifyLoop_good; [lia | assumption |].
    intros c Hc Hlo.
    pose proof (parent_mono c (Js.length h0 - 1) ltac:(lia)). lia.
Qed.

(** Every sequence of calls that return normally keeps the heap dense
    and ordered. *)
Lemma heapRun_good cs : forall h h',
  good h -> heapRun d compare cs h = Ret tt h' -> good h'.
Proof.
  induction cs as [| c cs IH]; intros h h' G.
  { simpl. unfold ret. now intros [= <-]. }
  unfold heapRun. simpl forEach. unfold bind at 1.
  destruct c as [v | | k | vs]; simpl heapStep.
  - destruct (insert_good v h G) as (k & h1 & E & G1).
    unfold bind at 1. rewrite E. unfold ret. now apply IH.
  - destruct (poll_good h G) as (v & h1 & E & G1).
    unfold bind at 1. rewrite E. unfold ret. now apply IH.
  - destruct (removeAtIndex d compare (Z.of_nat k) h)
      as [[] h1 | msg h1 |] eqn:E; try discriminate.
    apply IH. eapply removeAtIndex_good; eassumption.
  - destruct (heapify_good vs h) as (h1 & E & G1).
    rewrite E. now apply IH.
Qed.

End Order.

(** *** The claims about the heap *)

Lemma consistent_default : consistent defaultLessThanCompare.
Proof. unfold defaultLessThanCompare. split; intros; lia. Qed.

Lemma constructor_good (T : Type) (defaultCompare : T -> T -> Z) (d : Z)
      (voc : option (valuesOrCompare T)) (compare0 : option (T -> T -> Z))
      (obj : DAryHeap.t T) :
  1 <= d ->
  constructor defaultCompare d voc compare0 = Ret tt obj ->
  consistent (lessThanCompare obj) ->
  DAryHeap.d obj = d /\ HeapInv.good d (lessThanCompare obj) (heap obj).
Proof.
  intros Hd Hnew. unfold constructor in Hnew.
  destruct voc as [[vs | c] |].
  - match type of Hnew with
    | context [heapify d ?c vs []] =>
      destruct (heapify d c vs []) as [[] h | msg h |] eqn:E;
        try discriminate
    end.
    injection Hnew as <-. simpl. intros Hc. split; [reflexivity |].
    match type of E with
    | heapify d ?c vs [] = _ =>
      destruct (heapify_good T d c Hd Hc vs []) as (h' & E' & G)
    end.
    rewrite E in E'. now injection E' as ->.
  - injection Hnew as <-. simpl. intros _.
    split; [reflexivity | now apply good_empty].
  - injection Hnew as <-. simpl. intros _.
    split; [reflexivity | now apply good_empty].
Qed.




(** C10.  For every heap of size [n >= 2], whatever its branching factor
    and comparator, [removeAtIndex(n - 1)] throws, and the heap at the
    moment of the throw has size [n - 1]: the last element is already
    gone. *)
Theorem removeAtIndex_last_throws (T : Type) (d : Z)
        (compare : T -> T -> Z) (h : arr T) :
  2 <= Js.length h ->
  exists msg h',
    removeAtIndex d compare (Js.length h - 1) h = Throw msg h' /\
    Js.length h' = Js.length h - 1.
Proof.
  intros Hn. rewrite removeAtIndex_eq.
  set (h2 := removelast (exchange (Js.length h - 1) (Js.length h - 1) h)).
  assert (L2 : Js.length h2 = Js.length h - 1)
    by (apply removed_past_length; lia).
  exists "Invalid inputs"%string, h2. split; [| assumption].
  unfold bind at 1.
  rewrite swimUp_undefined by (try lia; apply JsFacts.get_beyond; lia).
  reflexivity.
Qed.

Lemma removeAtIndex_last_throws_witness :
  exists msg h',
    removeAtIndex 3 defaultLessThanCompare 2 [Some 1; Some 5; Some 8]
    = Throw msg h' /\
    Js.length h' = 2.
Proof.
  apply (removeAtIndex_last_throws Z 3 defaultLessThanCompare
           [Some 1; Some 5; Some 8]).
  vm_compute. discriminate.
Defined.

(** C2, as stated, fails: after inserting 5, 3, 8, 1, 9 into a heap with
    [d = 3] and the default comparator, [peek()] does not return 9. *)
Lemma scenario_peek_not_9 :
  ~ (exists h, scenarioHeap = Ret tt h /\ peek h = Ret (Some 9) h).
Proof.
  intros (h & E & P). vm_compute in E. injection E as <-.
  vm_compute in P. discriminate.
Qed.

(** C2, amended.  With [d = 3] and the default comparator the heap is a
    min-heap: after inserting 5, 3, 8, 1, 9, [peek()] returns 1 and five
    calls of [poll()] return 1, 3, 5, 8, 9 in that order, leaving the heap
    empty. *)
Theorem scenario_min_order :
  exists h,
    scenarioHeap = Ret tt h /\
    peek h = Ret (Some 1) h /\
    pollAll 3 defaultLessThanCompare 5 h
    = Ret [Some 1; Some 3; Some 5; Some 8; Some 9] [].
Proof.
  eexists. split; [reflexivity |]. split; reflexivity.
Qed.

(** C8, as stated, fails: constructing a heap with [d = 0] does not
    throw. *)
Lemma constructor_zero_no_throw :
  ~ (exists msg obj,
        constructor defaultLessThanCompare 0 None None = Throw msg obj).
Proof. intros (msg & obj & E). discriminate. Qed.

(** C8, amended.  The constructor does not validate the branching factor:
    for every [d], in particular [d = 0] and every [d < 1], constructing a
    heap without initial values returns normally, with an empty heap that
    stores [d] as given and the comparator chosen by the arguments. *)
Theorem constructor_accepts_any_d (T : Type)
        (defaultCompare : T -> T -> Z) (d : Z)
        (compare0 : option (T -> T -> Z)) (c : T -> T -> Z) :
  constructor defaultCompare d None compare0
  = Ret tt (mk d [] (match compare0 with
                     | Some c0 => c0
                     | None => defaultCompare
                     end)) /\
  constructor defaultCompare d (Some (Compare c)) compare0
  = Ret tt (mk d [] c).
Proof. split; reflexivity. Qed.

End DAryHeapFacts.


(** ** IndexedPriorityQueue *)

Module QueueFacts.

Import IndexedPriorityQueue QueueInv.
Local Open Scope string_scope.

(** C4.  The queue records only the index returned for the entry it
    enqueues; entries the heap moves on the way are not re-recorded.
    After [enqueue("a", 1)], [enqueue("b", 2)], [enqueue("c", 3)] and
    [dequeue()] the map still sends "b" to index 1 and "c" to index 2,
    while the heap holds "b" at index 0 and "c" at index 1: the map is not
    consistent with the heap. *)
Theorem dequeue_leaves_stale_index :
  exists q,
    staleScenario = Ret (Some ("a", 1)) q /\
    heap q = [Some ("b", 2); Some ("c", 3)] /\
    JsMap.get String.eqb (hash q) "b" = Some 1 /\
    JsMap.get String.eqb (hash q) "c" = Some 2 /\
    ~ indexConsistent String.eqb q.
Proof.
  eexists. split; [reflexivity |]. simpl.
  repeat (split; [reflexivity |]).
  intros H. destruct (H "b" 1 eq_refl) as [p Hp]. discriminate.
Qed.

End QueueFacts.

(** ** JavaScript maps *)

Module JsMapFacts.

Section Map.
Context {K V : Type}.
Variable eqb : K -> K -> bool.
Hypothesis eqb_spec : forall a b, eqb a b = true <-> a = b.

Implicit Types (m : @JsMap.t K V).

Lemma eqb_refl k : eqb k k = true.
Proof. now apply eqb_spec. Qed.

Lemma map_get_set m k v k' :
  JsMap.get eqb (JsMap.set eqb m k v) k'
  = if eqb k' k then Some v else JsMap.get eqb m k'.
Proof.
  induction m as [| [k0 v0] r IH]; simpl.
  - reflexivity.
  - destruct (eqb k k0) eqn:E; simpl.
    + apply eqb_spec in E. subst k0.
      destruct (eqb k' k); reflexivity.
    + rewrite IH. destruct (eqb k' k0) eqn:E0; [| reflexivity].
      apply eqb_spec in E0. subst k0.
      destruct (eqb k' k) eqn:E1; [| reflexivity].
      apply eqb_spec in E1. subst k'. rewrite eqb_refl in E. discriminate.
Qed.

Lemma in_keys m k : In k (JsMap.keys m) <-> JsMap.get eqb m k <> None.
Proof.
  unfold JsMap.keys. induction m as [| [k0 v0] r IH]; simpl.
  - split; [intros [] | congruence].
  - destruct (eqb k k0) eqn:E.
    + apply eqb_spec in E. split; [congruence | now left].
    + rewrite <- IH. split; [| now right].
      intros [-> | H]; [| assumption].
      rewrite eqb_refl in E. discriminate.
Qed.
End Map.

End JsMapFacts.

(** ** GraphStorage backends *)

Module AdjacencyListFacts.

Import AdjacencyList Storage.

Lemma zeqb_spec a b : (a =? b) = true <-> a = b.
Proof. apply Z.eqb_eq. Qed.

Lemma nonneg_guard s d :
  0 <= s -> 0 <= d -> (s <? 0) || (d <? 0) = false.
Proof.
  intros Hs Hd. destruct (Z.ltb_spec s 0); [lia |].
  destruct (Z.ltb_spec d 0); [lia | reflexivity].
Qed.

Lemma inside_guard n u v :
  u < n -> v < n -> (n - 1 <? u) || (n - 1 <? v) = false.
Proof.
  intros Hu Hv. destruct (Z.ltb_spec (n - 1) u); [lia |].
  destruct (Z.ltb_spec (n - 1) v); [lia | reflexivity].
Qed.

Lemma al_setEdge_spec s d w g :
  0 <= s -> 0 <= d ->
  exists g',
    setEdge s d w g = Ret tt g' /\
    vertices g' = Z.max (Z.max (vertices g) (s + 1)) (d + 1) /\
    forall u v,
      edgeAL g' u v
      = if (u =? s) && (v =? d) then Some (stored w) else edgeAL g u v.
Proof.
  intros Hs Hd. unfold setEdge.
  rewrite nonneg_guard by assumption.
  unfold bind, modify. cbv beta iota.
  set (g1 := if JsMap.has Z.eqb (adjacencyList g) s then g
             else mk (vertices g)
                     (JsMap.set Z.eqb (adjacencyList g) s JsMap.empty)).
  assert (Hv1 : vertices g1 = vertices g).
  { unfold g1. now destruct (JsMap.has Z.eqb (adjacencyList g) s). }
  assert (Hrow : exists row,
             JsMap.get Z.eqb (adjacencyList g1) s = Some row /\
             (forall v, JsMap.get Z.eqb row v = edgeAL g s v) /\
             forall u, u <> s ->
                       JsMap.get Z.eqb (adjacencyList g1) u
                       = JsMap.get Z.eqb (adjacencyList g) u).
  { unfold g1, JsMap.has, edgeAL.
    destruct (JsMap.get Z.eqb (adjacencyList g) s) as [row |] eqn:E.
    - exists row. rewrite E. repeat split; auto.
    - exists JsMap.empty. simpl adjacencyList.
      rewrite (JsMapFacts.map_get_set Z.eqb zeqb_spec), Z.eqb_refl.
      repeat split; auto.
      intros u Hu. rewrite (JsMapFacts.map_get_set Z.eqb zeqb_spec).
      destruct (Z.eqb_spec u s); [contradiction | reflexivity]. }
  destruct Hrow as (row & Hget & Hrowv & Hother).
  rewrite Hget. eexists. split; [reflexivity |].
  simpl vertices. split; [now rewrite Hv1 |].
  intros u v. unfold edgeAL at 1. simpl adjacencyList.
  rewrite (JsMapFacts.map_get_set Z.eqb zeqb_spec).
  destruct (Z.eqb_spec u s) as [-> | Hne]; simpl andb.
  - rewrite (JsMapFacts.map_get_set Z.eqb zeqb_spec).
    destruct (Z.eqb_spec v d); [reflexivity | apply Hrowv].
  - rewrite Hother by assumption. reflexivity.
Qed.

Lemma al_weight_spec u v g :
  u < vertices g -> v < vertices g ->
  weight u v g
  = Ret (match edgeAL g u v with Some w => w | None => Js.PosInf end) g.
Proof.
  intros Hu Hv. unfold weight, bind, size, gets.
  rewrite inside_guard by assumption.
  unfold edgeAL.
  destruct (JsMap.get Z.eqb (adjacencyList g) u) as [row |];
    [| reflexivity].
  destruct (JsMap.get Z.eqb row v); reflexivity.
Qed.

Lemma al_neighbors_spec u g :
  u < vertices g ->
  exists ns,
    neighbors u g = Ret ns g /\
    forall v, In v ns <-> edgeAL g u v <> None.
Proof.
  intros Hu. unfold neighbors, bind, size, gets.
  destruct (Z.ltb_spec (vertices g - 1) u); [lia |].
  unfold edgeAL.
  destruct (JsMap.get Z.eqb (adjacencyList g) u) as [row |].
  - exists (JsMap.keys row). split; [reflexivity |].
    intros v. apply (JsMapFacts.in_keys Z.eqb zeqb_spec).
  - exists []. split; [reflexivity |]. intros v. simpl. tauto.
Qed.

End AdjacencyListFacts.

Module EdgeListFacts.

Import EdgeList Storage AdjacencyListFacts.

Lemma connects_setWeight u v e w :
  connects u v (setWeight e w) = connects u v e.
Proof. reflexivity. Qed.

Lemma connects_inj s d u v e :
  connects s d e = true -> connects u v e = (u =? s) && (v =? d).
Proof.
  unfold connects. intros H. apply andb_true_iff in H.
  destruct H as [Hs Hd]. apply Z.eqb_eq in Hs, Hd. rewrite Hs, Hd.
  now rewrite (Z.eqb_sym s u), (Z.eqb_sym d v).
Qed.

Lemma findIndex_bounds {A} (p : A -> bool) xs : -1 <= findIndex p xs.
Proof.
  induction xs as [| x r IH]; simpl; [lia |].
  destruct (p x); [lia |].
  destruct (Z.ltb_spec (findIndex p r) 0); lia.
Qed.

Lemma findIndex_none {A} (p : A -> bool) xs :
  findIndex p xs < 0 <-> find p xs = None.
Proof.
  induction xs as [| x r IH]; simpl; [split; [reflexivity | lia] |].
  destruct (p x); [split; [lia | discriminate] |].
  pose proof (findIndex_bounds p r).
  destruct (Z.ltb_spec (findIndex p r) 0); rewrite <- IH; lia.
Qed.

Lemma find_setWeightAt s d w xs : forall u v,
  0 <= findIndex (connects s d) xs ->
  weightOf (find (connects u v)
                 (setWeightAt xs (Z.to_nat (findIndex (connects s d) xs)) w))
  = if (u =? s) && (v =? d) then Some (storedEL w)
    else weightOf (find (connects u v) xs).
Proof.
  induction xs as [| e r IH]; intros u v Hi; simpl in *; [lia |].
  destruct (connects s d e) eqn:E.
  - simpl. rewrite connects_setWeight, (connects_inj s d u v e E).
    destruct ((u =? s) && (v =? d)); reflexivity.
  - pose proof (findIndex_bounds (connects s d) r).
    destruct (Z.ltb_spec (findIndex (connects s d) r) 0); [lia |].
    replace (Z.to_nat (findIndex (connects s d) r + 1))
      with (S (Z.to_nat (findIndex (connects s d) r))) by lia.
    simpl. destruct (connects u v e) eqn:E'.
    + destruct (Z.eqb_spec u s) as [-> | ?]; [| reflexivity].
      destruct (Z.eqb_spec v d) as [-> | ?]; [| reflexivity].
      congruence.
    + apply IH. assumption.
Qed.

Lemma find_push (p : Edge -> bool) xs e :
  find p (xs ++ [e])
  = match find p xs with
    | Some x => Some x
    | None => if p e then Some e else None
    end.
Proof.
  induction xs as [| x r IH]; simpl; [reflexivity |].
  destruct (p x); [reflexivity | exact IH].
Qed.

Lemma connects_new s d u v w :
  connects u v (newEdge s d w) = (u =? s) && (v =? d).
Proof.
  unfold connects, newEdge, setWeight. simpl.
  now rewrite (Z.eqb_sym s u), (Z.eqb_sym d v).
Qed.

Lemma setVertex_spec x g :
  0 <= x ->
  exists g',
    setVertex x g = Ret tt g' /\
    vertices g' = Z.max (vertices g) (x + 1) /\
    forall u v,
      edgeEL g' u v
      = if (u =? x) && (v =? x)
        then match edgeEL g x x with
             | Some w => Some w
             | None => Some (Js.Num 0)
             end
        else edgeEL g u v.
Proof.
  intros Hx. unfold setVertex.
  destruct (Z.ltb_spec x 0); [lia |].
  unfold bind, gets, modify. cbv beta iota.
  destruct (Z.ltb_spec (findIndex (connects x x) (edges g)) 0) as [Hn | Hn].
  - apply findIndex_none in Hn.
    eexists. split; [reflexivity |]. split; [reflexivity |].
    intros u v. unfold edgeEL, weightOf. simpl edges.
    rewrite find_push, connects_new.
    destruct (Z.eqb_spec u x) as [-> | Hu]; simpl andb.
    + destruct (Z.eqb_spec v x) as [-> | Hv].
      * rewrite Hn. reflexivity.
      * destruct (find (connects x v) (edges g)); reflexivity.
    + destruct (find (connects u v) (edges g)); reflexivity.
  - eexists. split; [reflexivity |]. split; [reflexivity |].
    intros u v. simpl.
    destruct (Z.eqb_spec u x) as [-> | Hu]; simpl andb; [| reflexivity].
    destruct (Z.eqb_spec v x) as [-> | Hv]; [| reflexivity].
    unfold edgeEL, weightOf. simpl edges.
    destruct (find (connects x x) (edges g)) eqn:E; [reflexivity |].
    apply findIndex_none in E. lia.
Qed.

Lemma el_setEdge_spec s d w g :
  0 <= s -> 0 <= d ->
  exists g',
    setEdge s d w g = Ret tt g' /\
    vertices g' = Z.max (Z.max (vertices g) (s + 1)) (d + 1) /\
    forall u v,
      edgeEL g' u v
      = if (u =? s) && (v =? d) then Some (storedEL w)
        else withLoops g s d u v.
Proof.
  intros Hs Hd. unfold setEdge. rewrite nonneg_guard by assumption.
  destruct (setVertex_spec s g Hs) as (g1 & E1 & V1 & F1).
  destruct (setVertex_spec d g1 Hd) as (g2 & E2 & V2 & F2).
  unfold bind at 1. rewrite E1. unfold bind at 1. rewrite E2.
  unfold bind, gets, modify. cbv beta iota.
  assert (Hloops : forall u v, edgeEL g2 u v = withLoops g s d u v).
  { intros u v. rewrite F2, !F1. unfold withLoops.
    destruct (Z.eqb_spec u v), (Z.eqb_spec u d), (Z.eqb_spec v d),
      (Z.eqb_spec u s), (Z.eqb_spec v s), (Z.eqb_spec d s);
      subst; try contradiction; rewrite ?Z.eqb_refl; simpl;
      try reflexivity;
      repeat match goal with
             | |- context [edgeEL g ?a ?b] => destruct (edgeEL g a b)
             end;
      reflexivity. }
  pose proof (findIndex_bounds (connects s d) (edges g2)) as Hb.
  destruct (Z.ltb_spec (-1) (findIndex (connects s d) (edges g2)))
    as [Hfound | Hnone].
  - eexists. split; [reflexivity |]. simpl vertices.
    split; [lia |]. intros u v. unfold edgeEL at 1. simpl edges.
    rewrite find_setWeightAt by lia.
    destruct ((u =? s) && (v =? d)); [reflexivity |].
    rewrite <- Hloops. reflexivity.
  - assert (Hnf : find (connects s d) (edges g2) = None)
      by (apply findIndex_none; lia).
    eexists. split; [reflexivity |]. simpl vertices.
    split; [lia |]. intros u v. unfold edgeEL at 1. unfold weightOf.
    simpl edges. rewrite find_push, connects_new.
    destruct (Z.eqb_spec u s) as [-> | Hu]; simpl andb.
    + destruct (Z.eqb_spec v d) as [-> | Hv].
      * rewrite Hnf. reflexivity.
      * rewrite <- Hloops. unfold edgeEL, weightOf.
        destruct (find (connects s v) (edges g2)); reflexivity.
    + rewrite <- Hloops. unfold edgeEL, weightOf.
      destruct (find (connects u v) (edges g2)); reflexivity.
Qed.

Lemma el_weight_spec u v g :
  u < vertices g -> v < vertices g ->
  weight u v g
  = Ret (match edgeEL g u v with Some w => w | None => Js.PosInf end) g.
Proof.
  intros Hu Hv. unfold weight, bind, size, gets.
  rewrite inside_guard by assumption. unfold edgeEL, weightOf.
  destruct (find (connects u v) (edges g)); reflexivity.
Qed.

Lemma el_neighbors_spec u g :
  u < vertices g ->
  exists ns,
    neighbors u g = Ret ns g /\
    forall v, In v ns <-> edgeEL g u v <> None.
Proof.
  intros Hu. unfold neighbors, bind, size, gets.
  destruct (Z.ltb_spec (vertices g - 1) u); [lia |].
  eexists. split; [reflexivity |].
  intros v. unfold edgeEL, weightOf. rewrite in_flat_map.
  split.
  - intros (e & Hin & Hv).
    destruct (Z.eqb_spec (source e) u) as [Hs | Hs]; [| destruct Hv].
    destruct Hv as [Hv | []].
    destruct (find (connects u v) (edges g)) eqn:E; [congruence |].
    apply (find_none _ _ E) in Hin. unfold connects in Hin.
    rewrite Hs, Hv, !Z.eqb_refl in Hin. discriminate.
  - destruct (find (connects u v) (edges g)) as [e |] eqn:E; [| congruence].
    intros _. apply find_some in E. destruct E as [Hin Hc].
    unfold connects in Hc. apply andb_true_iff in Hc.
    destruct Hc as [Hs Hd]. apply Z.eqb_eq in Hs, Hd.
    exists e. split; [assumption |].
    rewrite Hs, Z.eqb_refl. left. assumption.
Qed.

End EdgeListFacts.

Module AdjacencyMatrixFacts.

Import AdjacencyMatrix Storage AdjacencyListFacts.

Lemma range_nil lo hi : hi < lo -> range lo hi = [].
Proof.
  intros H. unfold range. replace (Z.to_nat (hi - lo + 1)) with O by lia.
  reflexivity.
Qed.

Lemma range_cons lo hi : lo <= hi -> range lo hi = lo :: range (lo + 1) hi.
Proof.
  intros H. unfold range.
  replace (Z.to_nat (hi - lo + 1)) with (S (Z.to_nat (hi - (lo + 1) + 1)))
    by lia.
  simpl seq. simpl map. f_equal; [lia |].
  rewrite <- seq_shift, map_map. apply map_ext. intros k. lia.
Qed.

Lemma length_store {A} (objs : list A) r o :
  List.length (store objs r o) = List.length objs.
Proof.
  revert r; induction objs as [| x t IH]; intros [| r]; simpl; auto.
Qed.

Lemma nth_store {A} (objs : list A) r o r' :
  (r < List.length objs)%nat ->
  nth_error (store objs r o) r'
  = if Nat.eqb r' r then Some o else nth_error objs r'.
Proof.
  revert r r'; induction objs as [| x t IH]; intros r r' Hr; simpl in *.
  - lia.
  - destruct r as [| r]; destruct r' as [| r']; simpl; auto.
    apply IH. lia.
Qed.

Lemma get_filled n j :
  Js.get (filled n Js.PosInf) j = filledCell n j.
Proof.
  unfold filled, filledCell.
  destruct (Z.leb_spec 0 j); simpl.
  - destruct (Z.ltb_spec j n).
    + apply JsFacts.get_repeat. lia.
    + apply JsFacts.get_beyond. unfold Js.length.
      rewrite repeat_length. lia.
  - apply JsFacts.get_neg. lia.
Qed.

Lemma sameShape_valid g g' : sameShape g g' -> validRefs g -> validRefs g'.
Proof.
  intros (_ & Em & El) V i r. unfold slotAM. rewrite Em, El. apply V.
Qed.

Lemma sameShape_slot g g' i : sameShape g g' -> slotAM g' i = slotAM g i.
Proof. intros (_ & Em & _). unfold slotAM. now rewrite Em. Qed.

Lemma sameShape_trans g1 g2 g3 :
  sameShape g1 g2 -> sameShape g2 g3 -> sameShape g1 g3.
Proof.
  intros (A1 & A2 & A3) (B1 & B2 & B3). repeat split; congruence.
Qed.

Lemma sameRef_distinct g i i' r :
  distinctRows g -> slotAM g i = Some r ->
  sameRef (slotAM g i') r = (i' =? i).
Proof.
  intros Dst Hi. unfold sameRef.
  destruct (Z.eqb_spec i' i) as [-> | Hne].
  - rewrite Hi. apply Nat.eqb_refl.
  - destruct (slotAM g i') as [r' |] eqn:E; [| reflexivity].
    destruct (Nat.eqb_spec r' r) as [-> | ?]; [| reflexivity].
    exfalso. apply Hne. eapply Dst; eassumption.
Qed.

(** [adjacencyMatrix[i][j] = v] writes through the reference: every slot
    that shares the row sees the new cell. *)
Lemma setCell_spec i j v g r :
  validRefs g -> slotAM g i = Some r -> 0 <= j ->
  exists g',
    setCell i j v g = Ret tt g' /\ sameShape g g' /\
    forall i' j',
      cellAM g' i' j'
      = if sameRef (slotAM g i') r && (j' =? j) then Some v
        else cellAM g i' j'.
Proof.
  intros V Hi Hj. unfold setCell. unfold slotAM in Hi. rewrite Hi.
  pose proof (V i r Hi) as Hr.
  destruct (nth_error (rowObjects g) r) as [row |] eqn:Erow;
    [| apply nth_error_None in Erow; lia].
  eexists. split; [reflexivity |]. split.
  { repeat split; simpl. apply length_store. }
  intros i' j'. unfold cellAM, rowAM, slotAM. simpl.
  destruct (Js.get (adjacencyMatrix g) i') as [r' |]; simpl; [| reflexivity].
  rewrite nth_store by assumption.
  destruct (Nat.eqb_spec r' r) as [-> | Hne]; simpl; [| reflexivity].
  rewrite Erow, JsFacts.get_set by assumption.
  destruct (j' =? j); reflexivity.
Qed.

(** The loop [for (j = a; j <= hi; j++) adjacencyMatrix[i][j] = Infinity] *)
Lemma fillLoop_spec i hi r (count : nat) : forall a g,
  Z.of_nat count = hi - a + 1 -> 0 <= a ->
  validRefs g -> slotAM g i = Some r ->
  exists g',
    forEach (range a hi) (fun j => setCell i j Js.PosInf) g = Ret tt g' /\
    sameShape g g' /\
    forall i' j',
      cellAM g' i' j'
      = if sameRef (slotAM g i') r && ((a <=? j') && (j' <=? hi))
        then Some Js.PosInf else cellAM g i' j'.
Proof.
  induction count as [| count IH]; intros a g Hc Ha V Hi.
  { rewrite range_nil by lia. exists g. split; [reflexivity |].
    split; [repeat split |]. intros i' j'.
    destruct (Z.leb_spec a j'), (Z.leb_spec j' hi); try lia;
      simpl; rewrite ?andb_false_r; reflexivity. }
  rewrite range_cons by lia. simpl forEach.
  destruct (setCell_spec i a Js.PosInf g r V Hi Ha) as (g1 & E1 & S1 & C1).
  destruct (IH (a + 1) g1) as (g' & E' & S' & C').
  - lia.
  - lia.
  - eapply sameShape_valid; eassumption.
  - now rewrite (sameShape_slot g g1).
  - exists g'. unfold bind. rewrite E1. split; [exact E' |].
    split; [eapply sameShape_trans; eassumption |].
    intros i' j'. rewrite C', C1, (sameShape_slot g g1) by assumption.
    destruct (sameRef (slotAM g i') r); simpl; [| reflexivity].
    destruct (Z.eqb_spec j' a), (Z.leb_spec (a + 1) j'), (Z.leb_spec a j'),
      (Z.leb_spec j' hi); try lia; reflexivity.
Qed.

Lemma newRow_spec i n g :
  0 <= i -> validRefs g ->
  exists g',
    newRow i n g = Ret tt g' /\
    vertices g' = vertices g /\ validRefs g' /\
    (forall k, slotAM g' k
               = if k =? i then Some (List.length (rowObjects g))
                 else slotAM g k) /\
    (forall i' j', cellAM g' i' j'
                   = if i' =? i then filledCell n j' else cellAM g i' j') /\
    (distinctRows g -> distinctRows g').
Proof.
  intros Hi V. eexists. split; [reflexivity |]. simpl.
  assert (Hslot : forall k,
             Js.get (Js.set (adjacencyMatrix g) i
                            (Some (List.length (rowObjects g)))) k
             = if k =? i then Some (List.length (rowObjects g))
               else slotAM g k)
    by (intros k; now rewrite JsFacts.get_set).
  split; [reflexivity |]. split; [| split; [| split]].
  - intros k r. unfold slotAM. simpl. rewrite Hslot, length_app. simpl.
    destruct (k =? i).
    + intros [= <-]. lia.
    + intros H. apply V in H. lia.
  - exact Hslot.
  - intros i' j'. unfold cellAM, rowAM. simpl. rewrite Hslot.
    destruct (Z.eqb_spec i' i).
    + rewrite nth_error_app2, Nat.sub_diag by lia. simpl.
      apply get_filled.
    + unfold slotAM. destruct (Js.get (adjacencyMatrix g) i') as [r |] eqn:E;
        [| reflexivity].
      rewrite nth_error_app1 by (eapply V; exact E). reflexivity.
  - intros Dst k k' r. unfold slotAM. simpl. rewrite !Hslot.
    destruct (Z.eqb_spec k i), (Z.eqb_spec k' i); try congruence.
    + intros [= <-] H. apply V in H. lia.
    + intros H [= <-]. apply V in H. lia.
    + apply Dst.
Qed.

(** The loop [for (i = a; i <= hi; i++)] that grows the matrix. *)
Lemma growLoop_spec last hi (count : nat) : forall a g,
  Z.of_nat count = hi - a + 1 -> 0 <= a -> -1 <= last <= hi ->
  validRefs g ->
  (forall k, 0 <= k <= last -> slotAM g k <> None) ->
  exists g',
    forEach (range a hi) (growRow last hi) g = Ret tt g' /\
    vertices g' = vertices g /\ validRefs g' /\
    (forall k, slotAM g k <> None -> slotAM g' k <> None) /\
    (forall k, a <= k <= hi -> slotAM g' k <> None) /\
    (distinctRows g ->
     distinctRows g' /\
     forall i j, cellAM g' i j = grownFrom g last hi a i j).
Proof.
  induction count as [| count IH]; intros a g Hc Ha Hlast V Hold.
  { rewrite range_nil by lia. exists g. split; [reflexivity |].
    split; [reflexivity |]. split; [assumption |].
    split; [auto |]. split; [intros k Hk; lia |].
    intros Dst. split; [assumption |]. intros i j. unfold grownFrom.
    destruct (Z.leb_spec a i), (Z.leb_spec i hi); try lia; reflexivity. }
  rewrite range_cons by lia. simpl forEach.
  assert (Hstep : exists g1,
             growRow last hi a g = Ret tt g1 /\
             vertices g1 = vertices g /\ validRefs g1 /\
             (forall k, slotAM g k <> None -> slotAM g1 k <> None) /\
             slotAM g1 a <> None /\
             (distinctRows g ->
              distinctRows g1 /\
              forall i j,
                cellAM g1 i j
                = if i =? a then grownFrom g last hi a a j
                  else cellAM g i j)).
  { unfold growRow, grownFrom.
    destruct (Z.leb_spec a a); [| lia].
    destruct (Z.leb_spec a hi); [| lia]. simpl andb. cbv iota.
    destruct (Z.leb_spec a last) as [Hal | Hal].
    - destruct (slotAM g a) as [r |] eqn:Er;
        [| exfalso; apply (Hold a); [lia | assumption]].
      destruct (fillLoop_spec a hi r (Z.to_nat (hi - last)) (last + 1) g)
        as (g1 & E1 & S1 & C1); [lia | lia | assumption | assumption |].
      exists g1. split; [exact E1 |]. split; [apply S1 |].
      split; [eapply sameShape_valid; eassumption |].
      split; [intros k; now rewrite (sameShape_slot g g1) |].
      split; [rewrite (sameShape_slot g g1), Er by assumption; congruence |].
      intros Dst. split.
      + intros k k' r'. rewrite !(sameShape_slot g g1) by assumption.
        apply Dst.
      + intros i j. rewrite C1, (sameRef_distinct g a i r Dst Er).
        destruct (Z.eqb_spec i a) as [-> | ?]; reflexivity.
    - destruct (newRow_spec a (hi + 1) g Ha V)
        as (g1 & E1 & V1 & R1 & Sl1 & C1 & D1).
      exists g1. split; [exact E1 |]. split; [exact V1 |].
      split; [exact R1 |].
      split; [intros k; rewrite Sl1; destruct (k =? a); congruence |].
      split; [rewrite Sl1, Z.eqb_refl; congruence |].
      intros Dst. split; [now apply D1 | exact C1]. }
  destruct Hstep as (g1 & E1 & V1 & R1 & Keep1 & Sa & Cells1).
  destruct (IH (a + 1) g1) as (g' & E' & V' & R' & Keep' & New' & Cells').
  - lia.
  - lia.
  - assumption.
  - assumption.
  - intros k Hk. apply Keep1. now apply Hold.
  - exists g'. unfold bind. rewrite E1. split; [exact E' |].
    split; [congruence |]. split; [assumption |].
    split; [auto |]. split.
    + intros k Hk. destruct (Z.eq_dec k a) as [-> | Hne].
      * now apply Keep'.
      * apply New'. lia.
    + intros Dst. destruct (Cells1 Dst) as [D1 C1].
      destruct (Cells' D1) as [D' C']. split; [assumption |].
      intros i j. rewrite C'. unfold grownFrom at 1. rewrite !C1.
      unfold grownFrom.
      destruct (Z.eqb_spec i a) as [-> | Hne].
      * destruct (Z.leb_spec (a + 1) a); [lia |]. simpl andb. cbv iota.
        reflexivity.
      * destruct (Z.leb_spec (a + 1) i), (Z.leb_spec a i),
          (Z.leb_spec i hi); try lia; simpl andb; cbv iota;
          reflexivity.
Qed.

Lemma grow_guard n s d :
  (n - 1 <? s) || (n - 1 <? d) = negb (Z.max s d <? n).
Proof.
  destruct (Z.ltb_spec (n - 1) s), (Z.ltb_spec (n - 1) d),
    (Z.ltb_spec (Z.max s d) n); simpl; try reflexivity; lia.
Qed.

Lemma am_setEdge_spec s d w g :
  0 <= s -> 0 <= d -> wellFormedAM g ->
  exists g',
    setEdge s d w g = Ret tt g' /\
    vertices g' = Z.max (vertices g) (Z.max s d + 1) /\
    wellFormedAM g' /\
    (Z.max s d < vertices g -> sameShape g g') /\
    (forall x r, slotAM g' s = Some r -> slotAM g' x = Some r ->
                 cellAM g' x d = Some (stored w)) /\
    (distinctRows g ->
     distinctRows g' /\
     forall i j,
       cellAM g' i j
       = if (i =? s) && (j =? d) then Some (stored w)
         else grown g s d i j).
Proof.
  intros Hs Hd (Hn & V & Hslots). unfold setEdge.
  rewrite nonneg_guard by assumption.
  unfold bind at 1, size, gets. rewrite grow_guard.
  assert (Hgrow : exists g1,
             (if negb (Z.max s d <? vertices g)
              then bind (forEach (range 0 (Z.max s d))
                                 (growRow (vertices g - 1) (Z.max s d)))
                        (fun _ => modify (fun g0 =>
                           mk (Z.max s d + 1) (adjacencyMatrix g0)
                              (rowObjects g0)))
              else ret tt) g = Ret tt g1 /\
             vertices g1 = Z.max (vertices g) (Z.max s d + 1) /\
             wellFormedAM g1 /\
             (Z.max s d < vertices g -> g1 = g) /\
             (distinctRows g ->
              distinctRows g1 /\
              forall i j, cellAM g1 i j = grown g s d i j)).
  { unfold grown. destruct (Z.ltb_spec (Z.max s d) (vertices g));
      cbn [negb]; cbv iota.
    - exists g. split; [reflexivity |]. split; [lia |].
      split; [repeat split; assumption |]. split; [reflexivity |].
      intros Dst. now split.
    - destruct (growLoop_spec (vertices g - 1) (Z.max s d)
                  (Z.to_nat (Z.max s d + 1)) 0 g)
        as (g1 & E1 & V1 & R1 & Keep1 & New1 & Cells1);
        [lia | lia | lia | assumption | |].
      { intros k Hk. apply Hslots. lia. }
      eexists. unfold bind. rewrite E1. split; [reflexivity |].
      simpl vertices. split; [lia |]. split.
      + split; [simpl; lia |]. split; [exact R1 |].
        intros i Hi. simpl in Hi. apply New1. lia.
      + split; [lia |].
        intros Dst. destruct (Cells1 Dst) as [D1 C1]. split; assumption. }
  destruct Hgrow as (g1 & E1 & V1 & (Hn1 & R1 & Slots1) & Same1 & Cells1).
  unfold bind at 1. rewrite E1.
  destruct (slotAM g1 s) as [r |] eqn:Er;
    [| exfalso; apply (Slots1 s); [lia | assumption]].
  assert (Hset : exists g',
             setCell s d (stored w) g1 = Ret tt g' /\ sameShape g1 g' /\
             forall i' j',
               cellAM g' i' j'
               = if sameRef (slotAM g1 i') r && (j' =? d)
                 then Some (stored w) else cellAM g1 i' j')
    by (apply setCell_spec; assumption).
  destruct Hset as (g' & E' & S' & C').
  exists g'. split.
  { destruct w; exact E'. }
  split; [destruct S' as (-> & _); exact V1 |]. split.
  { destruct S' as (Ev & Em & El). split; [rewrite Ev; exact Hn1 |].
    split; [apply (sameShape_valid g1 g'); [repeat split |]; assumption |].
    intros i. unfold slotAM. rewrite Ev, Em. apply Slots1. }
  split; [intros Hno; rewrite <- (Same1 Hno); exact S' |].
  split.
  - intros x r' Hs' Hx. rewrite C'.
    rewrite !(sameShape_slot g1 g') in * by assumption.
    rewrite Er in Hs'. injection Hs' as <-.
    rewrite Hx. simpl. rewrite Nat.eqb_refl, Z.eqb_refl. reflexivity.
  - intros Dst. destruct (Cells1 Dst) as [D1 C1]. split.
    + intros k k' r'. rewrite !(sameShape_slot g1 g') by assumption.
      apply D1.
    + intros i j. rewrite C', (sameRef_distinct g1 s i r D1 Er), C1.
      reflexivity.
Qed.

Lemma am_weight_spec u v g :
  wellFormedAM g -> 0 <= u < vertices g -> v < vertices g ->
  weight u v g = Ret (cellAM g u v) g.
Proof.
  intros (_ & V & Hslots) Hu Hv. unfold weight, bind, size, gets.
  rewrite inside_guard by lia. unfold getRow, cellAM, rowAM.
  specialize (Hslots u Hu). unfold slotAM in *.
  destruct (Js.get (adjacencyMatrix g) u) as [r |] eqn:Er; [| congruence].
  pose proof (V u r Er) as Hr.
  destruct (nth_error (rowObjects g) r) eqn:Erow;
    [reflexivity | apply nth_error_None in Erow; lia].
Qed.

Lemma in_finiteIndices row : forall i0 v,
  In v (finiteIndices row i0)
  <-> i0 <= v /\
      exists w, Js.get row (v - i0) = Some w /\ isInfinity w = false.
Proof.
  induction row as [| c row IH]; intros i0 v; simpl finiteIndices.
  - split; [intros [] |]. intros (Hv & w & Hw & _).
    rewrite JsFacts.get_beyond in Hw by (unfold Js.length; simpl; lia).
    discriminate.
  - assert (Htail : forall k, 0 < k ->
               Js.get (c :: row) k = Js.get row (k - 1)).
    { intros k Hk. unfold Js.get.
      destruct (Z.ltb_spec k 0); [lia |].
      destruct (Z.ltb_spec (k - 1) 0); [lia |].
      replace (Z.to_nat k) with (S (Z.to_nat (k - 1))) by lia.
      reflexivity. }
    assert (Hrec : In v (finiteIndices row (i0 + 1))
                   <-> i0 < v /\
                       exists w, Js.get (c :: row) (v - i0) = Some w /\
                                 isInfinity w = false).
    { rewrite IH. split.
      - intros (Hv & w & Hw & Hf). split; [lia |]. exists w.
        rewrite Htail by lia. replace (v - i0 - 1) with (v - (i0 + 1)) by lia.
        now split.
      - intros (Hv & w & Hw & Hf). split; [lia |]. exists w.
        rewrite Htail in Hw by lia.
        replace (v - i0 - 1) with (v - (i0 + 1)) in Hw by lia.
        now split. }
    assert (Hhead : forall w, Js.get (c :: row) (i0 - i0) = Some w
                              -> c = Some w).
    { intros w. rewrite Z.sub_diag. unfold Js.get. simpl. auto. }
    destruct c as [w0 |]; [destruct (isInfinity w0) eqn:Einf |].
    + rewrite Hrec. split.
      * intros (Hv & H). split; [lia | exact H].
      * intros (Hv & w & Hw & Hf). split; [| now exists w].
        destruct (Z.eq_dec v i0) as [-> | ?]; [| lia].
        apply Hhead in Hw. congruence.
    + simpl In. rewrite Hrec. split.
      * intros [<- | (Hv & H)].
        -- split; [lia |]. exists w0. rewrite Z.sub_diag. now split.
        -- split; [lia | exact H].
      * intros (Hv & H).
        destruct (Z.eq_dec v i0) as [-> | ?]; [now left | right].
        split; [lia | exact H].
    + rewrite Hrec. split.
      * intros (Hv & H). split; [lia | exact H].
      * intros (Hv & w & Hw & Hf). split; [| now exists w].
        destruct (Z.eq_dec v i0) as [-> | ?]; [| lia].
        apply Hhead in Hw. congruence.
Qed.

Lemma am_neighbors_spec u g :
  wellFormedAM g -> 0 <= u < vertices g ->
  exists ns,
    neighbors u g = Ret ns g /\
    forall v, In v ns
              <-> exists w, cellAM g u v = Some w /\ isInfinity w = false.
Proof.
  intros (_ & V & Hslots) Hu. unfold neighbors, bind, size, gets.
  destruct (Z.ltb_spec (vertices g - 1) u); [lia |].
  unfold getRow, cellAM, rowAM.
  specialize (Hslots u Hu). unfold slotAM in *.
  destruct (Js.get (adjacencyMatrix g) u) as [r |] eqn:Er; [| congruence].
  pose proof (V u r Er) as Hr.
  destruct (nth_error (rowObjects g) r) as [row |] eqn:Erow;
    [| apply nth_error_None in Erow; lia].
  eexists. split; [reflexivity |].
  intros v. rewrite in_finiteIndices, Z.sub_0_r. split.
  - intros (Hv & w & Hw & Hf). exists w. rewrite Hw. now split.
  - intros (w & Hw & Hf). split; [| now exists w].
    destruct (Z.le_gt_cases 0 v); [assumption |].
    rewrite JsFacts.get_neg in Hw by lia. discriminate.
Qed.

Lemma blank_ok : wellFormedAM blankAM /\ distinctRows blankAM.
Proof.
  split.
  - split; [simpl; lia |]. split.
    + intros i r H. unfold slotAM, blankAM in H. simpl in H.
      rewrite JsFacts.get_nil in H. discriminate.
    + intros i Hi. simpl in Hi. lia.
  - intros i i' r H. unfold slotAM, blankAM in H. simpl in H.
    rewrite JsFacts.get_nil in H. discriminate.
Qed.

(** [new AdjacencyMatrix_GraphStorage(n)]: one row array, referenced by
    every slot. *)
Lemma create_sized n :
  0 <= n ->
  create (Some n)
  = Ret tt (mk n (filled n 0%nat) [filled n Js.PosInf]).
Proof.
  intros Hn. unfold create, constructor.
  destruct (Z.ltb_spec n 0); [lia | reflexivity].
Qed.

Lemma create_wellFormed size g :
  create size = Ret tt g -> wellFormedAM g.
Proof.
  destruct size as [n |].
  - destruct (Z.ltb_spec n 0) as [Hneg | Hn].
    + unfold create, constructor.
      destruct (Z.ltb_spec n 0); [discriminate | lia].
    + rewrite create_sized by assumption. intros [= <-].
      split; [simpl; lia |]. split.
      * intros i r. unfold slotAM, filled. simpl. intros H.
        destruct (Z.ltb_spec i 0).
        { rewrite JsFacts.get_neg in H by lia. discriminate. }
        destruct (Z.ltb_spec i n).
        { rewrite JsFacts.get_repeat in H by lia. injection H as <-. lia. }
        rewrite JsFacts.get_beyond in H
          by (unfold Js.length; rewrite repeat_length; lia).
        discriminate.
      * intros i Hi. simpl in Hi. unfold slotAM, filled. simpl.
        rewrite JsFacts.get_repeat by lia. congruence.
  - intros [= <-]. apply blank_ok.
Qed.

End AdjacencyMatrixFacts.

(** ** The backends side by side *)

Module StorageFacts.

Import Storage.

Lemma forEach_app {S A} (xs ys : list A) (body : A -> M (S := S) unit) s :
  forEach (xs ++ ys) body s
  = bind (forEach xs body) (fun _ => forEach ys body) s.
Proof.
  revert s. induction xs as [| x xs IH]; intros s; simpl.
  - reflexivity.
  - unfold bind in *.
    destruct (body x s) as [[] s1 | msg s1 |];
      [apply IH | reflexivity | reflexivity].
Qed.

Lemma forEach_snoc {S A} (xs : list A) x (body : A -> M (S := S) unit)
      s s1 s2 :
  forEach xs body s = Ret tt s1 -> body x s1 = Ret tt s2 ->
  forEach (xs ++ [x]) body s = Ret tt s2.
Proof.
  intros E1 E2. rewrite forEach_app. unfold bind. rewrite E1. simpl.
  unfold bind. rewrite E2. reflexivity.
Qed.

Lemma wasSet_snoc calls c u v :
  wasSet (calls ++ [c]) u v
  <-> wasSet calls u v \/ (callSource c = u /\ callDestination c = v).
Proof.
  unfold wasSet. split.
  - intros (c' & Hin & H). apply in_app_iff in Hin.
    destruct Hin as [Hin | [<- | []]]; [left; eauto | now right].
  - intros [(c' & Hin & H) | H].
    + exists c'. split; [apply in_app_iff; now left | assumption].
    + exists c. split; [apply in_app_iff; right; now left | assumption].
Qed.

Lemma wasNamed_snoc calls c u :
  wasNamed (calls ++ [c]) u
  <-> wasNamed calls u \/ callSource c = u \/ callDestination c = u.
Proof.
  unfold wasNamed. split.
  - intros (c' & Hin & H). apply in_app_iff in Hin.
    destruct Hin as [Hin | [<- | []]]; [left; eauto | now right].
  - intros [(c' & Hin & H) | H].
    + exists c'. split; [apply in_app_iff; now left | assumption].
    + exists c. split; [apply in_app_iff; right; now left | assumption].
Qed.

Lemma wasSet_named calls u v :
  wasSet calls u v -> wasNamed calls u /\ wasNamed calls v.
Proof.
  intros (c & Hin & Hs & Hd). split; exists c; auto.
Qed.

Lemma unset_outside calls gAL gAM gEL i j :
  agree calls gAL gAM gEL ->
  ~ (0 <= i < AdjacencyList.vertices gAL /\
     0 <= j < AdjacencyList.vertices gAL) ->
  edgeAL gAL i j = None.
Proof.
  intros Ag Hout. destruct (edgeAL gAL i j) eqn:E; [| reflexivity].
  exfalso. apply Hout.
  assert (Hset : wasSet calls i j)
    by (apply (agree_setAL Ag); congruence).
  apply wasSet_named in Hset. destruct Hset as [Hi Hj].
  split; apply (agree_range Ag); assumption.
Qed.

Lemma agree_empty :
  agree [] (AdjacencyList.create None) blankAM (EdgeList.create None).
Proof.
  assert (Hset : forall u v, ~ wasSet [] u v)
    by (intros u v (c & [] & _)).
  assert (Hnamed : forall u, ~ wasNamed [] u)
    by (intros u (c & [] & _)).
  constructor.
  - reflexivity.
  - reflexivity.
  - simpl. lia.
  - apply AdjacencyMatrixFacts.blank_ok.
  - apply AdjacencyMatrixFacts.blank_ok.
  - intros i j Hi. simpl in Hi. lia.
  - intros u v. unfold edgeAL. simpl. split; [congruence |].
    intros H. now apply Hset in H.
  - intros u H. now apply Hnamed in H.
  - intros u v _. unfold edgeEL. simpl. split; [congruence |].
    intros H. now apply Hset in H.
  - intros u. unfold edgeEL. simpl. split; [congruence |].
    intros H. now apply Hnamed in H.
  - intros _ u v. unfold edgeAL, edgeEL. simpl. split; congruence.
  - intros _ u v _. reflexivity.
Qed.

Lemma stored_finite w : w <> Some Js.PosInf -> stored w <> Js.PosInf.
Proof. destruct w as [w |]; simpl; congruence. Qed.

Lemma storedEL_finite w : w <> Some Js.PosInf -> storedEL w <> Js.PosInf.
Proof. destruct w as [w |]; simpl; unfold EdgeList.DEFAULT_WEIGHT; congruence. Qed.

(** One more [setEdge] call on each backend keeps them in agreement. *)
Lemma agree_step calls gAL gAM gEL c :
  agree calls gAL gAM gEL ->
  0 <= callSource c -> 0 <= callDestination c ->
  exists gAL' gAM' gEL',
    AdjacencyList.setEdge (callSource c) (callDestination c) (callWeight c)
                          gAL = Ret tt gAL' /\
    AdjacencyMatrix.setEdge (callSource c) (callDestination c)
                            (callWeight c) gAM = Ret tt gAM' /\
    EdgeList.setEdge (callSource c) (callDestination c) (callWeight c) gEL
    = Ret tt gEL' /\
    agree (calls ++ [c]) gAL' gAM' gEL'.
Proof.
  intros Ag Hs Hd. destruct c as [s d w]. simpl in *.
  destruct (AdjacencyListFacts.al_setEdge_spec s d w gAL Hs Hd)
    as (gAL' & EAL & VAL & FAL).
  destruct (AdjacencyMatrixFacts.am_setEdge_spec s d w gAM Hs Hd (agree_wf Ag))
    as (gAM' & EAM & VAM & WAM & _ & _ & DAM).
  destruct (DAM (agree_distinct Ag)) as [DAM' CAM].
  destruct (EdgeListFacts.el_setEdge_spec s d w gEL Hs Hd)
    as (gEL' & EEL & VEL & FEL).
  exists gAL', gAM', gEL'. repeat (split; [assumption |]).
  pose proof (agree_size Ag) as Hn.
  pose proof (agree_sizeAM Ag) as HnAM.
  pose proof (agree_sizeEL Ag) as HnEL.
  set (n := AdjacencyList.vertices gAL) in *.
  constructor.
  - rewrite VAM, VAL, HnAM. fold n. lia.
  - rewrite VEL, VAL, HnEL. fold n. lia.
  - rewrite VAL. fold n. lia.
  - assumption.
  - assumption.
  - intros i j Hi. rewrite CAM, FAL. rewrite VAL in *. fold n in Hi |- *.
    destruct (Z.eqb_spec i s) as [Eis | Hi'], (Z.eqb_spec j d) as [Ejd | Hj'];
      simpl andb; cbv iota.
    { destruct (Z.leb_spec 0 j), (Z.ltb_spec j (Z.max (Z.max n (s + 1)) (d + 1)));
        try lia. reflexivity. }
    all: unfold grown, grownFrom, filledCell; rewrite HnAM; fold n.
    all: destruct (Z.ltb_spec (Z.max s d) n).
    all: try (replace (Z.max (Z.max n (s + 1)) (d + 1)) with n by lia;
              apply (agree_cells Ag); fold n; lia).
    all: destruct (Z.leb_spec 0 i); [| lia].
    all: destruct (Z.leb_spec i (Z.max s d)); [| lia].
    all: simpl andb; cbv iota.
    all: destruct (Z.leb_spec i (n - 1)).
    all: try (rewrite (unset_outside calls gAL gAM gEL i j Ag)
               by (fold n; lia);
              destruct (Z.leb_spec 0 j), (Z.ltb_spec j (Z.max s d + 1)),
                (Z.ltb_spec j (Z.max (Z.max n (s + 1)) (d + 1)));
              try lia; reflexivity).
    all: destruct (Z.leb_spec (n - 1 + 1) j), (Z.leb_spec j (Z.max s d));
      simpl andb; cbv iota.
    all: try (rewrite (unset_outside calls gAL gAM gEL i j Ag)
               by (fold n; lia);
              destruct (Z.leb_spec 0 j),
                (Z.ltb_spec j (Z.max (Z.max n (s + 1)) (d + 1)));
              try lia; reflexivity).
    all: rewrite (agree_cells Ag) by (fold n; lia); fold n.
    all: destruct (Z.leb_spec 0 j), (Z.ltb_spec j n),
           (Z.ltb_spec j (Z.max (Z.max n (s + 1)) (d + 1)));
      try lia; reflexivity.
  - intros u v. rewrite FAL, wasSet_snoc. simpl.
    rewrite <- (agree_setAL Ag).
    destruct (Z.eqb_spec u s), (Z.eqb_spec v d); simpl;
      split; intros H; try tauto; try congruence;
      try (right; split; congruence);
      destruct H as [H | [H1 H2]]; congruence.
  - intros u H. apply wasNamed_snoc in H. simpl in H. rewrite VAL. fold n.
    destruct H as [H | [<- | <-]]; [| lia | lia].
    apply (agree_range Ag) in H. fold n in H. lia.
  - intros u v Huv. rewrite FEL, wasSet_snoc. simpl. unfold withLoops.
    destruct (Z.eqb_spec u v); [contradiction |]. simpl andb. cbv iota.
    rewrite <- (agree_setEL Ag) by assumption.
    destruct (Z.eqb_spec u s), (Z.eqb_spec v d); simpl;
      split; intros H; try tauto; try congruence;
      try (right; split; congruence);
      destruct H as [H | [H1 H2]]; congruence.
  - intros u. rewrite FEL, wasNamed_snoc. simpl. unfold withLoops.
    rewrite Z.eqb_refl. simpl andb. rewrite <- (agree_loopEL Ag).
    destruct (Z.eqb_spec u s), (Z.eqb_spec u d); simpl;
      destruct (edgeEL gEL u u); split; intros H;
      try congruence; try tauto; try (right; left; congruence);
      try (right; right; congruence);
      destruct H as [H | [H | H]]; congruence.
  - intros Hfin u v.
    assert (Hw : w <> Some Js.PosInf).
    { apply (Hfin (mkCall s d w)). apply in_app_iff. right. now left. }
    assert (Hfin' : finiteWeights calls).
    { intros c Hc. apply Hfin. apply in_app_iff. now left. }
    pose proof (agree_finite Ag Hfin') as Hold.
    rewrite FAL, FEL. unfold withLoops. split.
    + destruct ((u =? s) && (v =? d)); [| apply Hold].
      intros [= H]. now apply stored_finite in H.
    + destruct ((u =? s) && (v =? d)).
      * intros [= H]. now apply storedEL_finite in H.
      * destruct ((u =? v) && ((u =? s) || (u =? d))); [| apply Hold].
        destruct (edgeEL gEL u u) eqn:E; [| congruence].
        rewrite <- E. apply Hold.
  - intros Hex u v Huv.
    assert (Hw : w <> None).
    { apply (Hex (mkCall s d w)). apply in_app_iff. right. now left. }
    assert (Hex' : explicitWeights calls).
    { intros c Hc. apply Hex. apply in_app_iff. now left. }
    rewrite FAL, FEL. unfold withLoops.
    destruct (Z.eqb_spec u v); [contradiction |]. simpl andb. cbv iota.
    rewrite (agree_explicit Ag Hex') by assumption.
    destruct w as [w |]; [reflexivity | congruence].
Qed.

(** The three backends, started empty and given the same calls, all
    return and agree. *)
Lemma agree_run calls :
  nonNegative calls ->
  exists gAL gAM gEL,
    setEdgesAL calls (AdjacencyList.create None) = Ret tt gAL /\
    setEdgesAM calls blankAM = Ret tt gAM /\
    setEdgesEL calls (EdgeList.create None) = Ret tt gEL /\
    agree calls gAL gAM gEL.
Proof.
  induction calls as [| c calls IH] using rev_ind; intros Hnn.
  { exists (AdjacencyList.create None), blankAM, (EdgeList.create None).
    repeat (split; [reflexivity |]). apply agree_empty. }
  destruct IH as (gAL & gAM & gEL & EAL & EAM & EEL & Ag).
  { intros c' Hc'. apply Hnn. apply in_app_iff. now left. }
  destruct (Hnn c) as [Hs Hd]; [apply in_app_iff; right; now left |].
  destruct (agree_step calls gAL gAM gEL c Ag Hs Hd)
    as (gAL' & gAM' & gEL' & SAL & SAM & SEL & Ag').
  exists gAL', gAM', gEL'.
  unfold setEdgesAL, setEdgesAM, setEdgesEL in *.
  split; [eapply forEach_snoc; eassumption |].
  split; [eapply forEach_snoc; eassumption |].
  split; [eapply forEach_snoc; eassumption |]. exact Ag'.
Qed.

Lemma ret_inj {S A} (a b : A) (s : S) : Ret a s = Ret b s <-> a = b.
Proof. split; [now intros [= ->] | now intros ->]. Qed.


Lemma named_iff calls u : named calls u = true <-> wasNamed calls u.
Proof.
  unfold named, wasNamed. rewrite existsb_exists.
  split; intros (c & Hin & H); exists c; (split; [assumption |]).
  - apply orb_true_iff in H. destruct H as [H | H];
      apply Z.eqb_eq in H; auto.
  - apply orb_true_iff. destruct H as [H | H]; [left | right];
      apply Z.eqb_eq; auto.
Qed.

(** What the adjacency list holds after a run: for every pair, the
    weight of the last call that set it. *)
Lemma al_run_edges calls : forall g0 g,
  nonNegative calls ->
  setEdgesAL calls g0 = Ret tt g ->
  forall u v,
    edgeAL g u v
    = match lastWeight calls u v with
      | Some x => Some (stored x)
      | None => edgeAL g0 u v
      end.
Proof.
  induction calls as [| c calls IH]; intros g0 g Hnn Hrun u v.
  { simpl in Hrun. unfold ret in Hrun. now injection Hrun as <-. }
  destruct (Hnn c ltac:(now left)) as [Hs Hd].
  destruct (AdjacencyListFacts.al_setEdge_spec (callSource c)
              (callDestination c) (callWeight c) g0 Hs Hd)
    as (g1 & E & _ & F).
  unfold setEdgesAL in Hrun. simpl forEach in Hrun. unfold bind in Hrun.
  rewrite E in Hrun.
  rewrite (IH g1 g (fun c' Hc' => Hnn c' (or_intror Hc')) Hrun u v).
  simpl lastWeight. destruct (lastWeight calls u v); [reflexivity |].
  rewrite F.
  destruct ((u =? callSource c) && (v =? callDestination c)); reflexivity.
Qed.

(** The same for the edge list, where a vertex that was named has its
    self-loop. *)
Lemma el_run_edges calls : forall g0 g,
  nonNegative calls ->
  setEdgesEL calls g0 = Ret tt g ->
  forall u v,
    edgeEL g u v
    = match lastWeight calls u v with
      | Some x => Some (storedEL x)
      | None =>
        if (u =? v) && named calls u then Some (loopOf (edgeEL g0 u u))
        else edgeEL g0 u v
      end.
Proof.
  induction calls as [| c calls IH]; intros g0 g Hnn Hrun u v.
  { simpl in Hrun. unfold ret in Hrun. injection Hrun as <-.
    simpl. now rewrite andb_false_r. }
  destruct (Hnn c ltac:(now left)) as [Hs Hd].
  destruct (EdgeListFacts.el_setEdge_spec (callSource c)
              (callDestination c) (callWeight c) g0 Hs Hd)
    as (g1 & E & _ & F).
  unfold setEdgesEL in Hrun. simpl forEach in Hrun. unfold bind in Hrun.
  rewrite E in Hrun.
  rewrite (IH g1 g (fun c' Hc' => Hnn c' (or_intror Hc')) Hrun u v).
  simpl lastWeight. simpl named.
  destruct (lastWeight calls u v); [reflexivity |].
  rewrite !F. unfold withLoops.
  destruct (Z.eqb_spec u v) as [<- | Huv]; simpl andb.
  - rewrite Z.eqb_refl. simpl andb.
    destruct (Z.eqb_spec u (callSource c)) as [Es | Es],
             (Z.eqb_spec u (callDestination c)) as [Ed | Ed];
      simpl andb; simpl orb;
      destruct (named calls u); simpl;
      destruct (edgeEL g0 u u); reflexivity.
  - destruct ((u =? callSource c) && (v =? callDestination c));
      reflexivity.
Qed.



(** C5, as stated, fails: after [setEdge(0, 1, 5)] on an empty edge list
    no edge [0 -> 0] was ever set, yet [weight(0, 0)] is not
    [Infinity]. *)
Lemma unset_self_loop_is_finite :
  ~ (forall gEL,
        setEdgesEL [mkCall 0 1 (Some (Js.Num 5))] (EdgeList.create None)
        = Ret tt gEL ->
        (EdgeList.weight 0 0 gEL = Ret Js.PosInf gEL
         <-> ~ wasSet [mkCall 0 1 (Some (Js.Num 5))] 0 0)).
Proof.
  intros H. specialize (H _ eq_refl). destruct H as [_ H].
  assert (Hno : ~ wasSet [mkCall 0 1 (Some (Js.Num 5))] 0 0).
  { intros (c & [<- | []] & _ & Hd). discriminate. }
  apply H in Hno. vm_compute in Hno. discriminate.
Qed.

(** C5, amended.  After [setEdge] calls with non-negative indices, none
    of which passes [Infinity] as a weight, and for [u], [v] below
    [size()]: on the adjacency list, and on the adjacency matrix
    constructed without an initial size, [weight(u, v)] is [Infinity]
    exactly when no call set the edge [u -> v]; on the edge list it is
    [Infinity] exactly when no call set the edge and, if [u = v], no call
    named [u] as an endpoint either. *)
Theorem infinity_iff_unset calls :
  nonNegative calls -> finiteWeights calls ->
  exists gAL gAM0 gAM gEL,
    setEdgesAL calls (AdjacencyList.create None) = Ret tt gAL /\
    AdjacencyMatrix.create None = Ret tt gAM0 /\
    setEdgesAM calls gAM0 = Ret tt gAM /\
    setEdgesEL calls (EdgeList.create None) = Ret tt gEL /\
    forall u v,
      0 <= u < AdjacencyList.vertices gAL ->
      0 <= v < AdjacencyList.vertices gAL ->
      (AdjacencyList.weight u v gAL = Ret Js.PosInf gAL
       <-> ~ wasSet calls u v) /\
      (AdjacencyMatrix.weight u v gAM = Ret (Some Js.PosInf) gAM
       <-> ~ wasSet calls u v) /\
      (EdgeList.weight u v gEL = Ret Js.PosInf gEL
       <-> ~ wasSet calls u v /\ ~ (u = v /\ wasNamed calls u)).
Proof.
  intros Hnn Hfin.
  destruct (agree_run calls Hnn) as (gAL & gAM & gEL & EAL & EAM & EEL & Ag).
  exists gAL, blankAM, gAM, gEL.
  repeat (split; [assumption || reflexivity |]).
  pose proof (agree_sizeAM Ag) as HnAM.
  pose proof (agree_sizeEL Ag) as HnEL.
  intros u v Hu Hv.
  destruct (agree_finite Ag Hfin u v) as [HfAL HfEL].
  assert (HAL : weightOr (edgeAL gAL u v) = Js.PosInf <-> ~ wasSet calls u v).
  { rewrite <- (agree_setAL Ag).
    destruct (edgeAL gAL u v) as [w |]; simpl; split.
    - congruence.
    - intros H. exfalso. apply H. discriminate.
    - intros _ H. now apply H.
    - reflexivity. }
  split; [| split].
  - rewrite AdjacencyListFacts.al_weight_spec by lia.
    fold (weightOr (edgeAL gAL u v)). now rewrite ret_inj.
  - rewrite AdjacencyMatrixFacts.am_weight_spec
      by (try apply (agree_wf Ag); rewrite HnAM; lia).
    rewrite (agree_cells Ag) by lia.
    destruct (Z.leb_spec 0 v), (Z.ltb_spec v (AdjacencyList.vertices gAL));
      try lia. simpl andb. cbv iota.
    rewrite ret_inj, <- HAL. split; congruence.
  - rewrite EdgeListFacts.el_weight_spec by (rewrite HnEL; lia).
    fold (weightOr (edgeEL gEL u v)). rewrite ret_inj.
    assert (HEL : weightOr (edgeEL gEL u v) = Js.PosInf
                  <-> edgeEL gEL u v = None).
    { destruct (edgeEL gEL u v) as [w |]; simpl; split; congruence. }
    rewrite HEL.
    destruct (Z.eq_dec u v) as [<- | Huv].
    + pose proof (agree_loopEL Ag u) as Hloop.
      split.
      * intros Hnone. split.
        -- intros Hset. apply wasSet_named in Hset.
           destruct Hset as [Hnamed _]. apply Hloop in Hnamed. congruence.
        -- intros [_ Hnamed]. apply Hloop in Hnamed. congruence.
      * intros [_ Hnot].
        destruct (edgeEL gEL u u) eqn:E; [| reflexivity].
        exfalso. apply Hnot. split; [reflexivity |].
        apply Hloop. congruence.
    + pose proof (agree_setEL Ag Huv) as Hset.
      split.
      * intros Hnone. split; [| tauto].
        intros Hs. apply Hset in Hs. congruence.
      * intros [Hnot _].
        destruct (edgeEL gEL u v) eqn:E; [| reflexivity].
        exfalso. apply Hnot. apply Hset. congruence.
Qed.

Lemma infinity_iff_unset_witness :
  exists gAL gAM0 gAM gEL,
    setEdgesAL [mkCall 0 1 (Some (Js.Num 5)); mkCall 2 0 None]
               (AdjacencyList.create None) = Ret tt gAL /\
    AdjacencyMatrix.create None = Ret tt gAM0 /\
    setEdgesAM [mkCall 0 1 (Some (Js.Num 5)); mkCall 2 0 None] gAM0
    = Ret tt gAM /\
    setEdgesEL [mkCall 0 1 (Some (Js.Num 5)); mkCall 2 0 None]
               (EdgeList.create None) = Ret tt gEL /\
    forall u v,
      0 <= u < AdjacencyList.vertices gAL ->
      0 <= v < AdjacencyList.vertices gAL ->
      (AdjacencyList.weight u v gAL = Ret Js.PosInf gAL
       <-> ~ wasSet [mkCall 0 1 (Some (Js.Num 5)); mkCall 2 0 None] u v) /\
      (AdjacencyMatrix.weight u v gAM = Ret (Some Js.PosInf) gAM
       <-> ~ wasSet [mkCall 0 1 (Some (Js.Num 5)); mkCall 2 0 None] u v) /\
      (EdgeList.weight u v gEL = Ret Js.PosInf gEL
       <-> ~ wasSet [mkCall 0 1 (Some (Js.Num 5)); mkCall 2 0 None] u v /\
           ~ (u = v /\
              wasNamed [mkCall 0 1 (Some (Js.Num 5)); mkCall 2 0 None] u)).
Proof.
  apply (infinity_iff_unset
           [mkCall 0 1 (Some (Js.Num 5)); mkCall 2 0 None]).
  - intros c [<- | [<- | []]]; simpl; lia.
  - intros c [<- | [<- | []]]; simpl; discriminate.
Defined.

(** Every matrix reached from a constructor call by [setEdge] calls is
    well formed. *)
Lemma reachable_wellFormed calls : forall g0 g,
  wellFormedAM g0 -> setEdgesAM calls g0 = Ret tt g -> wellFormedAM g.
Proof.
  induction calls as [| c calls IH]; intros g0 g Wf.
  { simpl. unfold ret. now intros [= <-]. }
  unfold setEdgesAM. simpl forEach. unfold bind.
  destruct (Z.ltb_spec (callSource c) 0) as [Hs | Hs].
  { unfold AdjacencyMatrix.setEdge.
    destruct (Z.ltb_spec (callSource c) 0); [discriminate | lia]. }
  destruct (Z.ltb_spec (callDestination c) 0) as [Hd | Hd].
  { unfold AdjacencyMatrix.setEdge.
    destruct (Z.ltb_spec (callSource c) 0); [discriminate |].
    destruct (Z.ltb_spec (callDestination c) 0); [discriminate | lia]. }
  destruct (AdjacencyMatrixFacts.am_setEdge_spec
              (callSource c) (callDestination c) (callWeight c) g0 Hs Hd Wf)
    as (g1 & E & _ & Wf1 & _).
  rewrite E. now apply IH.
Qed.




(** C9.  In a matrix constructed with an initial vertex count [n >= 2]
    every slot references the same row array: after [setEdge(u, v, w)]
    with [u], [v] below [n], [weight(x, v)] returns [w] for every [x]
    below [n]. *)
Theorem matrix_rows_shared n u v x w :
  2 <= n -> 0 <= u < n -> 0 <= v < n -> 0 <= x < n ->
  exists g0 g1,
    AdjacencyMatrix.create (Some n) = Ret tt g0 /\
    AdjacencyMatrix.setEdge u v (Some w) g0 = Ret tt g1 /\
    AdjacencyMatrix.size g1 = Ret n g1 /\
    AdjacencyMatrix.weight x v g1 = Ret (Some w) g1.
Proof.
  intros Hn Hu Hv Hx.
  pose proof (AdjacencyMatrixFacts.create_sized n ltac:(lia)) as E0.
  set (g0 := AdjacencyMatrix.mk n (AdjacencyMatrix.filled n 0%nat)
                                [AdjacencyMatrix.filled n Js.PosInf]) in *.
  pose proof (AdjacencyMatrixFacts.create_wellFormed _ _ E0) as Wf.
  destruct (AdjacencyMatrixFacts.am_setEdge_spec u v (Some w) g0
              ltac:(lia) ltac:(lia) Wf)
    as (g1 & E1 & V1 & Wf1 & Same & Shared & _).
  simpl AdjacencyMatrix.vertices in V1, Same.
  specialize (Same ltac:(lia)).
  exists g0, g1. split; [exact E0 |]. split; [exact E1 |].
  assert (Hsize : AdjacencyMatrix.vertices g1 = n) by lia.
  split; [unfold AdjacencyMatrix.size, gets; now rewrite Hsize |].
  rewrite AdjacencyMatrixFacts.am_weight_spec by (try assumption; lia).
  assert (Hslot : forall k, 0 <= k < n -> slotAM g1 k = Some 0%nat).
  { intros k Hk. rewrite (AdjacencyMatrixFacts.sameShape_slot g0 g1 k Same).
    unfold slotAM, g0, AdjacencyMatrix.filled. simpl.
    apply JsFacts.get_repeat. lia. }
  rewrite (Shared x 0%nat (Hslot u Hu) (Hslot x Hx)). reflexivity.
Qed.

Lemma matrix_rows_shared_witness :
  exists g0 g1,
    AdjacencyMatrix.create (Some 3) = Ret tt g0 /\
    AdjacencyMatrix.setEdge 0 1 (Some (Js.Num 5)) g0 = Ret tt g1 /\
    AdjacencyMatrix.size g1 = Ret 3 g1 /\
    AdjacencyMatrix.weight 2 1 g1 = Ret (Some (Js.Num 5)) g1.
Proof. apply (matrix_rows_shared 3 0 1 2 (Js.Num 5)); lia. Defined.

End StorageFacts.

(** ** Dfs_TopSortStrategy *)

Module DfsTopSortFacts.

Import DfsTopSort TopSortInv.

Section Graph.
Variable g : DirectedGraph.
Hypothesis g_ok : wellFormed g.

Local Abbreviation n := (Z.to_nat (size g)).

Lemma edge_target u v : edge g u v -> 0 <= v < size g.
Proof.
  intros (Hu & ns & E & Hin).
  destruct (proj2 g_ok u Hu) as (ns' & E' & Hr).
  rewrite E in E'. injection E' as <-. now apply Hr.
Qed.

Lemma isVisited_eq v st :
  exists b, isVisited v st = Ret b st /\
            (b = true <-> Js.get (visited st) v = Some true).
Proof.
  unfold isVisited, gets.
  destruct (Js.get (visited st) v) as [[|] |]; eexists;
    (split; [reflexivity |]); split; congruence.
Qed.

(** A duplicate-free list of vertices has at most [size] elements. *)
Lemma bounded_length (l : list Z) :
  NoDup l -> (forall v, In v l -> 0 <= v < size g) ->
  (List.length l <= n)%nat.
Proof.
  intros Hnd Hr.
  assert (Hnd' : NoDup (map Z.to_nat l)).
  { clear g_ok. induction Hnd as [| x l Hx Hnd IH]; simpl.
    - constructor.
    - constructor.
      + intros Hin. apply in_map_iff in Hin.
        destruct Hin as (y & E & Hy).
        assert (0 <= x < size g) by (apply Hr; now left).
        assert (0 <= y < size g) by (apply Hr; now right).
        assert (y = x) by lia. subst y. contradiction.
      + apply IH. intros v Hv. apply Hr. now right. }
  assert (Hincl : incl (map Z.to_nat l) (seq 0 n)).
  { intros k Hk. apply in_map_iff in Hk. destruct Hk as (v & <- & Hv).
    apply Hr in Hv. apply in_seq. lia. }
  pose proof (NoDup_incl_length Hnd' Hincl) as H.
  rewrite length_map, length_seq in H. exact H.
Qed.

Lemma set_pending fin x :
  (List.length fin < n)%nat ->
  Js.set (pending g fin) (nextIndex g fin) (Some x) = pending g (x :: fin).
Proof.
  intros Hlt. unfold pending, nextIndex. simpl List.length.
  replace (n - List.length fin)%nat with (S (n - S (List.length fin)))
    by lia.
  generalize (n - S (List.length fin))%nat as k. intros k.
  replace (Z.of_nat (S k) - 1) with (Z.of_nat k) by lia.
  unfold Js.set. destruct (Z.ltb_spec (Z.of_nat k) 0); [lia |].
  rewrite Nat2Z.id.
  destruct (Nat.ltb_spec k
              (List.length (repeat (@None Z) (S k) ++ map Some fin)))
    as [_ | Hge].
  2:{ rewrite length_app, repeat_length in Hge. lia. }
  clear. induction k as [| k IH]; [reflexivity |].
  change (repeat (@None Z) (S (S k))) with (None :: repeat (@None Z) (S k)).
  simpl app. simpl Js.update. f_equal. exact IH.
Qed.

Lemma nextIndex_cons fin x :
  (List.length fin < n)%nat ->
  nextIndex g (x :: fin) = nextIndex g fin - 1.
Proof. intros H. unfold nextIndex. simpl List.length. lia. Qed.


Lemma topSort_eq fuel x c st :
  topSort (S fuel) g x c st
  = match neighbors g x with
    | None => Throw "Out of graph bound" st
    | Some ns =>
      bind (reduce (visit g fuel) ns c)
           (fun c' => bind (setOrder c' x) (fun _ => ret (c' - 1))) st
    end.
Proof. simpl. destruct (neighbors g x); reflexivity. Qed.

Lemma inv_mark st stk fin w :
  inv g st stk fin -> 0 <= w < size g ->
  Js.get (visited st) w <> Some true ->
  inv g (mk (Js.set (visited st) w (Some true)) (order st)) (w :: stk) fin.
Proof.
  intros I Hw Hnew. constructor; simpl.
  - intros v. rewrite JsFacts.get_set by lia.
    destruct (Z.eqb_spec v w) as [-> | Hne].
    + split; [intros _; left; now left | reflexivity].
    + rewrite (inv_vis I). split; [tauto |].
      intros [[E | H] | H]; [congruence | tauto | tauto].
  - constructor; [| apply (inv_nodup I)].
    intros Hin. apply Hnew. apply (inv_vis I).
    apply in_app_iff in Hin. exact Hin.
  - intros v [<- | Hin]; [assumption | now apply (inv_range I)].
  - apply (inv_topo I).
  - apply (inv_order I).
Qed.

(** The loop over the neighbours of [x]. *)
Lemma visitLoop_spec fuel x stk :
  sorts g fuel ->
  forall ns fin st,
    (forall w, In w ns -> edge g x w) ->
    inv g st (x :: stk) fin ->
    (forall y, In y (x :: stk) -> reaches g y x) ->
    (n < S fuel + List.length (x :: stk) + List.length fin)%nat ->
    exists st' pre,
      reduce (visit g fuel) ns (nextIndex g fin) st
      = Ret (nextIndex g (pre ++ fin)) st' /\
      inv g st' (x :: stk) (pre ++ fin) /\
      (acyclic g -> forall w, In w ns -> In w (pre ++ fin)).
Proof.
  intros Hsorts. induction ns as [| w ns IH]; intros fin st Hedges I Hreach Hfuel.
  { exists st, []. split; [reflexivity |]. split; [exact I |].
    intros _ w []. }
  assert (Hxw : edge g x w) by (apply Hedges; now left).
  pose proof (edge_target x w Hxw) as Hw.
  assert (Hrest : forall w', In w' ns -> edge g x w')
    by (intros w' Hw'; apply Hedges; now right).
  simpl reduce. unfold bind at 1. unfold visit at 1. unfold bind at 1.
  destruct (isVisited_eq w st) as (b & Eb & Hb). rewrite Eb.
  destruct b.
  - unfold ret at 1.
    destruct (IH fin st Hrest I Hreach Hfuel) as (st' & pre & E & I' & Hall).
    exists st', pre. split; [exact E |]. split; [exact I' |].
    intros Hac w' [<- | Hw']; [| now apply Hall].
    apply in_app_iff. right.
    destruct (proj1 (inv_vis I w) (proj1 Hb eq_refl)) as [Hstk | Hfin];
      [| assumption].
    exfalso. apply (Hac x w Hxw). now apply Hreach.
  - unfold bind at 1, markVisited, modify.
    assert (Hnew : Js.get (visited st) w <> Some true).
    { intros H. apply Hb in H. discriminate. }
    pose proof (inv_mark st (x :: stk) fin w I Hw Hnew) as I1.
    destruct (Hsorts w (x :: stk) fin _ I1) as (st2 & pre2 & E2 & I2).
    { intros y [<- | Hy]; [constructor |].
      apply reaches_step with (v := x); [now apply Hreach | assumption]. }
    { simpl List.length in *. lia. }
    rewrite E2.
    destruct (IH (w :: pre2 ++ fin) st2 Hrest I2 Hreach)
      as (st' & pre3 & E3 & I3 & Hall3).
    { simpl List.length in *. rewrite length_app. lia. }
    exists st', (pre3 ++ w :: pre2).
    rewrite <- app_assoc. simpl app.
    split; [exact E3 |]. split; [exact I3 |].
    intros Hac w' [<- | Hw']; [| now apply Hall3].
    apply in_app_iff. right. now left.
Qed.

Lemma topSort_spec fuel : sorts g fuel.
Proof.
  induction fuel as [| fuel IH]; intros x stk fin st I Hreach Hfuel.
  { pose proof (bounded_length _ (inv_nodup I) (inv_range I)) as Hb.
    rewrite length_app in Hb. simpl in *. lia. }
  assert (Hx : 0 <= x < size g)
    by (apply (inv_range I); now left).
  destruct (proj2 g_ok x Hx) as (ns & Ens & Hns).
  rewrite topSort_eq, Ens.
  destruct (visitLoop_spec fuel x stk IH ns fin st) as (st1 & pre & E1 & I1 & Hall);
    [| assumption | assumption | assumption |].
  { intros w Hw. split; [assumption |]. now exists ns. }
  unfold bind at 1. rewrite E1. unfold bind, setOrder, modify, ret.
  pose proof (bounded_length _ (inv_nodup I1) (inv_range I1)) as Hb.
  rewrite length_app in Hb. simpl List.length in Hb.
  exists (mk (visited st1)
             (Js.set (order st1) (nextIndex g (pre ++ fin)) (Some x))), pre.
  split.
  { rewrite nextIndex_cons by lia. reflexivity. }
  constructor; simpl.
  - intros v. rewrite (inv_vis I1). simpl. tauto.
  - apply (Permutation_NoDup (l := x :: stk ++ pre ++ fin)).
    + apply Permutation_middle.
    + exact (inv_nodup I1).
  - intros v Hv. apply (inv_range I1). apply in_app_iff in Hv.
    simpl in *. rewrite in_app_iff. tauto.
  - intros Hac. constructor; [apply (inv_topo I1 Hac) |].
    intros w (_ & ns' & Ens' & Hw). rewrite Ens in Ens'.
    injection Ens' as <-. now apply Hall.
  - rewrite (inv_order I1). apply set_pending. lia.
Qed.

(** The loop of [execute] over the vertices. *)
Lemma rootLoop_spec : forall vs fin st,
  (forall v, In v vs -> 0 <= v < size g) ->
  inv g st [] fin ->
  exists st' pre,
    reduce (visit g n) vs (nextIndex g fin) st
    = Ret (nextIndex g (pre ++ fin)) st' /\
    inv g st' [] (pre ++ fin) /\
    forall v, In v vs -> In v (pre ++ fin).
Proof.
  induction vs as [| v vs IH]; intros fin st Hvs I.
  { exists st, []. split; [reflexivity |]. split; [exact I |].
    intros v []. }
  assert (Hv : 0 <= v < size g) by (apply Hvs; now left).
  assert (Hrest : forall v', In v' vs -> 0 <= v' < size g)
    by (intros v' Hv'; apply Hvs; now right).
  simpl reduce. unfold bind at 1. unfold visit at 1. unfold bind at 1.
  destruct (isVisited_eq v st) as (b & Eb & Hb). rewrite Eb.
  destruct b.
  - assert (Hfin : In v fin).
    { destruct (proj1 (inv_vis I v) (proj1 Hb eq_refl)) as [[] | Hfin].
      assumption. }
    unfold ret at 1.
    destruct (IH fin st Hrest I) as (st' & pre & E & I' & Hall).
    exists st', pre. split; [exact E |]. split; [exact I' |].
    intros v' [<- | Hv']; [apply in_app_iff; now right | now apply Hall].
  - unfold bind at 1, markVisited, modify.
    assert (Hnew : Js.get (visited st) v <> Some true).
    { intros H. apply Hb in H. discriminate. }
    pose proof (inv_mark st [] fin v I Hv Hnew) as I1.
    destruct (topSort_spec n v [] fin _ I1) as (st2 & pre2 & E2 & I2).
    { intros y [<- | []]. constructor. }
    { simpl List.length. lia. }
    rewrite E2.
    destruct (IH (v :: pre2 ++ fin) st2 Hrest I2)
      as (st' & pre3 & E3 & I3 & Hall3).
    exists st', (pre3 ++ v :: pre2).
    rewrite <- app_assoc. simpl app.
    split; [exact E3 |]. split; [exact I3 |].
    intros v' [<- | Hv']; [| now apply Hall3].
    apply in_app_iff. right. now left.
Qed.


Lemma in_range lo hi v : In v (range lo hi) <-> lo <= v <= hi.
Proof.
  unfold range. rewrite in_map_iff. split.
  - intros (k & <- & Hk). apply in_seq in Hk. lia.
  - intros Hv. exists (Z.to_nat (v - lo)). split; [lia |].
    apply in_seq. lia.
Qed.

Lemma topo_in l u v : topo g l -> In u l -> edge g u v -> In v l.
Proof.
  induction 1 as [| x l Hl IH Hx]; intros Hu He; [destruct Hu |].
  destruct Hu as [<- | Hu]; right; [now apply Hx | now apply IH].
Qed.

Lemma topo_before l : topo g l -> NoDup l ->
  forall i j u v,
    nth_error l i = Some u -> nth_error l j = Some v -> edge g u v ->
    (i < j)%nat.
Proof.
  induction 1 as [| x l Hl IH Hx]; intros Hnd i j u v Hi Hj He.
  { destruct i; discriminate. }
  apply NoDup_cons_iff in Hnd. destruct Hnd as [Hnot Hnd].
  destruct i as [| i], j as [| j]; simpl in Hi, Hj.
  - injection Hi as <-. injection Hj as <-.
    exfalso. apply Hnot. now apply Hx.
  - lia.
  - injection Hj as <-. exfalso. apply Hnot.
    apply (topo_in l u x Hl); [| assumption].
    eapply nth_error_In; eassumption.
  - apply -> Nat.succ_lt_mono. eapply IH; eassumption.
Qed.

Lemma get_defined (l : list Z) i u :
  Js.get (map Some l) i = Some u
  <-> 0 <= i /\ nth_error l (Z.to_nat i) = Some u.
Proof.
  unfold Js.get. destruct (Z.ltb_spec i 0).
  - split; [discriminate | lia].
  - rewrite nth_error_map.
    destruct (nth_error l (Z.to_nat i)); simpl; split; try tauto;
      try discriminate; intros [_ H']; discriminate.
Qed.

(** The run of [execute]: it returns the placed vertices, all of them,
    each once, every vertex before its successors. *)
Lemma execute_spec :
  exists fin st,
    execute g = Ret (map Some fin) st /\
    List.length fin = n /\ NoDup fin /\ (acyclic g -> topo g fin) /\
    forall v, 0 <= v < size g -> In v fin.
Proof.
  pose proof (proj1 g_ok) as Hsize.
  set (start := mk (arrayOfLength (size g) (Some false))
                   (arrayOfLength (size g) None)).
  assert (I0 : inv g start [] []).
  { constructor; simpl.
    - intros v. unfold arrayOfLength. split; [| tauto].
      intros H. exfalso.
      destruct (Z.ltb_spec v 0).
      + rewrite JsFacts.get_neg in H by lia. discriminate.
      + destruct (Z.ltb_spec v (size g)).
        * rewrite JsFacts.get_repeat in H by lia. discriminate.
        * rewrite JsFacts.get_beyond in H
            by (unfold Js.length; rewrite repeat_length; lia).
          discriminate.
    - constructor.
    - intros v [].
    - intros _. constructor.
    - unfold pending, arrayOfLength. simpl.
      now rewrite Nat.sub_0_r, app_nil_r. }
  destruct (rootLoop_spec (range 0 (size g - 1)) [] start)
    as (st' & pre & E & I' & Hall); [| exact I0 |].
  { intros v Hv. apply in_range in Hv. lia. }
  rewrite app_nil_r in *.
  assert (Hstart : nextIndex g [] = size g - 1)
    by (unfold nextIndex; simpl; lia).
  rewrite Hstart in E.
  pose proof (inv_nodup I') as Hnd. simpl in Hnd.
  assert (Hlen : List.length pre = n).
  { apply Nat.le_antisymm.
    - apply bounded_length; [assumption |]. apply (inv_range I').
    - assert (Hincl : incl (map Z.of_nat (seq 0 n)) pre).
      { intros v Hv. apply in_map_iff in Hv.
        destruct Hv as (k & <- & Hk). apply in_seq in Hk.
        apply Hall. apply in_range. lia. }
      assert (Hnd' : NoDup (map Z.of_nat (seq 0 n))).
      { generalize 0%nat as a. generalize n as m.
        induction m as [| m IHm]; intros a; simpl; constructor.
        - intros Hin. apply in_map_iff in Hin.
          destruct Hin as (k & Ek & Hk). apply in_seq in Hk. lia.
        - apply IHm. }
      pose proof (NoDup_incl_length Hnd' Hincl) as H.
      now rewrite length_map, length_seq in H. }
  exists pre, st'. split.
  - unfold execute. fold start. unfold bind. fold (visit g n).
    change (reduce _ (range 0 (size g - 1)) (size g - 1) start)
      with (reduce (visit g n) (range 0 (size g - 1)) (size g - 1) start).
    rewrite E. unfold gets. rewrite (inv_order I').
    unfold pending. rewrite Hlen, Nat.sub_diag. reflexivity.
  - split; [assumption |]. split; [assumption |].
    split; [apply (inv_topo I') |].
    intros v Hv. apply Hall. apply in_range. lia.
Qed.

End Graph.

(** The runs of the test file. *)
Example execute_diamond :
  exists st,
    execute diamond = Ret [Some 0; Some 2; Some 1; Some 3; Some 4] st.
Proof. eexists. reflexivity. Qed.

Example execute_empty :
  exists st, execute (mkGraph 0 (fun _ => None)) = Ret [] st.
Proof. eexists. reflexivity. Qed.

Example execute_single :
  exists st, execute (mkGraph 1 (fun _ => Some [])) = Ret [Some 0] st.
Proof. eexists. reflexivity. Qed.

Lemma diamond_wellFormed : wellFormed diamond.
Proof.
  split; [simpl; lia |]. intros u Hu. simpl in Hu.
  assert (Hcases : u = 0 \/ u = 1 \/ u = 2 \/ u = 3 \/ u = 4) by lia.
  destruct Hcases as [-> | [-> | [-> | [-> | ->]]]]; simpl;
    eexists; (split; [reflexivity |]); simpl; intros v Hv;
    repeat (destruct Hv as [<- | Hv]; [lia |]); destruct Hv.
Qed.

Lemma diamond_increasing u v : edge diamond u v -> u < v.
Proof.
  intros (Hu & ns & E & Hv). simpl in Hu.
  assert (Hcases : u = 0 \/ u = 1 \/ u = 2 \/ u = 3 \/ u = 4) by lia.
  destruct Hcases as [-> | [-> | [-> | [-> | ->]]]]; simpl in E;
    injection E as <-;
    repeat (destruct Hv as [<- | Hv]; [lia |]); destruct Hv.
Qed.

Lemma diamond_acyclic : acyclic diamond.
Proof.
  intros u v He Hr. apply diamond_increasing in He.
  assert (v <= u); [| lia].
  clear He. induction Hr as [| a b c Hab IH Hbc]; [lia |].
  apply diamond_increasing in Hbc. lia.
Qed.

(** [execute] returns on every well-formed graph, cyclic or not, with a
    sequence of length [size()]. *)
Lemma execute_returns (g : DirectedGraph) :
  wellFormed g ->
  exists order st,
    execute g = Ret order st /\ Js.length order = size g.
Proof.
  intros Hwf.
  destruct (execute_spec g Hwf) as (fin & st & E & Hlen & _).
  exists (map Some fin), st. split; [exact E |].
  unfold Js.length. rewrite length_map, Hlen.
  destruct Hwf as [Hsize _]. lia.
Qed.

(** C7.  For every acyclic directed graph (whose [neighbors] answers, for
    each vertex, with vertices of the graph), [execute(graph)] returns a
    sequence of length [graph.size()] in which every vertex occurs, and
    for every edge [u -> v] every occurrence of [u] is before every
    occurrence of [v]. *)
Theorem dfs_topological_order (g : DirectedGraph) :
  wellFormed g -> acyclic g ->
  exists order st,
    execute g = Ret order st /\
    Js.length order = size g /\
    (forall u, 0 <= u < size g -> exists i, Js.get order i = Some u) /\
    (forall u v i j,
        edge g u v ->
        Js.get order i = Some u -> Js.get order j = Some v -> i < j).
Proof.
  intros Hwf Hac.
  destruct (execute_spec g Hwf) as (fin & st & E & Hlen & Hnd & Ht & Hall).
  specialize (Ht Hac).
  exists (map Some fin), st. split; [exact E |]. split; [| split].
  - unfold Js.length. rewrite length_map, Hlen.
    destruct Hwf as [Hsize _]. lia.
  - intros u Hu. apply Hall in Hu. apply In_nth_error in Hu.
    destruct Hu as [k Hk]. exists (Z.of_nat k).
    apply get_defined. rewrite Nat2Z.id. split; [lia | assumption].
  - intros u v i j He Hi Hj.
    apply get_defined in Hi, Hj. destruct Hi as [Hi0 Hi], Hj as [Hj0 Hj].
    pose proof (topo_before g fin Ht Hnd _ _ u v Hi Hj He). lia.
Qed.

Lemma dfs_topological_order_witness :
  exists order st,
    execute diamond = Ret order st /\
    Js.length order = size diamond /\
    (forall u, 0 <= u < size diamond ->
               exists i, Js.get order i = Some u) /\
    (forall u v i j,
        edge diamond u v ->
        Js.get order i = Some u -> Js.get order j = Some v -> i < j).
Proof.
  apply (dfs_topological_order diamond).
  - exact diamond_wellFormed.
  - exact diamond_acyclic.
Defined.

End DfsTopSortFacts.


(** ** More on the heap: contents, results and order of removal *)

Module HeapLaws.

Import DAryHeap Scenario HeapInv DAryHeapFacts.

Section Contents.
Variable T : Type.
Implicit Types (h : arr T).

Lemma set_inrange h i (v : option T) :
  0 <= i < Js.length h -> Js.set h i v = Js.update h (Z.to_nat i) v.
Proof.
  intros Hi. unfold Js.set, Js.length in *.
  destruct (Z.ltb_spec i 0); [lia |].
  destruct (Nat.ltb_spec (Z.to_nat i) (List.length h)); [reflexivity | lia].
Qed.

Lemma nth_get h (n : nat) :
  (n < List.length h)%nat ->
  nth_error h n = Some (Js.get h (Z.of_nat n)).
Proof.
  intros Hn. rewrite JsFacts.get_nat.
  destruct (nth_error h n) eqn:E; [reflexivity |].
  apply nth_error_None in E. lia.
Qed.

Lemma get_in h i x :
  Js.get h i = Some x -> 0 <= i < Js.length h.
Proof.
  intros H. destruct (Z.ltb_spec i 0).
  { rewrite JsFacts.get_neg in H by lia. discriminate. }
  destruct (Z.ltb_spec i (Js.length h)); [lia |].
  rewrite JsFacts.get_beyond in H by lia. discriminate.
Qed.

Lemma transpose_injective i j : Finite.Injective (transpose i j).
Proof.
  intros a b. unfold transpose.
  destruct (Nat.eqb_spec a j), (Nat.eqb_spec a i), (Nat.eqb_spec b j),
    (Nat.eqb_spec b i); lia.
Qed.

(** An exchange of two slots of the array permutes it. *)
Lemma exchange_permutation h i j :
  0 <= i < Js.length h -> 0 <= j < Js.length h ->
  Permutation h (exchange i j h).
Proof.
  intros Hi Hj. apply Permutation_nth_error. split.
  { pose proof (length_exchange T h i j Hi Hj) as L.
    unfold Js.length in L. lia. }
  exists (transpose (Z.to_nat i) (Z.to_nat j)).
  split; [apply transpose_injective |].
  intros n. unfold exchange.
  rewrite (set_inrange _ j) by (rewrite JsFacts.length_set by lia; lia).
  rewrite (set_inrange _ i) by lia.
  unfold Js.length in Hi, Hj.
  rewrite !JsFacts.nth_update by (rewrite ?JsFacts.length_update; lia).
  unfold transpose.
  destruct (Nat.eqb_spec n (Z.to_nat j)).
  - rewrite nth_get by lia. now rewrite Z2Nat.id by lia.
  - destruct (Nat.eqb_spec n (Z.to_nat i)); [| reflexivity].
    rewrite nth_get by lia. now rewrite Z2Nat.id by lia.
Qed.

Lemma last_get h :
  last h None = Js.get h (Js.length h - 1).
Proof.
  unfold Js.length. induction h as [| x t IH]; [reflexivity |].
  destruct t as [| y t].
  - reflexivity.
  - change (last (x :: y :: t) None) with (last (y :: t) None).
    rewrite IH. unfold Js.get. simpl List.length.
    destruct (Z.ltb_spec (Z.of_nat (S (List.length t)) - 1) 0); [lia |].
    destruct (Z.ltb_spec (Z.of_nat (S (S (List.length t))) - 1) 0); [lia |].
    replace (Z.to_nat (Z.of_nat (S (S (List.length t))) - 1))
      with (S (Z.to_nat (Z.of_nat (S (List.length t)) - 1))) by lia.
    reflexivity.
Qed.

(** [pop()] splits the array into its last element and the rest. *)
Lemma pop_permutation h :
  1 <= Js.length h ->
  Permutation h (Js.get h (Js.length h - 1) :: removelast h).
Proof.
  intros Hn. rewrite <- last_get.
  assert (Hne : h <> []) by (intros ->; unfold Js.length in Hn; simpl in Hn; lia).
  rewrite (app_removelast_last None Hne) at 1.
  symmetry. apply Permutation_cons_append.
Qed.
End Contents.

Section Moves.
Variable T : Type.
Variable d : Z.
Variable compare : T -> T -> Z.
Implicit Types (h : arr T).

(** Whenever [swimUp] returns, it has permuted the array, and the index
    it returns is where the value it started from now sits. *)
Lemma swimUp_rec_moves fuel : forall k h k' h',
  swimUp_rec d compare fuel k h = Ret k' h' ->
  Permutation h h' /\ Js.get h' k' = Js.get h k /\
  Js.length h' = Js.length h.
Proof.
  induction fuel as [| fuel IH]; intros k h k' h'; simpl swimUp_rec;
    (destruct (Z.eqb_spec k 0) as [-> | Hk0];
     [unfold ret; intros [= <- <-]; repeat split; reflexivity |]);
    [discriminate |].
  destruct (parentIndex d k) as [p | | |] eqn:EP;
    [| unfold bind, read, gets; destruct (Js.get h k); discriminate ..].
  unfold bind, read, gets.
  destruct (Js.get h k) as [x |] eqn:Ex; [| discriminate].
  destruct (Js.get h p) as [y |] eqn:Ey; [| discriminate].
  simpl. destruct (0 <? compare x y); simpl.
  - unfold swap, modify. intros E. apply IH in E.
    destruct E as (P & G & L).
    pose proof (get_in T h k x Ex) as Hk.
    pose proof (get_in T h p y Ey) as Hp.
    split; [| split].
    + eapply Permutation_trans; [| exact P].
      now apply exchange_permutation.
    + rewrite G, get_exchange, Z.eqb_refl by lia. congruence.
    + rewrite L. now apply length_exchange.
  - unfold ret. intros [= <- <-]. repeat split; auto.
Qed.

Lemma minValueChild_unchanged cs : forall acc h m h',
  minValueChild compare cs acc h = Ret m h' -> h' = h.
Proof.
  intros acc h m h' E.
  destruct (minValueChild_total T compare cs acc h)
    as [(m0 & E0 & _) | (msg & E0)]; congruence.
Qed.

(** The same for [sinkDown]. *)
Lemma sinkDown_rec_moves fuel : forall k h k' h',
  sinkDown_rec d compare fuel k h = Ret k' h' ->
  Permutation h h' /\ Js.get h' k' = Js.get h k /\
  Js.length h' = Js.length h.
Proof.
  induction fuel as [| fuel IH]; intros k h k' h'; simpl sinkDown_rec;
    unfold bind at 1; unfold childIndices, bind, size, gets, ret;
    fold (HeapInv.children d k h);
    (destruct (HeapInv.children d k h) as [| first rest] eqn:Ecs;
     [intros [= <- <-]; repeat split; reflexivity |]);
    (destruct (minValueChild_total T compare (first :: rest) first h)
       as [(m & E & Hin) | (msg & E)];
     [| rewrite E; discriminate]);
    rewrite E; unfold read, gets;
    (destruct (Js.get h k) as [x |] eqn:Ex; [| discriminate]);
    (destruct (Js.get h m) as [y |] eqn:Ey; [| discriminate]);
    simpl;
    (destruct (0 <? compare x y);
     [intros [= <- <-]; repeat split; auto |]);
    [discriminate |].
  unfold swap, modify. intros E'. apply IH in E'.
  destruct E' as (P & G & L).
  pose proof (get_in T h k x Ex) as Hk.
  pose proof (get_in T h m y Ey) as Hm.
  split; [| split].
  - eapply Permutation_trans; [| exact P].
    now apply exchange_permutation.
  - rewrite G, get_exchange, Z.eqb_refl by lia. congruence.
  - rewrite L. now apply length_exchange.
Qed.

Lemma swimUp_moves k h k' h' :
  swimUp d compare k h = Ret k' h' ->
  Permutation h h' /\ Js.get h' k' = Js.get h k /\
  Js.length h' = Js.length h.
Proof. apply swimUp_rec_moves. Qed.

Lemma sinkDown_moves k h k' h' :
  sinkDown d compare k h = Ret k' h' ->
  Permutation h h' /\ Js.get h' k' = Js.get h k /\
  Js.length h' = Js.length h.
Proof. unfold sinkDown, bind, size, gets. apply sinkDown_rec_moves. Qed.

End Moves.

Section Laws.
Variable T : Type.
Variable d : Z.
Variable compare : T -> T -> Z.
Hypothesis d_pos : 1 <= d.
Hypothesis compare_ok : consistent compare.
Implicit Types (h : arr T).

(** In an ordered heap the root ranks at or above every slot: follow the
    parents up from the slot. *)
Lemma root_above h :
  good d compare h ->
  forall i, 0 <= i < Js.length h -> above compare h 0 i.
Proof.
  intros [D O].
  assert (H : forall (n : nat) i, (Z.to_nat i <= n)%nat ->
                0 <= i < Js.length h -> above compare h 0 i).
  { induction n as [| n IH]; intros i Hn Hi.
    - replace i with 0 by lia.
      apply (above_refl T compare compare_ok h 0 D). lia.
    - destruct (Z.eq_dec i 0) as [-> | Hne].
      + apply (above_refl T compare compare_ok h 0 D). lia.
      + pose proof (parent_bounds d d_pos i ltac:(lia)) as Hp.
        apply (above_trans T compare compare_ok h h h 0 (parent d i) i).
        * apply IH; lia.
        * apply O; lia. }
  intros i Hi. apply (H (Z.to_nat i)); [lia | assumption].
Qed.

Lemma root_first h r y :
  good d compare h -> Js.get h 0 = Some r -> In (Some y) h ->
  0 <= compare r y.
Proof.
  intros G Hr Hy. apply In_nth_error in Hy. destruct Hy as [n Hn].
  assert (Hlt : (n < List.length h)%nat)
    by (apply nth_error_Some; congruence).
  rewrite nth_get in Hn by assumption. injection Hn as Hn.
  pose proof (root_above h G (Z.of_nat n)) as A.
  unfold above, ranksAtOrAbove in A. rewrite Hr, Hn in A.
  apply A. unfold Js.length. lia.
Qed.

Lemma insert_effect v h :
  good d compare h ->
  exists k h', insert d compare v h = Ret k h' /\
    Js.get h' k = Some v /\ Permutation (Js.push h v) h' /\
    Js.length h' = Js.length h + 1 /\ good d compare h'.
Proof.
  intros G.
  destruct (insert_good T d compare d_pos compare_ok v h G)
    as (k & h' & E & G').
  exists k, h'. split; [exact E |].
  assert (E0 : insert d compare v h
               = swimUp d compare (Js.length h) (Js.push h v)).
  { unfold insert, bind, modify, size, gets. rewrite length_push.
    f_equal. lia. }
  rewrite E0 in E. apply swimUp_moves in E. destruct E as (P & Gk & L).
  rewrite get_push, Z.eqb_refl in Gk. rewrite length_push in L.
  repeat split; try assumption; apply G'.
Qed.

Lemma poll_eq h :
  Js.length h <> 0 ->
  poll d compare h
  = (_ <- sinkDown d compare 0 ;;
     ret (last (exchange 0 (Js.length h - 1) h) None))%eff
      (removelast (exchange 0 (Js.length h - 1) h)).
Proof.
  intros Hn. unfold poll, bind at 1, size, gets.
  destruct (Z.eqb_spec (Js.length h) 0); [contradiction | reflexivity].
Qed.

(** What [swap(k, n - 1)] followed by [pop()] does to the contents. *)
Lemma removed_permutation k h :
  0 <= k < Js.length h ->
  last (exchange k (Js.length h - 1) h) None = Js.get h k /\
  Permutation h
    (Js.get h k :: removelast (exchange k (Js.length h - 1) h)).
Proof.
  intros Hk.
  assert (L : Js.length (exchange k (Js.length h - 1) h) = Js.length h)
    by (apply length_exchange; lia).
  assert (E : Js.get (exchange k (Js.length h - 1) h) (Js.length h - 1)
              = Js.get h k)
    by (rewrite get_exchange, Z.eqb_refl by lia; reflexivity).
  pose proof (exchange_permutation T h k (Js.length h - 1)
                ltac:(lia) ltac:(lia)) as P.
  set (h1 := exchange k (Js.length h - 1) h) in *.
  split.
  - rewrite last_get, L. exact E.
  - rewrite <- E, <- L.
    apply (Permutation_trans P). apply pop_permutation. lia.
Qed.

Lemma poll_effect h :
  good d compare h -> 1 <= Js.length h ->
  exists r h', poll d compare h = Ret (Some r) h' /\
    Js.get h 0 = Some r /\ Permutation h (Some r :: h') /\
    Js.length h' = Js.length h - 1 /\ good d compare h'.
Proof.
  intros G Hn. pose proof G as [D O].
  destruct (dense_get T h 0 D ltac:(lia)) as [r Hr].
  destruct (poll_good T d compare d_pos compare_ok h G)
    as (v & h' & E & G').
  destruct (removed_permutation 0 h ltac:(lia)) as [EL P].
  pose proof E as E'. rewrite poll_eq in E' by lia. unfold bind in E'.
  destruct (sinkDown d compare 0
              (removelast (exchange 0 (Js.length h - 1) h)))
    as [k1 h1 | msg h1 |] eqn:E1; try discriminate.
  unfold ret in E'. rewrite EL, Hr in E'. injection E' as <- <-.
  apply sinkDown_moves in E1. destruct E1 as (P1 & _ & L1).
  exists r, h1. rewrite Hr in P.
  split; [exact E |]. split; [exact Hr |]. split; [| split].
  - eapply Permutation_trans; [exact P |]. now constructor.
  - rewrite L1, JsFacts.length_removelast, length_exchange by lia. lia.
  - exact G'.
Qed.

(** Polling a heap until it is empty returns its contents, best first. *)
Lemma pollAll_sorted (n : nat) : forall h,
  good d compare h -> Js.length h = Z.of_nat n ->
  exists xs, pollAll d compare n h = Ret (map Some xs) [] /\
    Permutation h (map Some xs) /\ sortedBy compare xs.
Proof.
  induction n as [| n IH]; intros h G Hn.
  { exists []. destruct h; [| unfold Js.length in Hn; simpl in Hn; lia].
    repeat split; constructor. }
  destruct (poll_effect h G ltac:(lia)) as (r & h1 & E & Hr & P & L & G1).
  destruct (IH h1 G1 ltac:(lia)) as (xs & E1 & P1 & S1).
  exists (r :: xs). simpl pollAll. unfold bind at 1. rewrite E.
  unfold bind at 1. rewrite E1. split; [reflexivity |]. split.
  - eapply Permutation_trans; [exact P |]. simpl. now constructor.
  - constructor; [exact S1 |].
    apply Forall_forall. intros y Hy.
    apply (root_first h r y G Hr).
    eapply Permutation_in; [symmetry; exact P |].
    right. eapply Permutation_in; [symmetry; exact P1 |].
    now apply in_map.
Qed.

Lemma removeAtIndex_effect k h :
  good d compare h -> 0 <= k < Js.length h - 1 ->
  exists h', removeAtIndex d compare k h = Ret tt h' /\
    Permutation h (Js.get h k :: h') /\
    Js.length h' = Js.length h - 1 /\ good d compare h'.
Proof.
  intros G Hk. rewrite removeAtIndex_eq.
  destruct (removed_permutation k h ltac:(lia)) as [_ P].
  set (h2 := removelast (exchange k (Js.length h - 1) h)) in *.
  destruct (swimUp_hole T d compare d_pos compare_ok k h2)
    as (k1 & h3 & E1 & L1 & I1).
  { apply removed_hole; assumption. }
  destruct (sinkDown_ordered T d compare d_pos compare_ok 0 k h3 I1)
    as (k2 & h4 & E2 & D2 & L2 & O2).
  exists h4. unfold bind at 1. rewrite E1. unfold bind at 1. rewrite E2.
  split; [reflexivity |].
  apply swimUp_moves in E1. destruct E1 as (P1 & _ & _).
  apply sinkDown_moves in E2. destruct E2 as (P2 & _ & _).
  split; [| split; [| split; assumption]].
  - eapply Permutation_trans; [exact P |]. constructor.
    eapply Permutation_trans; eassumption.
  - rewrite L2, L1. unfold h2. now apply removed_length.
Qed.

Lemma heapifyLoop_permutation count : forall i h h',
  heapifyLoop d compare count i h = Ret tt h' -> Permutation h h'.
Proof.
  induction count as [| count IH]; intros i h h'; simpl heapifyLoop.
  { unfold ret. now intros [= <-]. }
  unfold bind at 1.
  destruct (sinkDown d compare i h) as [k1 h1 | msg h1 |] eqn:E1;
    try discriminate.
  intros E. apply IH in E. apply sinkDown_moves in E1.
  eapply Permutation_trans; [apply E1 | exact E].
Qed.

Lemma heapify_effect (vs : list T) h :
  exists h', heapify d compare vs h = Ret tt h' /\
    Permutation (Js.ofList vs) h' /\ good d compare h'.
Proof.
  destruct (heapify_good T d compare d_pos compare_ok vs h)
    as (h' & E & G').
  exists h'. split; [exact E |]. split; [| exact G'].
  unfold heapify, bind at 1, modify in E.
  unfold bind at 1, size, gets in E.
  rewrite (parentIndex_pos d d_pos) in E.
  now apply heapifyLoop_permutation in E.
Qed.

End Laws.

Section Search.
Variable T : Type.
Implicit Types (h : arr T).

Lemma get_cons (x : option T) h j :
  0 <= j -> Js.get (x :: h) j = if j =? 0 then x else Js.get h (j - 1).
Proof.
  intros Hj. unfold Js.get.
  destruct (Z.ltb_spec j 0); [lia |].
  destruct (Z.eqb_spec j 0) as [-> | Hne]; [reflexivity |].
  destruct (Z.ltb_spec (j - 1) 0); [lia |].
  replace (Z.to_nat j) with (S (Z.to_nat (j - 1))) by lia. reflexivity.
Qed.

Lemma length_cons (x : option T) h : Js.length (x :: h) = Js.length h + 1.
Proof. unfold Js.length. simpl List.length. lia. Qed.

(** The scan from slot [i0] stops at the first slot the callback
    accepts. *)
Lemma findIndexFrom_spec (cmp : T -> option T -> bool) value :
  forall h i0 r,
    findIndexFrom cmp value i0 h = r ->
    (r = -1 /\
     forall j, 0 <= j < Js.length h -> cmp value (Js.get h j) = false) \/
    (i0 <= r < i0 + Js.length h /\
     cmp value (Js.get h (r - i0)) = true /\
     forall j, 0 <= j < r - i0 -> cmp value (Js.get h j) = false).
Proof.
  induction h as [| x t IH]; intros i0 r; simpl findIndexFrom.
  { intros <-. left. split; [reflexivity |].
    intros j Hj. unfold Js.length in Hj. simpl in Hj. lia. }
  pose proof (JsFacts.length_nonneg t) as Hn.
  rewrite length_cons.
  destruct (cmp value x) eqn:Ex.
  - intros <-. right. split; [lia |]. rewrite Z.sub_diag. split.
    + rewrite get_cons by lia. exact Ex.
    + intros j Hj. lia.
  - intros E. destruct (IH (i0 + 1) r E) as [[E1 F] | (R & C & F)].
    + left. split; [exact E1 |]. intros j Hj. rewrite get_cons by lia.
      destruct (Z.eqb_spec j 0); [exact Ex | apply F; lia].
    + right. split; [lia |]. split.
      * rewrite get_cons by lia.
        destruct (Z.eqb_spec (r - i0) 0); [lia |].
        replace (r - i0 - 1) with (r - (i0 + 1)) by lia. exact C.
      * intros j Hj. rewrite get_cons by lia.
        destruct (Z.eqb_spec j 0); [exact Ex | apply F; lia].
Qed.
End Search.

Section Returns.
Variable T : Type.
Variable d : Z.
Variable compare : T -> T -> Z.
Implicit Types (h : arr T).

Lemma remove_eq value (cmp : T -> option T -> bool) h :
  remove d compare value cmp h
  = removeAtIndex d compare (findIndexFrom cmp value 0 h) h.
Proof. reflexivity. Qed.

Lemma removeAtIndex_last k h :
  1 <= k -> k = Js.length h - 1 ->
  removeAtIndex d compare k h
  = Throw "Invalid inputs" (removelast (exchange k k h)).
Proof.
  intros Hk Ek. rewrite removeAtIndex_eq. rewrite <- Ek.
  assert (L2 : Js.length (removelast (exchange k k h)) = k).
  { rewrite Ek at 2. apply removed_past_length; lia. }
  unfold bind at 1.
  rewrite swimUp_undefined by (try lia; apply JsFacts.get_beyond; lia).
  reflexivity.
Qed.

Lemma heapifyLoop_returns count : forall i h,
  heapifyLoop d compare count i h <> Diverge.
Proof.
  induction count as [| count IH]; intros i h; simpl heapifyLoop;
    [discriminate |].
  unfold bind at 1.
  destruct (sinkDown d compare i h) as [k1 h1 | msg h1 |] eqn:E;
    [apply IH | discriminate |].
  exfalso. exact (sinkDown_returns T d compare i h E).
Qed.

Lemma insert_returns v h : insert d compare v h <> Diverge.
Proof. unfold insert, bind, modify, size, gets. apply swimUp_returns. Qed.

Lemma poll_returns h : poll d compare h <> Diverge.
Proof.
  destruct (Z.eq_dec (Js.length h) 0) as [E0 | E0].
  { unfold poll, bind at 1, size, gets. rewrite E0. discriminate. }
  rewrite poll_eq by assumption. unfold bind.
  destruct (sinkDown d compare 0 _) as [k1 h1 | msg h1 |] eqn:E;
    [discriminate | discriminate |].
  exfalso. exact (sinkDown_returns T d compare _ _ E).
Qed.

Lemma removeAtIndex_returns k h : removeAtIndex d compare k h <> Diverge.
Proof.
  rewrite removeAtIndex_eq. unfold bind at 1.
  destruct (swimUp d compare k _) as [k1 h1 | msg h1 |] eqn:E1;
    [| discriminate | exfalso; exact (swimUp_returns T d compare _ _ E1)].
  unfold bind at 1.
  destruct (sinkDown d compare k h1) as [k2 h2 | msg h2 |] eqn:E2;
    [discriminate | discriminate |].
  exfalso. exact (sinkDown_returns T d compare _ _ E2).
Qed.

Lemma heapify_returns (vs : list T) h :
  d <> 0 -> heapify d compare vs h <> Diverge.
Proof.
  intros Hd. unfold heapify, bind at 1, modify.
  unfold bind at 1, size, gets. unfold parentIndex.
  destruct (Z.eqb_spec d 0); [contradiction |].
  apply heapifyLoop_returns.
Qed.

Lemma insert_zero (v : T) h :
  1 <= Js.length h ->
  insert 0 compare v h = Throw "Invalid inputs" (Js.push h v).
Proof.
  intros Hn.
  assert (E0 : insert 0 compare v h
               = swimUp 0 compare (Js.length h) (Js.push h v)).
  { unfold insert, bind, modify, size, gets. rewrite length_push.
    f_equal. lia. }
  rewrite E0. unfold swimUp. simpl swimUp_rec.
  destruct (Z.eqb_spec (Js.length h) 0); [lia |].
  unfold parentIndex. simpl (0 =? 0).
  destruct (Js.length h - 1 =? 0), (0 <? Js.length h - 1);
    unfold bind, read, gets; rewrite get_push, Z.eqb_refl; reflexivity.
Qed.

Lemma heapify_zero (vs : list T) h :
  (3 <= List.length vs)%nat -> heapify 0 compare vs h = Diverge.
Proof.
  intros Hn. unfold heapify, bind, modify, size, gets, parentIndex.
  simpl (0 =? 0).
  assert (L : Js.length (Js.ofList vs) = Z.of_nat (List.length vs))
    by (unfold Js.length, Js.ofList; now rewrite length_map).
  rewrite L.
  destruct (Z.eqb_spec (Z.of_nat (List.length vs) - 1 - 1) 0); [lia |].
  destruct (Z.ltb_spec 0 (Z.of_nat (List.length vs) - 1 - 1)); [| lia].
  reflexivity.
Qed.

End Returns.

Lemma good_iff (T : Type) (d : Z) (compare : T -> T -> Z) (h : arr T) :
  1 <= d ->
  good d compare h <-> Js.dense h /\ heapOrdered d compare h.
Proof.
  intros Hd. unfold good.
  pose proof (heapOrdered_iff T d compare Hd h). tauto.
Qed.

(** A small ordered heap, for instances of the laws. *)
Lemma sample_good :
  good 2 defaultLessThanCompare [Some 1; Some 2; Some 3].
Proof.
  destruct (heapify_good Z 2 defaultLessThanCompare ltac:(lia)
              consistent_default [1; 2; 3] []) as (h' & E & G).
  vm_compute in E. injection E as <-. exact G.
Qed.

Lemma sample_dense : Js.dense [Some 1; Some 2; Some 3].
Proof. apply sample_good. Qed.

Lemma sample_ordered :
  heapOrdered 2 defaultLessThanCompare [Some 1; Some 2; Some 3].
Proof. apply (good_iff Z 2); [lia | exact sample_good]. Qed.

Lemma map_some_inj (T : Type) (a : list T) : forall b,
  map Some a = map Some b -> a = b.
Proof.
  induction a as [| x a IH]; intros [| y b] E; simpl in E;
    try discriminate; [reflexivity |].
  injection E as -> E. f_equal. now apply IH.
Qed.

Lemma permutation_some (T : Type) (a b : list T) :
  Permutation (map Some a) (map Some b) -> Permutation a b.
Proof.
  intros P. apply Permutation_map_inv in P.
  destruct P as (c & E & P). apply map_some_inj in E. subst c.
  now symmetry.
Qed.

(** *** Laws of the public operations *)

(** X1.  [insert(v)] on a dense, ordered heap with [d >= 1] and a
    consistent comparator returns normally; the index it returns is the
    slot where [v] now sits, the new array is a permutation of the old one
    with [v] appended, and it is again dense and ordered. *)
Theorem insert_places_value (T : Type) (d : Z) (compare : T -> T -> Z)
        (v : T) (h : arr T) :
  1 <= d -> consistent compare ->
  Js.dense h -> heapOrdered d compare h ->
  exists k h',
    insert d compare v h = Ret k h' /\
    Js.get h' k = Some v /\
    Permutation (Js.push h v) h' /\
    Js.length h' = Js.length h + 1 /\
    Js.dense h' /\ heapOrdered d compare h'.
Proof.
  intros Hd Hc D O.
  destruct (insert_effect T d compare Hd Hc v h)
    as (k & h' & E & Gk & P & L & G').
  { apply good_iff; [assumption | now split]. }
  apply good_iff in G'; [| assumption].
  exists k, h'. tauto.
Qed.

Lemma insert_places_value_witness :
  exists k h',
    insert 2 defaultLessThanCompare 0 [Some 1; Some 2; Some 3]
    = Ret k h' /\
    Js.get h' k = Some 0 /\
    Permutation (Js.push [Some 1; Some 2; Some 3] 0) h' /\
    Js.length h' = Js.length [Some 1; Some 2; Some 3] + 1 /\
    Js.dense h' /\ heapOrdered 2 defaultLessThanCompare h'.
Proof.
  apply (insert_places_value Z 2 defaultLessThanCompare 0
           [Some 1; Some 2; Some 3]).
  - lia.
  - exact consistent_default.
  - exact sample_dense.
  - exact sample_ordered.
Defined.

(** X2.  [poll()] on an empty heap returns [undefined] and changes
    nothing; on a non-empty dense, ordered heap it returns the root
    [heap[0]], and what is left is the old contents without one copy of
    the root, one shorter, dense and ordered. *)
Theorem poll_takes_root (T : Type) (d : Z) (compare : T -> T -> Z)
        (h : arr T) :
  1 <= d -> consistent compare ->
  Js.dense h -> heapOrdered d compare h ->
  (Js.length h = 0 -> poll d compare h = Ret None h) /\
  (1 <= Js.length h ->
   exists r h',
     poll d compare h = Ret (Some r) h' /\
     Js.get h 0 = Some r /\
     Permutation h (Some r :: h') /\
     Js.length h' = Js.length h - 1 /\
     Js.dense h' /\ heapOrdered d compare h').
Proof.
  intros Hd Hc D O. split.
  - intros E0. unfold poll, bind at 1, size, gets. now rewrite E0.
  - intros Hn.
    destruct (poll_effect T d compare Hd Hc h)
      as (r & h' & E & Hr & P & L & G'); [| assumption |].
    { apply good_iff; [assumption | now split]. }
    apply good_iff in G'; [| assumption].
    exists r, h'. tauto.
Qed.

Lemma poll_takes_root_witness :
  (Js.length [Some 1; Some 2; Some 3] = 0 ->
   poll 2 defaultLessThanCompare [Some 1; Some 2; Some 3]
   = Ret None [Some 1; Some 2; Some 3]) /\
  (1 <= Js.length [Some 1; Some 2; Some 3] ->
   exists r h',
     poll 2 defaultLessThanCompare [Some 1; Some 2; Some 3]
     = Ret (Some r) h' /\
     Js.get [Some 1; Some 2; Some 3] 0 = Some r /\
     Permutation [Some 1; Some 2; Some 3] (Some r :: h') /\
     Js.length h' = Js.length [Some 1; Some 2; Some 3] - 1 /\
     Js.dense h' /\ heapOrdered 2 defaultLessThanCompare h').
Proof.
  apply (poll_takes_root Z 2 defaultLessThanCompare
           [Some 1; Some 2; Some 3]).
  - lia.
  - exact consistent_default.
  - exact sample_dense.
  - exact sample_ordered.
Defined.

(** X3.  On a dense, ordered heap the value [peek()] returns ranks at or
    above every element of the heap: [compare(root, y) >= 0]. *)
Theorem peek_ranks_first (T : Type) (d : Z) (compare : T -> T -> Z)
        (h : arr T) (r y : T) :
  1 <= d -> consistent compare ->
  Js.dense h -> heapOrdered d compare h ->
  peek h = Ret (Some r) h -> In (Some y) h ->
  0 <= compare r y.
Proof.
  intros Hd Hc D O E Hy.
  unfold peek, read, gets in E. injection E as Hr.
  apply (root_first T d compare Hd Hc h r y); try assumption.
  apply good_iff; [assumption | now split].
Qed.

Lemma peek_ranks_first_witness : 0 <= defaultLessThanCompare 1 3.
Proof.
  apply (peek_ranks_first Z 2 defaultLessThanCompare
           [Some 1; Some 2; Some 3] 1 3).
  - lia.
  - exact consistent_default.
  - exact sample_dense.
  - exact sample_ordered.
  - reflexivity.
  - simpl. tauto.
Defined.

(** X4.  Calling [poll()] as many times as a dense, ordered heap has
    elements returns all of them, each exactly as often as it was stored,
    in an order in which every value ranks at or above all later ones, and
    leaves the heap empty. *)
Theorem poll_until_empty_sorted (T : Type) (d : Z) (compare : T -> T -> Z)
        (h : arr T) :
  1 <= d -> consistent compare ->
  Js.dense h -> heapOrdered d compare h ->
  exists xs,
    pollAll d compare (List.length h) h = Ret (map Some xs) [] /\
    Permutation h (map Some xs) /\
    sortedBy compare xs.
Proof.
  intros Hd Hc D O.
  apply (pollAll_sorted T d compare Hd Hc (List.length h) h);
    [| reflexivity].
  apply good_iff; [assumption | now split].
Qed.

Lemma poll_until_empty_sorted_witness :
  exists xs,
    pollAll 2 defaultLessThanCompare 3 [Some 1; Some 2; Some 3]
    = Ret (map Some xs) [] /\
    Permutation [Some 1; Some 2; Some 3] (map Some xs) /\
    sortedBy defaultLessThanCompare xs.
Proof.
  apply (poll_until_empty_sorted Z 2 defaultLessThanCompare
           [Some 1; Some 2; Some 3]).
  - lia.
  - exact consistent_default.
  - exact sample_dense.
  - exact sample_ordered.
Defined.

(** X5.  [heapify(values)] with [d >= 1] and a consistent comparator
    returns normally whatever the heap held before; the new heap holds
    exactly the given values, each as often as given, and is dense and
    ordered. *)
Theorem heapify_keeps_values (T : Type) (d : Z) (compare : T -> T -> Z)
        (values : list T) (h : arr T) :
  1 <= d -> consistent compare ->
  exists h',
    heapify d compare values h = Ret tt h' /\
    Permutation (Js.ofList values) h' /\
    Js.dense h' /\ heapOrdered d compare h'.
Proof.
  intros Hd Hc.
  destruct (heapify_effect T d compare Hd Hc values h)
    as (h' & E & P & G').
  apply good_iff in G'; [| assumption].
  exists h'. tauto.
Qed.

Lemma heapify_keeps_values_witness :
  exists h',
    heapify 2 defaultLessThanCompare [3; 1; 2] [Some 7] = Ret tt h' /\
    Permutation (Js.ofList [3; 1; 2]) h' /\
    Js.dense h' /\ heapOrdered 2 defaultLessThanCompare h'.
Proof.
  apply (heapify_keeps_values Z 2 defaultLessThanCompare [3; 1; 2]
           [Some 7]).
  - lia.
  - exact consistent_default.
Defined.

(** X6.  Heap sort: [new DAryHeap(d, values, compare)] with [d >= 1] and
    a consistent comparator, polled as many times as there are values,
    returns a rearrangement of the values in which every value ranks at or
    above all later ones. *)
Theorem constructor_then_poll_sorts (T : Type)
        (defaultCompare compare : T -> T -> Z) (d : Z) (values : list T) :
  1 <= d -> consistent compare ->
  exists obj xs,
    constructor defaultCompare d (Some (Values values)) (Some compare)
    = Ret tt obj /\
    pollAll (DAryHeap.d obj) (lessThanCompare obj) (List.length values)
            (heap obj)
    = Ret (map Some xs) [] /\
    Permutation values xs /\ sortedBy compare xs.
Proof.
  intros Hd Hc.
  destruct (heapify_effect T d compare Hd Hc values [])
    as (h' & E & P & G').
  assert (L : Js.length h' = Z.of_nat (List.length values)).
  { apply Permutation_length in P. unfold Js.ofList in P.
    rewrite length_map in P. unfold Js.length. now rewrite <- P. }
  destruct (pollAll_sorted T d compare Hd Hc (List.length values) h' G' L)
    as (xs & E1 & P1 & S1).
  exists (mk d h' compare), xs. unfold constructor. rewrite E.
  split; [reflexivity |]. split; [exact E1 |]. split; [| exact S1].
  apply permutation_some. exact (Permutation_trans P P1).
Qed.

Lemma constructor_then_poll_sorts_witness :
  exists obj xs,
    constructor defaultLessThanCompare 3 (Some (Values [5; 3; 8; 1; 9]))
                (Some defaultLessThanCompare)
    = Ret tt obj /\
    pollAll (DAryHeap.d obj) (lessThanCompare obj) 5 (heap obj)
    = Ret (map Some xs) [] /\
    Permutation [5; 3; 8; 1; 9] xs /\
    sortedBy defaultLessThanCompare xs.
Proof.
  apply (constructor_then_poll_sorts Z defaultLessThanCompare
           defaultLessThanCompare 3 [5; 3; 8; 1; 9]).
  - lia.
  - exact consistent_default.
Defined.

(** X7.  [removeAtIndex(k)] for a slot [k] below the last one of a dense,
    ordered heap returns normally and removes exactly the element of slot
    [k]: what is left, one shorter, together with that element is a
    permutation of the old contents, and it is dense and ordered. *)
Theorem removeAtIndex_drops_slot (T : Type) (d : Z)
        (compare : T -> T -> Z) (k : Z) (h : arr T) :
  1 <= d -> consistent compare ->
  Js.dense h -> heapOrdered d compare h ->
  0 <= k < Js.length h - 1 ->
  exists h',
    removeAtIndex d compare k h = Ret tt h' /\
    Permutation h (Js.get h k :: h') /\
    Js.length h' = Js.length h - 1 /\
    Js.dense h' /\ heapOrdered d compare h'.
Proof.
  intros Hd Hc D O Hk.
  destruct (removeAtIndex_effect T d compare Hd Hc k h)
    as (h' & E & P & L & G'); [| assumption |].
  { apply good_iff; [assumption | now split]. }
  apply good_iff in G'; [| assumption].
  exists h'. tauto.
Qed.

Lemma removeAtIndex_drops_slot_witness :
  exists h',
    removeAtIndex 2 defaultLessThanCompare 0 [Some 1; Some 2; Some 3]
    = Ret tt h' /\
    Permutation [Some 1; Some 2; Some 3]
                (Js.get [Some 1; Some 2; Some 3] 0 :: h') /\
    Js.length h' = Js.length [Some 1; Some 2; Some 3] - 1 /\
    Js.dense h' /\ heapOrdered 2 defaultLessThanCompare h'.
Proof.
  apply (removeAtIndex_drops_slot Z 2 defaultLessThanCompare 0
           [Some 1; Some 2; Some 3]).
  - lia.
  - exact consistent_default.
  - exact sample_dense.
  - exact sample_ordered.
  - unfold Js.length. simpl. lia.
Defined.

(** X8.  [findIndex(value, compare)] never changes the heap and returns
    either [-1], when the callback accepts no slot, or the first index
    whose element the callback accepts. *)
Theorem findIndex_first_match (T : Type) (value : T)
        (cmp : T -> option T -> bool) (h : arr T) :
  exists r,
    findIndex value cmp h = Ret r h /\
    ((r = -1 /\
      forall j, 0 <= j < Js.length h -> cmp value (Js.get h j) = false) \/
     (0 <= r < Js.length h /\
      cmp value (Js.get h r) = true /\
      forall j, 0 <= j < r -> cmp value (Js.get h j) = false)).
Proof.
  exists (findIndexFrom cmp value 0 h). split; [reflexivity |].
  destruct (findIndexFrom_spec T cmp value h 0 _ eq_refl)
    as [H | (R & C & F)]; [left; exact H | right].
  rewrite Z.sub_0_r in C, F. repeat split; try assumption; lia.
Qed.

(** X9.  With the default callback [(a, b) => a === b], [findIndex]
    returns [-1] exactly when the value is not stored in the heap. *)
Theorem findIndex_default_finds (T : Type) (eqb : T -> T -> bool)
        (value : T) (h : arr T) :
  (forall a b, eqb a b = true <-> a = b) ->
  exists r,
    findIndex value (defaultEqualCompare eqb) h = Ret r h /\
    (r = -1 <-> ~ In (Some value) h) /\
    (r <> -1 -> Js.get h r = Some value).
Proof.
  intros Heq. exists (findIndexFrom (defaultEqualCompare eqb) value 0 h).
  split; [reflexivity |].
  destruct (findIndexFrom_spec T (defaultEqualCompare eqb) value h 0 _
              eq_refl) as [[E F] | (R & C & F)].
  - rewrite E. split; [| intros N; now contradiction N].
    split; [| reflexivity]. intros _ Hin.
    apply In_nth_error in Hin. destruct Hin as [n Hn].
    assert (Hlt : (n < List.length h)%nat)
      by (apply nth_error_Some; congruence).
    rewrite nth_get in Hn by assumption. injection Hn as Hn.
    specialize (F (Z.of_nat n)). rewrite Hn in F. simpl in F.
    assert (eqb value value = true) by now apply Heq.
    unfold Js.length in F. rewrite F in H by lia. discriminate.
  - rewrite Z.sub_0_r in C.
    destruct (Js.get h _) as [x |] eqn:Ex in C; [| discriminate].
    simpl in C. apply Heq in C. subst x.
    split; [| intros _; exact Ex].
    split; [lia |]. intros N. exfalso. apply N.
    pose proof (get_in T h _ value Ex) as Hi.
    rewrite <- (Z2Nat.id (findIndexFrom _ value 0 h)) in Ex by lia.
    rewrite JsFacts.get_nat in Ex.
    destruct (nth_error h _) as [o |] eqn:En in Ex; [| discriminate].
    subst o. eapply nth_error_In. exact En.
Qed.

Lemma findIndex_default_finds_witness :
  exists r,
    findIndex 2 (defaultEqualCompare Z.eqb) [Some 1; Some 2; Some 3]
    = Ret r [Some 1; Some 2; Some 3] /\
    (r = -1 <-> ~ In (Some 2) [Some 1; Some 2; Some 3]) /\
    (r <> -1 -> Js.get [Some 1; Some 2; Some 3] r = Some 2).
Proof.
  apply (findIndex_default_finds Z Z.eqb 2 [Some 1; Some 2; Some 3]).
  intros a b. apply Z.eqb_eq.
Defined.

(** X10.  [remove(value, compare)] acts on the first slot the callback
    accepts.  When that slot lies below the last one of a dense, ordered
    heap, exactly its element is removed and the heap stays dense and
    ordered; when it is the last slot of a heap of two or more elements,
    the call throws after the element has been popped. *)
Theorem remove_first_match (T : Type) (d : Z) (compare : T -> T -> Z)
        (value : T) (cmp : T -> option T -> bool) (h : arr T) (i : Z) :
  1 <= d -> consistent compare ->
  Js.dense h -> heapOrdered d compare h ->
  findIndex value cmp h = Ret i h ->
  (0 <= i < Js.length h - 1 ->
   exists h',
     remove d compare value cmp h = Ret tt h' /\
     cmp value (Js.get h i) = true /\
     Permutation h (Js.get h i :: h') /\
     Js.dense h' /\ heapOrdered d compare h') /\
  (1 <= i -> i = Js.length h - 1 ->
   exists h',
     remove d compare value cmp h = Throw "Invalid inputs" h' /\
     Permutation h (Js.get h i :: h')).
Proof.
  intros Hd Hc D O E. unfold findIndex, gets in E. injection E as E.
  rewrite remove_eq, E. split.
  - intros Hi.
    destruct (removeAtIndex_effect T d compare Hd Hc i h)
      as (h' & E' & P & L & G'); [| assumption |].
    { apply good_iff; [assumption | now split]. }
    apply good_iff in G'; [| assumption].
    exists h'. split; [exact E' |]. split; [| tauto].
    destruct (findIndexFrom_spec T cmp value h 0 i E)
      as [[E1 _] | (_ & C & _)]; [lia |].
    now rewrite Z.sub_0_r in C.
  - intros Hi Elast. eexists. split.
    + now apply removeAtIndex_last.
    + pose proof (removed_permutation T i h ltac:(lia)) as [_ P].
      now rewrite <- Elast in P.
Qed.

Lemma remove_first_match_witness :
  (0 <= 1 < Js.length [Some 1; Some 2; Some 3] - 1 ->
   exists h',
     remove 2 defaultLessThanCompare 2 (defaultEqualCompare Z.eqb)
            [Some 1; Some 2; Some 3] = Ret tt h' /\
     defaultEqualCompare Z.eqb 2 (Js.get [Some 1; Some 2; Some 3] 1)
     = true /\
     Permutation [Some 1; Some 2; Some 3]
                 (Js.get [Some 1; Some 2; Some 3] 1 :: h') /\
     Js.dense h' /\ heapOrdered 2 defaultLessThanCompare h') /\
  (1 <= 1 -> 1 = Js.length [Some 1; Some 2; Some 3] - 1 ->
   exists h',
     remove 2 defaultLessThanCompare 2 (defaultEqualCompare Z.eqb)
            [Some 1; Some 2; Some 3] = Throw "Invalid inputs" h' /\
     Permutation [Some 1; Some 2; Some 3]
                 (Js.get [Some 1; Some 2; Some 3] 1 :: h')).
Proof.
  apply (remove_first_match Z 2 defaultLessThanCompare 2
           (defaultEqualCompare Z.eqb) [Some 1; Some 2; Some 3] 1).
  - lia.
  - exact consistent_default.
  - exact sample_dense.
  - exact sample_ordered.
  - reflexivity.
Defined.

(** X11.  Whatever the branching factor, the comparator and the array,
    [insert] and [poll] come to an end: they return or throw.  So does
    [removeAtIndex] for an index that is not negative, and so does
    [heapify] unless [d] is [0]. *)
Theorem heap_calls_return (T : Type) (d : Z) (compare : T -> T -> Z)
        (v : T) (k : Z) (values : list T) (h : arr T) :
  insert d compare v h <> Diverge /\
  poll d compare h <> Diverge /\
  (0 <= k -> removeAtIndex d compare k h <> Diverge) /\
  (d <> 0 -> heapify d compare values h <> Diverge).
Proof.
  split; [apply insert_returns |].
  split; [apply poll_returns |].
  split; [intros _; apply removeAtIndex_returns | apply heapify_returns].
Qed.

Lemma heap_calls_return_witness :
  insert (-1) defaultLessThanCompare 4 [Some 1; None] <> Diverge /\
  poll (-1) defaultLessThanCompare [Some 1; None] <> Diverge /\
  (0 <= 5 ->
   removeAtIndex (-1) defaultLessThanCompare 5 [Some 1; None] <> Diverge) /\
  (-1 <> 0 ->
   heapify (-1) defaultLessThanCompare [3; 1; 2] [Some 1; None]
   <> Diverge).
Proof.
  apply (heap_calls_return Z (-1) defaultLessThanCompare 4 5 [3; 1; 2]
           [Some 1; None]).
Defined.

(** X12.  With [d = 0], which the constructor accepts, the first
    [insert] into an empty heap succeeds, every [insert] into a non-empty
    heap throws 'Invalid inputs' after the value has been appended, and
    [heapify] of three or more values never comes to an end. *)
Theorem zero_branching_factor (T : Type) (compare : T -> T -> Z)
        (v : T) (values : list T) (h : arr T) :
  insert 0 compare v [] = Ret 0 [Some v] /\
  (1 <= Js.length h ->
   insert 0 compare v h = Throw "Invalid inputs" (Js.push h v)) /\
  ((3 <= List.length values)%nat ->
   heapify 0 compare values h = Diverge).
Proof.
  split; [reflexivity |].
  split; [apply insert_zero | apply heapify_zero].
Qed.

Lemma zero_branching_factor_witness :
  insert 0 defaultLessThanCompare 4 [] = Ret 0 [Some 4] /\
  (1 <= Js.length [Some 1] ->
   insert 0 defaultLessThanCompare 4 [Some 1]
   = Throw "Invalid inputs" (Js.push [Some 1] 4)) /\
  ((3 <= List.length [3; 1; 2])%nat ->
   heapify 0 defaultLessThanCompare [3; 1; 2] [Some 1] = Diverge).
Proof.
  apply (zero_branching_factor Z defaultLessThanCompare 4 [3; 1; 2]
           [Some 1]).
Defined.

End HeapLaws.

(** ** More on the storage backends: errors, round trips and frames *)

Module StorageLaws.

Import Storage StorageFacts.

Section MapLaws.
Context {K V : Type}.
Variable eqb : K -> K -> bool.
Hypothesis eqb_spec : forall a b, eqb a b = true <-> a = b.
Implicit Types (m : @JsMap.t K V).

Lemma keys_set m k v :
  NoDup (JsMap.keys m) -> NoDup (JsMap.keys (JsMap.set eqb m k v)).
Proof.
  induction m as [| [k0 v0] r IH]; simpl; intros N.
  - constructor; [intros [] | constructor].
  - inversion N as [| ? ? Hnin N']; subst.
    destruct (eqb k k0) eqn:E; simpl.
    + constructor; assumption.
    + constructor; [| now apply IH].
      intros Hin. apply Hnin.
      apply (JsMapFacts.in_keys eqb eqb_spec) in Hin.
      rewrite (JsMapFacts.map_get_set eqb eqb_spec) in Hin.
      destruct (eqb k0 k) eqn:E0.
      * apply eqb_spec in E0. subst k0.
        rewrite (JsMapFacts.eqb_refl eqb eqb_spec) in E. discriminate.
      * now apply (JsMapFacts.in_keys eqb eqb_spec).
Qed.

Lemma get_delete m k k' :
  NoDup (JsMap.keys m) ->
  JsMap.get eqb (JsMap.delete eqb m k) k'
  = if eqb k' k then None else JsMap.get eqb m k'.
Proof.
  induction m as [| [k0 v0] r IH]; simpl; intros N.
  - now destruct (eqb k' k).
  - inversion N as [| ? ? Hnin N']; subst.
    destruct (eqb k k0) eqn:E.
    + apply eqb_spec in E. subst k0.
      destruct (eqb k' k) eqn:E'; [| reflexivity].
      apply eqb_spec in E'. subst k'.
      destruct (JsMap.get eqb r k) eqn:G; [| reflexivity].
      exfalso. apply Hnin.
      apply (JsMapFacts.in_keys eqb eqb_spec). congruence.
    + simpl. rewrite IH by assumption.
      destruct (eqb k' k0) eqn:E0; [| reflexivity].
      apply eqb_spec in E0. subst k0.
      destruct (eqb k' k) eqn:E1; [| reflexivity].
      apply eqb_spec in E1. subst k'.
      rewrite (JsMapFacts.eqb_refl eqb eqb_spec) in E. discriminate.
Qed.
End MapLaws.

Lemma forEach_invariant {S A} (P : S -> Prop) (body : A -> M (S := S) unit)
      (xs : list A) :
  (forall x s s', In x xs -> P s -> body x s = Ret tt s' -> P s') ->
  forall s s', P s -> forEach xs body s = Ret tt s' -> P s'.
Proof.
  induction xs as [| x xs IH]; intros Hstep s s' Hs; simpl.
  { unfold ret. now intros [= <-]. }
  unfold bind.
  destruct (body x s) as [[] s1 | msg s1 |] eqn:E; try discriminate.
  apply IH.
  - intros y t t' Hy. apply Hstep. now right.
  - eapply Hstep; [now left | exact Hs | exact E].
Qed.

Lemma negative_guard s d :
  s < 0 \/ d < 0 -> (s <? 0) || (d <? 0) = true.
Proof.
  intros H. destruct (Z.ltb_spec s 0), (Z.ltb_spec d 0);
    simpl; try reflexivity; lia.
Qed.

Lemma outside_guard n u v :
  n <= u \/ n <= v -> (n - 1 <? u) || (n - 1 <? v) = true.
Proof.
  intros H. destruct (Z.ltb_spec (n - 1) u), (Z.ltb_spec (n - 1) v);
    simpl; try reflexivity; lia.
Qed.

(** X13.  Every mutator of the three backends refuses a negative vertex:
    [setEdge] with a negative source or destination, and the edge list's
    [setVertex] with a negative vertex, throw "Negative vertex is not
    allowed" and leave the storage as it was. *)
Theorem negative_vertex_rejected (s d : Z) (w : option Js.jsnum)
        (gAL : AdjacencyList.t) (gAM : AdjacencyMatrix.t)
        (gEL : EdgeList.t) :
  s < 0 \/ d < 0 ->
  AdjacencyList.setEdge s d w gAL
  = Throw "Negative vertex is not allowed" gAL /\
  AdjacencyMatrix.setEdge s d w gAM
  = Throw "Negative vertex is not allowed" gAM /\
  EdgeList.setEdge s d w gEL
  = Throw "Negative vertex is not allowed" gEL /\
  (s < 0 ->
   EdgeList.setVertex s gEL = Throw "Negative vertex is not allowed" gEL).
Proof.
  intros H.
  unfold AdjacencyList.setEdge, AdjacencyMatrix.setEdge, EdgeList.setEdge.
  rewrite (negative_guard s d H). repeat split.
  intros Hs. unfold EdgeList.setVertex.
  destruct (Z.ltb_spec s 0); [reflexivity | lia].
Qed.

Lemma negative_vertex_rejected_witness :
  AdjacencyList.setEdge (-1) 2 None (AdjacencyList.create None)
  = Throw "Negative vertex is not allowed" (AdjacencyList.create None) /\
  AdjacencyMatrix.setEdge (-1) 2 None blankAM
  = Throw "Negative vertex is not allowed" blankAM /\
  EdgeList.setEdge (-1) 2 None (EdgeList.create None)
  = Throw "Negative vertex is not allowed" (EdgeList.create None) /\
  (-1 < 0 ->
   EdgeList.setVertex (-1) (EdgeList.create None)
   = Throw "Negative vertex is not allowed" (EdgeList.create None)).
Proof.
  apply (negative_vertex_rejected (-1) 2 None (AdjacencyList.create None)
           blankAM (EdgeList.create None)).
  left. lia.
Defined.

(** X14.  A query for a vertex from [0] to [Number.MAX_SAFE_INTEGER]
    that is at or beyond the size throws "Out of graph bound" in all
    three backends and changes nothing: [weight] when the source or the
    destination is out of bound, [neighbors] when the vertex is.  (Within
    that range the code's [size() - 1] cannot round up to the vertex.) *)
Theorem query_out_of_bound_throws (u v : Z)
        (gAL : AdjacencyList.t) (gAM : AdjacencyMatrix.t)
        (gEL : EdgeList.t) :
  0 <= u <= Js.MAX_SAFE_INTEGER ->
  AdjacencyList.vertices gAL <= u ->
  AdjacencyMatrix.vertices gAM <= u ->
  EdgeList.vertices gEL <= u ->
  (AdjacencyList.weight u v gAL = Throw "Out of graph bound" gAL /\
   AdjacencyList.weight v u gAL = Throw "Out of graph bound" gAL /\
   AdjacencyList.neighbors u gAL = Throw "Out of graph bound" gAL) /\
  (AdjacencyMatrix.weight u v gAM = Throw "Out of graph bound" gAM /\
   AdjacencyMatrix.weight v u gAM = Throw "Out of graph bound" gAM /\
   AdjacencyMatrix.neighbors u gAM = Throw "Out of graph bound" gAM) /\
  (EdgeList.weight u v gEL = Throw "Out of graph bound" gEL /\
   EdgeList.weight v u gEL = Throw "Out of graph bound" gEL /\
   EdgeList.neighbors u gEL = Throw "Out of graph bound" gEL).
Proof.
  intros _ HAL HAM HEL.
  unfold AdjacencyList.weight, AdjacencyList.neighbors,
    AdjacencyMatrix.weight, AdjacencyMatrix.neighbors,
    EdgeList.weight, EdgeList.neighbors,
    AdjacencyList.size, AdjacencyMatrix.size, EdgeList.size, bind, gets.
  rewrite !outside_guard by (left; assumption) || (right; assumption).
  destruct (Z.ltb_spec (AdjacencyList.vertices gAL - 1) u); [| lia].
  destruct (Z.ltb_spec (AdjacencyMatrix.vertices gAM - 1) u); [| lia].
  destruct (Z.ltb_spec (EdgeList.vertices gEL - 1) u); [| lia].
  repeat split.
Qed.

Lemma query_out_of_bound_throws_witness :
  (AdjacencyList.weight 4 0 (AdjacencyList.create (Some 3))
   = Throw "Out of graph bound" (AdjacencyList.create (Some 3)) /\
   AdjacencyList.weight 0 4 (AdjacencyList.create (Some 3))
   = Throw "Out of graph bound" (AdjacencyList.create (Some 3)) /\
   AdjacencyList.neighbors 4 (AdjacencyList.create (Some 3))
   = Throw "Out of graph bound" (AdjacencyList.create (Some 3))) /\
  (AdjacencyMatrix.weight 4 0 blankAM = Throw "Out of graph bound" blankAM /\
   AdjacencyMatrix.weight 0 4 blankAM = Throw "Out of graph bound" blankAM /\
   AdjacencyMatrix.neighbors 4 blankAM
   = Throw "Out of graph bound" blankAM) /\
  (EdgeList.weight 4 0 (EdgeList.create (Some 3))
   = Throw "Out of graph bound" (EdgeList.create (Some 3)) /\
   EdgeList.weight 0 4 (EdgeList.create (Some 3))
   = Throw "Out of graph bound" (EdgeList.create (Some 3)) /\
   EdgeList.neighbors 4 (EdgeList.create (Some 3))
   = Throw "Out of graph bound" (EdgeList.create (Some 3))).
Proof.
  apply (query_out_of_bound_throws 4 0 (AdjacencyList.create (Some 3))
           blankAM (EdgeList.create (Some 3)));
    unfold Js.MAX_SAFE_INTEGER; simpl; lia.
Defined.

Lemma negative_never_set calls u v :
  nonNegative calls -> u < 0 -> ~ wasSet calls u v.
Proof.
  intros Hnn Hu (c & Hin & Hs & _). destruct (Hnn c Hin). lia.
Qed.

Lemma negative_never_named calls u :
  nonNegative calls -> u < 0 -> ~ wasNamed calls u.
Proof.
  intros Hnn Hu (c & Hin & H). destruct (Hnn c Hin). lia.
Qed.

Lemma no_members {A} (l : list A) : (forall x, ~ In x l) -> l = [].
Proof.
  destruct l as [| x l]; [reflexivity |].
  intros H. exfalso. apply (H x). now left.
Qed.

(** X15.  The bounds check of the queries looks only at the upper end.
    After any [setEdge] calls with non-negative indices on new storages,
    a query for a negative vertex [u] is answered as if [u] were a vertex
    without edges by the adjacency list and the edge list ([weight] is
    [Infinity], [neighbors] is empty), and fails with a type error on the
    missing row in the adjacency matrix. *)
Theorem negative_query_slips_through (calls : list edgeCall) (u : Z) :
  nonNegative calls -> u < 0 ->
  exists gAL gAM gEL,
    setEdgesAL calls (AdjacencyList.create None) = Ret tt gAL /\
    setEdgesAM calls blankAM = Ret tt gAM /\
    setEdgesEL calls (EdgeList.create None) = Ret tt gEL /\
    AdjacencyList.neighbors u gAL = Ret [] gAL /\
    EdgeList.neighbors u gEL = Ret [] gEL /\
    AdjacencyMatrix.neighbors u gAM
    = Throw "Cannot read properties of undefined" gAM /\
    forall v, v < AdjacencyList.vertices gAL ->
      AdjacencyList.weight u v gAL = Ret Js.PosInf gAL /\
      EdgeList.weight u v gEL = Ret Js.PosInf gEL /\
      AdjacencyMatrix.weight u v gAM
      = Throw "Cannot read properties of undefined" gAM.
Proof.
  intros Hnn Hu.
  destruct (agree_run calls Hnn) as (gAL & gAM & gEL & EAL & EAM & EEL & Ag).
  exists gAL, gAM, gEL. repeat (split; [assumption |]).
  pose proof (agree_sizeAM Ag) as HnAM.
  pose proof (agree_sizeEL Ag) as HnEL.
  pose proof (agree_size Ag) as Hn.
  assert (HAL : forall v, edgeAL gAL u v = None).
  { intros v. destruct (edgeAL gAL u v) eqn:E; [| reflexivity].
    exfalso. apply (negative_never_set calls u v Hnn Hu).
    apply (agree_setAL Ag). congruence. }
  assert (HEL : forall v, edgeEL gEL u v = None).
  { intros v. destruct (edgeEL gEL u v) eqn:E; [| reflexivity].
    exfalso. destruct (Z.eq_dec u v) as [<- | Huv].
    - apply (negative_never_named calls u Hnn Hu).
      apply (agree_loopEL Ag). congruence.
    - apply (negative_never_set calls u v Hnn Hu).
      apply (agree_setEL Ag Huv). congruence. }
  assert (Hrow : Js.get (AdjacencyMatrix.adjacencyMatrix gAM) u = None)
    by (apply JsFacts.get_neg; assumption).
  split; [| split; [| split]].
  - destruct (AdjacencyListFacts.al_neighbors_spec u gAL ltac:(lia))
      as (ns & E & H).
    rewrite E. f_equal. apply no_members. intros x Hx.
    apply H in Hx. now apply Hx.
  - destruct (EdgeListFacts.el_neighbors_spec u gEL ltac:(lia))
      as (ns & E & H).
    rewrite E. f_equal. apply no_members. intros x Hx.
    apply H in Hx. now apply Hx.
  - unfold AdjacencyMatrix.neighbors, bind, AdjacencyMatrix.size, gets.
    destruct (Z.ltb_spec (AdjacencyMatrix.vertices gAM - 1) u); [lia |].
    unfold AdjacencyMatrix.getRow. now rewrite Hrow.
  - intros v Hv. split; [| split].
    + rewrite AdjacencyListFacts.al_weight_spec by lia.
      now rewrite HAL.
    + rewrite EdgeListFacts.el_weight_spec by lia. now rewrite HEL.
    + unfold AdjacencyMatrix.weight, bind, AdjacencyMatrix.size, gets.
      rewrite AdjacencyListFacts.inside_guard by lia.
      unfold AdjacencyMatrix.getRow. now rewrite Hrow.
Qed.

Lemma negative_query_slips_through_witness :
  exists gAL gAM gEL,
    setEdgesAL [mkCall 0 1 (Some (Js.Num 5))] (AdjacencyList.create None)
    = Ret tt gAL /\
    setEdgesAM [mkCall 0 1 (Some (Js.Num 5))] blankAM = Ret tt gAM /\
    setEdgesEL [mkCall 0 1 (Some (Js.Num 5))] (EdgeList.create None)
    = Ret tt gEL /\
    AdjacencyList.neighbors (-1) gAL = Ret [] gAL /\
    EdgeList.neighbors (-1) gEL = Ret [] gEL /\
    AdjacencyMatrix.neighbors (-1) gAM
    = Throw "Cannot read properties of undefined" gAM /\
    forall v, v < AdjacencyList.vertices gAL ->
      AdjacencyList.weight (-1) v gAL = Ret Js.PosInf gAL /\
      EdgeList.weight (-1) v gEL = Ret Js.PosInf gEL /\
      AdjacencyMatrix.weight (-1) v gAM
      = Throw "Cannot read properties of undefined" gAM.
Proof.
  apply (negative_query_slips_through [mkCall 0 1 (Some (Js.Num 5))] (-1)).
  - intros c [<- | []]; simpl; lia.
  - lia.
Defined.



Lemma other_pair u v s d :
  (u, v) <> (s, d) -> (u =? s) && (v =? d) = false.
Proof.
  intros H. destruct (Z.eqb_spec u s) as [-> | ?]; [| reflexivity].
  destruct (Z.eqb_spec v d) as [-> | ?]; [| reflexivity].
  now contradiction H.
Qed.

Lemma grown_inside g s d u v :
  0 <= u < AdjacencyMatrix.vertices g -> v < AdjacencyMatrix.vertices g ->
  grown g s d u v = cellAM g u v.
Proof.
  intros Hu Hv. unfold grown, grownFrom.
  destruct (Z.ltb_spec (Z.max s d) (AdjacencyMatrix.vertices g));
    [reflexivity |].
  destruct (Z.leb_spec 0 u); [| lia].
  destruct (Z.leb_spec u (Z.max s d)); [| lia].
  destruct (Z.leb_spec u (AdjacencyMatrix.vertices g - 1)); [| lia].
  destruct (Z.leb_spec (AdjacencyMatrix.vertices g - 1 + 1) v); [lia |].
  reflexivity.
Qed.

(** A matrix of size two with rows of its own, as [setEdge(1, 1, 7)]
    leaves a new matrix. *)
Lemma sampleAM_ok :
  wellFormedAM sampleAM /\ distinctRows sampleAM /\
  AdjacencyMatrix.vertices sampleAM = 2.
Proof.
  destruct (agree_run [mkCall 1 1 (Some (Js.Num 7))]) as
      (gAL & gAM & gEL & _ & EAM & _ & Ag).
  { intros c [<- | []]; simpl; lia. }
  assert (E : sampleAM = gAM) by (unfold sampleAM; now rewrite EAM).
  rewrite E. split; [apply (agree_wf Ag) |].
  split; [apply (agree_distinct Ag) |].
  rewrite <- E. reflexivity.
Qed.

(** X17.  [setEdge(s, d, w)] leaves every other weight alone: for a pair
    [(u, v)] other than [(s, d)] inside the old bounds, [weight(u, v)]
    returns after the call what it returned before.  The matrix needs
    rows that are not shared for this, and in the edge list it holds for
    [u <> v], since the call may add the self-loops of [s] and [d]. *)
Theorem setEdge_keeps_other_weights (s d u v : Z) (w : option Js.jsnum)
        (gAL : AdjacencyList.t) (gAM : AdjacencyMatrix.t)
        (gEL : EdgeList.t) :
  0 <= s -> 0 <= d -> (u, v) <> (s, d) -> 0 <= u ->
  u < AdjacencyList.vertices gAL -> v < AdjacencyList.vertices gAL ->
  wellFormedAM gAM -> distinctRows gAM ->
  u < AdjacencyMatrix.vertices gAM -> v < AdjacencyMatrix.vertices gAM ->
  u < EdgeList.vertices gEL -> v < EdgeList.vertices gEL ->
  (exists g' x,
     AdjacencyList.setEdge s d w gAL = Ret tt g' /\
     AdjacencyList.weight u v gAL = Ret x gAL /\
     AdjacencyList.weight u v g' = Ret x g') /\
  (exists g' x,
     AdjacencyMatrix.setEdge s d w gAM = Ret tt g' /\
     AdjacencyMatrix.weight u v gAM = Ret x gAM /\
     AdjacencyMatrix.weight u v g' = Ret x g') /\
  (u <> v ->
   exists g' x,
     EdgeList.setEdge s d w gEL = Ret tt g' /\
     EdgeList.weight u v gEL = Ret x gEL /\
     EdgeList.weight u v g' = Ret x g').
Proof.
  intros Hs Hd Hne Hu0 HuAL HvAL Wf Dr HuAM HvAM HuEL HvEL.
  pose proof (other_pair u v s d Hne) as Hc.
  split; [| split].
  - destruct (AdjacencyListFacts.al_setEdge_spec s d w gAL Hs Hd)
      as (g' & E & V & F).
    exists g'. eexists. split; [exact E |].
    rewrite !AdjacencyListFacts.al_weight_spec by lia.
    rewrite F, Hc. split; reflexivity.
  - destruct (AdjacencyMatrixFacts.am_setEdge_spec s d w gAM Hs Hd Wf)
      as (g' & E & V & Wf' & _ & _ & F).
    destruct (F Dr) as [_ Fc].
    exists g'. eexists. split; [exact E |].
    rewrite !AdjacencyMatrixFacts.am_weight_spec by (try assumption; lia).
    rewrite Fc, Hc, grown_inside by (try assumption; lia).
    split; reflexivity.
  - intros Huv.
    destruct (EdgeListFacts.el_setEdge_spec s d w gEL Hs Hd)
      as (g' & E & V & F).
    exists g'. eexists. split; [exact E |].
    rewrite !EdgeListFacts.el_weight_spec by lia.
    rewrite F, Hc. unfold withLoops.
    destruct (Z.eqb_spec u v); [contradiction |]. split; reflexivity.
Qed.

Lemma setEdge_keeps_other_weights_witness :
  (exists g' x,
     AdjacencyList.setEdge 1 1 None (AdjacencyList.create (Some 3))
     = Ret tt g' /\
     AdjacencyList.weight 0 1 (AdjacencyList.create (Some 3))
     = Ret x (AdjacencyList.create (Some 3)) /\
     AdjacencyList.weight 0 1 g' = Ret x g') /\
  (exists g' x,
     AdjacencyMatrix.setEdge 1 1 None sampleAM = Ret tt g' /\
     AdjacencyMatrix.weight 0 1 sampleAM = Ret x sampleAM /\
     AdjacencyMatrix.weight 0 1 g' = Ret x g') /\
  (0 <> 1 ->
   exists g' x,
     EdgeList.setEdge 1 1 None (EdgeList.create (Some 3)) = Ret tt g' /\
     EdgeList.weight 0 1 (EdgeList.create (Some 3))
     = Ret x (EdgeList.create (Some 3)) /\
     EdgeList.weight 0 1 g' = Ret x g').
Proof.
  apply (setEdge_keeps_other_weights 1 1 0 1 None
           (AdjacencyList.create (Some 3)) sampleAM
           (EdgeList.create (Some 3))).
  - lia.
  - lia.
  - discriminate.
  - lia.
  - simpl. lia.
  - simpl. lia.
  - apply sampleAM_ok.
  - apply sampleAM_ok.
  - vm_compute. reflexivity.
  - vm_compute. reflexivity.
  - simpl. lia.
  - simpl. lia.
Defined.

Lemma al_run_size calls : forall g0 g,
  nonNegative calls ->
  setEdgesAL calls g0 = Ret tt g ->
  AdjacencyList.vertices g
  = fold_left (fun n c =>
                 Z.max (Z.max n (callSource c + 1)) (callDestination c + 1))
              calls (AdjacencyList.vertices g0).
Proof.
  induction calls as [| c calls IH]; intros g0 g Hnn.
  { simpl. unfold ret. now intros [= <-]. }
  destruct (Hnn c ltac:(now left)) as [Hs Hd].
  destruct (AdjacencyListFacts.al_setEdge_spec (callSource c)
              (callDestination c) (callWeight c) g0 Hs Hd)
    as (g1 & E & V & _).
  unfold setEdgesAL. simpl forEach. unfold bind. rewrite E.
  intros Hrun. simpl fold_left. rewrite <- V. apply IH; [| exact Hrun].
  intros c' Hc'. apply Hnn. now right.
Qed.



(** The adjacency list never holds a destination twice in a row. *)
Lemma al_setEdge_unique s d w g g' :
  uniqueKeys g -> AdjacencyList.setEdge s d w g = Ret tt g' ->
  uniqueKeys g'.
Proof.
  intros U. unfold AdjacencyList.setEdge.
  destruct ((s <? 0) || (d <? 0)); [discriminate |].
  unfold bind, modify. cbv beta iota.
  set (g1 := if JsMap.has Z.eqb (AdjacencyList.adjacencyList g) s then g
             else AdjacencyList.mk
                    (AdjacencyList.vertices g)
                    (JsMap.set Z.eqb (AdjacencyList.adjacencyList g) s
                               JsMap.empty)).
  assert (U1 : uniqueKeys g1).
  { unfold g1, JsMap.has.
    destruct (JsMap.get Z.eqb (AdjacencyList.adjacencyList g) s);
      [exact U |].
    intros u row. simpl AdjacencyList.adjacencyList.
    rewrite (JsMapFacts.map_get_set Z.eqb AdjacencyListFacts.zeqb_spec).
    destruct (u =? s); [intros [= <-]; constructor | apply U]. }
  destruct (JsMap.get Z.eqb (AdjacencyList.adjacencyList g1) s)
    as [row |] eqn:Er; intros [= <-]; [| exact U1].
  intros u r. simpl AdjacencyList.adjacencyList.
  rewrite (JsMapFacts.map_get_set Z.eqb AdjacencyListFacts.zeqb_spec).
  destruct (u =? s); [| apply U1].
  intros [= <-].
  apply (keys_set Z.eqb AdjacencyListFacts.zeqb_spec).
  exact (U1 s row Er).
Qed.

Lemma endpoints_setWeightAt xs : forall i w,
  map endpoints (EdgeList.setWeightAt xs i w) = map endpoints xs.
Proof.
  induction xs as [| e r IH]; intros [| i] w; simpl; try reflexivity.
  f_equal. apply IH.
Qed.

Lemma not_connected s d xs :
  find (EdgeList.connects s d) xs = None -> ~ In (s, d) (map endpoints xs).
Proof.
  intros H Hin. apply in_map_iff in Hin. destruct Hin as (e & He & Hin).
  pose proof (find_none _ _ H e Hin) as C.
  unfold EdgeList.connects in C. unfold endpoints in He.
  injection He as Hs Hd. rewrite Hs, Hd, !Z.eqb_refl in C. discriminate.
Qed.

Lemma unique_push s d w xs :
  NoDup (map endpoints xs) ->
  find (EdgeList.connects s d) xs = None ->
  NoDup (map endpoints (xs ++ [EdgeList.newEdge s d w])).
Proof.
  intros N H. rewrite map_app.
  eapply Permutation_NoDup; [apply Permutation_cons_append |].
  constructor; [now apply not_connected | exact N].
Qed.

Lemma setVertex_unique x g g' :
  uniqueEdges g -> EdgeList.setVertex x g = Ret tt g' -> uniqueEdges g'.
Proof.
  intros U. unfold EdgeList.setVertex.
  destruct (x <? 0); [discriminate |].
  unfold bind, gets, modify. cbv beta iota.
  destruct (Z.ltb_spec
              (EdgeList.findIndex (EdgeList.connects x x) (EdgeList.edges g))
              0) as [Hn | Hn];
    intros [= <-]; unfold uniqueEdges; simpl EdgeList.edges; [| exact U].
  apply unique_push; [exact U |].
  now apply EdgeListFacts.findIndex_none.
Qed.

(** The edge list never holds two edges for one pair of vertices. *)
Lemma el_setEdge_unique s d w g g' :
  uniqueEdges g -> EdgeList.setEdge s d w g = Ret tt g' -> uniqueEdges g'.
Proof.
  intros U. unfold EdgeList.setEdge.
  destruct ((s <? 0) || (d <? 0)); [discriminate |].
  unfold bind at 1.
  destruct (EdgeList.setVertex s g) as [[] g1 | msg g1 |] eqn:E1;
    try discriminate.
  unfold bind at 1.
  destruct (EdgeList.setVertex d g1) as [[] g2 | msg g2 |] eqn:E2;
    try discriminate.
  pose proof (setVertex_unique _ _ _ (setVertex_unique _ _ _ U E1) E2) as U2.
  unfold bind, gets, modify. cbv beta iota.
  pose proof (EdgeListFacts.findIndex_bounds (EdgeList.connects s d)
                (EdgeList.edges g2)) as Hb.
  destruct (Z.ltb_spec (-1)
              (EdgeList.findIndex (EdgeList.connects s d)
                                  (EdgeList.edges g2))) as [Hf | Hf];
    intros [= <-]; unfold uniqueEdges; simpl EdgeList.edges.
  - rewrite endpoints_setWeightAt. exact U2.
  - apply unique_push; [exact U2 |].
    apply EdgeListFacts.findIndex_none. lia.
Qed.

Lemma el_neighbors_nodup u xs :
  NoDup (map endpoints xs) ->
  NoDup (flat_map (fun e => if EdgeList.source e =? u
                            then [EdgeList.destination e] else []) xs).
Proof.
  induction xs as [| e r IH]; simpl; intros N; [constructor |].
  inversion N as [| ? ? Hnin N']; subst.
  destruct (Z.eqb_spec (EdgeList.source e) u) as [Es | Es]; simpl;
    [| now apply IH].
  constructor; [| now apply IH].
  intros Hin. apply in_flat_map in Hin. destruct Hin as (e' & He' & Hd).
  destruct (Z.eqb_spec (EdgeList.source e') u) as [Es' |]; [| destruct Hd].
  destruct Hd as [Hd | []].
  apply Hnin. apply in_map_iff. exists e'. split; [| assumption].
  unfold endpoints. congruence.
Qed.

(** The matrix lists the neighbours by ascending index. *)
Lemma finiteIndices_sorted row : forall i0,
  StronglySorted Z.lt (AdjacencyMatrix.finiteIndices row i0) /\
  Forall (fun v => i0 <= v) (AdjacencyMatrix.finiteIndices row i0).
Proof.
  induction row as [| [x |] r IH]; intros i0; simpl.
  - split; constructor.
  - destruct (IH (i0 + 1)) as [Hs F].
    assert (F' : Forall (fun v => i0 < v)
                        (AdjacencyMatrix.finiteIndices r (i0 + 1)))
      by (eapply Forall_impl; [| exact F]; simpl; intros; lia).
    assert (F'' : Forall (fun v => i0 <= v)
                         (AdjacencyMatrix.finiteIndices r (i0 + 1)))
      by (eapply Forall_impl; [| exact F]; simpl; intros; lia).
    destruct (isInfinity x); [split; assumption |].
    split; constructor; (assumption || lia).
  - destruct (IH (i0 + 1)) as [Hs F]. split; [exact Hs |].
    eapply Forall_impl; [| exact F]. simpl. intros. lia.
Qed.

Lemma ascending_nodup l : StronglySorted Z.lt l -> NoDup l.
Proof.
  induction 1 as [| a l Hs IH F]; constructor; [| assumption].
  intros Hin. rewrite Forall_forall in F. specialize (F a Hin). lia.
Qed.

(** X19.  After any [setEdge] calls with non-negative indices on new
    storages, [neighbors(u)] lists no vertex twice in any backend, however
    often an edge was set; the matrix lists the neighbours by strictly
    ascending index. *)
Theorem neighbors_list_each_vertex_once (calls : list edgeCall) :
  nonNegative calls ->
  exists gAL gAM gEL,
    setEdgesAL calls (AdjacencyList.create None) = Ret tt gAL /\
    setEdgesAM calls blankAM = Ret tt gAM /\
    setEdgesEL calls (EdgeList.create None) = Ret tt gEL /\
    forall u, 0 <= u < AdjacencyList.vertices gAL ->
      exists nsAL nsAM nsEL,
        AdjacencyList.neighbors u gAL = Ret nsAL gAL /\
        AdjacencyMatrix.neighbors u gAM = Ret nsAM gAM /\
        EdgeList.neighbors u gEL = Ret nsEL gEL /\
        NoDup nsAL /\ NoDup nsAM /\ StronglySorted Z.lt nsAM /\
        NoDup nsEL.
Proof.
  intros Hnn.
  destruct (agree_run calls Hnn) as (gAL & gAM & gEL & EAL & EAM & EEL & Ag).
  exists gAL, gAM, gEL. repeat (split; [assumption |]).
  pose proof (agree_sizeAM Ag) as HnAM.
  pose proof (agree_sizeEL Ag) as HnEL.
  assert (UAL : uniqueKeys gAL).
  { refine (forEach_invariant uniqueKeys _ calls _ _ _ _ EAL).
    - intros c g g' _. apply al_setEdge_unique.
    - intros u row. simpl. discriminate. }
  assert (UEL : uniqueEdges gEL).
  { refine (forEach_invariant uniqueEdges _ calls _ _ _ _ EEL).
    - intros c g g' _. apply el_setEdge_unique.
    - constructor. }
  intros u Hu.
  assert (HAL : exists ns, AdjacencyList.neighbors u gAL = Ret ns gAL /\
                           NoDup ns).
  { unfold AdjacencyList.neighbors, bind, AdjacencyList.size, gets.
    destruct (Z.ltb_spec (AdjacencyList.vertices gAL - 1) u); [lia |].
    destruct (JsMap.get Z.eqb (AdjacencyList.adjacencyList gAL) u)
      as [row |] eqn:Er.
    - exists (JsMap.keys row). split; [reflexivity |].
      exact (UAL u row Er).
    - exists []. split; [reflexivity | constructor]. }
  assert (HAM : exists ns, AdjacencyMatrix.neighbors u gAM = Ret ns gAM /\
                           StronglySorted Z.lt ns).
  { destruct (AdjacencyMatrixFacts.am_neighbors_spec u gAM (agree_wf Ag)
                ltac:(rewrite HnAM; lia)) as (ns & E & _).
    exists ns. split; [exact E |].
    unfold AdjacencyMatrix.neighbors, bind, AdjacencyMatrix.size, gets in E.
    destruct (AdjacencyMatrix.vertices gAM - 1 <? u); [discriminate |].
    destruct (AdjacencyMatrix.getRow u gAM) as [row g1 | |];
      try discriminate.
    unfold ret in E. injection E as <- _.
    apply finiteIndices_sorted. }
  assert (HEL : exists ns, EdgeList.neighbors u gEL = Ret ns gEL /\
                           NoDup ns).
  { unfold EdgeList.neighbors, bind, EdgeList.size, gets.
    destruct (Z.ltb_spec (EdgeList.vertices gEL - 1) u); [lia |].
    eexists. split; [reflexivity |].
    apply el_neighbors_nodup. exact UEL. }
  destruct HAL as (nsAL & E1 & N1). destruct HAM as (nsAM & E2 & S2).
  destruct HEL as (nsEL & E3 & N3).
  exists nsAL, nsAM, nsEL.
  repeat (split; [assumption |]).
  split; [now apply ascending_nodup |]. split; assumption.
Qed.

Lemma neighbors_list_each_vertex_once_witness :
  exists gAL gAM gEL,
    setEdgesAL [mkCall 0 1 None; mkCall 0 1 (Some (Js.Num 4))]
               (AdjacencyList.create None) = Ret tt gAL /\
    setEdgesAM [mkCall 0 1 None; mkCall 0 1 (Some (Js.Num 4))] blankAM
    = Ret tt gAM /\
    setEdgesEL [mkCall 0 1 None; mkCall 0 1 (Some (Js.Num 4))]
               (EdgeList.create None) = Ret tt gEL /\
    forall u, 0 <= u < AdjacencyList.vertices gAL ->
      exists nsAL nsAM nsEL,
        AdjacencyList.neighbors u gAL = Ret nsAL gAL /\
        AdjacencyMatrix.neighbors u gAM = Ret nsAM gAM /\
        EdgeList.neighbors u gEL = Ret nsEL gEL /\
        NoDup nsAL /\ NoDup nsAM /\ StronglySorted Z.lt nsAM /\
        NoDup nsEL.
Proof.
  apply (neighbors_list_each_vertex_once
           [mkCall 0 1 None; mkCall 0 1 (Some (Js.Num 4))]).
  intros c [<- | [<- | []]]; simpl; lia.
Defined.

Lemma setVertex_eq x g :
  0 <= x ->
  EdgeList.setVertex x g
  = Ret tt
        (EdgeList.mk
           (Z.max (EdgeList.vertices g) (x + 1))
           (if EdgeList.findIndex (EdgeList.connects x x)
                                  (EdgeList.edges g) <? 0
            then EdgeList.edges g ++ [EdgeList.newEdge x x (Some (Js.Num 0))]
            else EdgeList.edges g)).
Proof.
  intros Hx. unfold EdgeList.setVertex.
  destruct (Z.ltb_spec x 0); [lia |].
  unfold bind, gets, modify. cbv beta iota.
  destruct (_ <? 0); reflexivity.
Qed.

(** X20.  The edge list's [setVertex] is idempotent for a vertex from
    [0] to [Number.MAX_SAFE_INTEGER]: the call puts the vertex below the
    size, and a second call for the same vertex returns normally and
    changes nothing, so a vertex has at most the one self-loop the first
    call gave it. *)
Theorem setVertex_idempotent (x : Z) (g : EdgeList.t) :
  0 <= x <= Js.MAX_SAFE_INTEGER ->
  exists g',
    EdgeList.setVertex x g = Ret tt g' /\
    EdgeList.setVertex x g' = Ret tt g' /\
    x < EdgeList.vertices g'.
Proof.
  intros [Hx _]. rewrite setVertex_eq by assumption.
  set (es := if EdgeList.findIndex (EdgeList.connects x x)
                                   (EdgeList.edges g) <? 0
             then EdgeList.edges g
                  ++ [EdgeList.newEdge x x (Some (Js.Num 0))]
             else EdgeList.edges g).
  assert (Hf : (EdgeList.findIndex (EdgeList.connects x x) es <? 0)
               = false).
  { destruct (Z.ltb_spec (EdgeList.findIndex (EdgeList.connects x x) es) 0)
      as [Hlt | Hge]; [exfalso | reflexivity].
    apply EdgeListFacts.findIndex_none in Hlt. unfold es in Hlt.
    destruct (Z.ltb_spec
                (EdgeList.findIndex (EdgeList.connects x x)
                                    (EdgeList.edges g)) 0) as [Hn | Hn].
    - rewrite EdgeListFacts.find_push in Hlt.
      destruct (find _ (EdgeList.edges g)); [discriminate |].
      rewrite EdgeListFacts.connects_new, !Z.eqb_refl in Hlt.
      discriminate.
    - apply EdgeListFacts.findIndex_none in Hlt. lia. }
  eexists. split; [reflexivity |].
  rewrite setVertex_eq by assumption.
  cbn [EdgeList.vertices EdgeList.edges]. rewrite Hf.
  split; [| lia].
  rewrite (Z.max_l (Z.max (EdgeList.vertices g) (x + 1)) (x + 1)) by lia.
  reflexivity.
Qed.

Lemma setVertex_idempotent_witness :
  exists g',
    EdgeList.setVertex 2 (EdgeList.create None) = Ret tt g' /\
    EdgeList.setVertex 2 g' = Ret tt g' /\
    2 < EdgeList.vertices g'.
Proof.
  apply (setVertex_idempotent 2 (EdgeList.create None)).
  unfold Js.MAX_SAFE_INTEGER. lia.
Defined.

(** X21.  A storage constructed with a size [n >= 0] has [n] vertices and
    no edge: every [weight] inside the bounds is [Infinity] and every
    [neighbors] is empty, in all three backends. *)
Theorem new_storage_has_no_edges (n u v : Z) :
  0 <= u < n -> 0 <= v < n ->
  exists gAM,
    AdjacencyMatrix.create (Some n) = Ret tt gAM /\
    AdjacencyMatrix.size gAM = Ret n gAM /\
    AdjacencyMatrix.weight u v gAM = Ret (Some Js.PosInf) gAM /\
    AdjacencyMatrix.neighbors u gAM = Ret [] gAM /\
    AdjacencyList.size (AdjacencyList.create (Some n))
    = Ret n (AdjacencyList.create (Some n)) /\
    AdjacencyList.weight u v (AdjacencyList.create (Some n))
    = Ret Js.PosInf (AdjacencyList.create (Some n)) /\
    AdjacencyList.neighbors u (AdjacencyList.create (Some n))
    = Ret [] (AdjacencyList.create (Some n)) /\
    EdgeList.size (EdgeList.create (Some n))
    = Ret n (EdgeList.create (Some n)) /\
    EdgeList.weight u v (EdgeList.create (Some n))
    = Ret Js.PosInf (EdgeList.create (Some n)) /\
    EdgeList.neighbors u (EdgeList.create (Some n))
    = Ret [] (EdgeList.create (Some n)).
Proof.
  intros Hu Hv.
  pose proof (AdjacencyMatrixFacts.create_sized n ltac:(lia)) as E0.
  set (g0 := AdjacencyMatrix.mk n (AdjacencyMatrix.filled n 0%nat)
                                [AdjacencyMatrix.filled n Js.PosInf]) in *.
  pose proof (AdjacencyMatrixFacts.create_wellFormed _ _ E0) as Wf.
  assert (Hcell : forall j, cellAM g0 u j = filledCell n j).
  { intros j. unfold cellAM, rowAM, g0. simpl.
    unfold AdjacencyMatrix.filled at 1.
    rewrite JsFacts.get_repeat by lia. simpl.
    apply AdjacencyMatrixFacts.get_filled. }
  exists g0. split; [exact E0 |]. split; [reflexivity |]. split.
  { rewrite AdjacencyMatrixFacts.am_weight_spec
      by (try assumption; simpl; lia).
    rewrite Hcell. unfold filledCell.
    destruct (Z.leb_spec 0 v); [| lia].
    destruct (Z.ltb_spec v n); [reflexivity | lia]. }
  split.
  { destruct (AdjacencyMatrixFacts.am_neighbors_spec u g0 Wf
                ltac:(simpl; lia)) as (ns & E & H).
    rewrite E. f_equal. apply no_members. intros x Hx.
    apply H in Hx. destruct Hx as (w & Hw & Hfin).
    rewrite Hcell in Hw. unfold filledCell in Hw.
    destruct ((0 <=? x) && (x <? n)); [| discriminate].
    injection Hw as <-. discriminate. }
  split; [reflexivity |]. split.
  { rewrite AdjacencyListFacts.al_weight_spec by (simpl; lia).
    reflexivity. }
  split.
  { unfold AdjacencyList.neighbors, bind, AdjacencyList.size, gets.
    simpl. destruct (Z.ltb_spec (n - 1) u); [lia | reflexivity]. }
  split; [reflexivity |]. split.
  { rewrite EdgeListFacts.el_weight_spec by (simpl; lia). reflexivity. }
  unfold EdgeList.neighbors, bind, EdgeList.size, gets.
  simpl. destruct (Z.ltb_spec (n - 1) u); [lia | reflexivity].
Qed.

Lemma new_storage_has_no_edges_witness :
  exists gAM,
    AdjacencyMatrix.create (Some 3) = Ret tt gAM /\
    AdjacencyMatrix.size gAM = Ret 3 gAM /\
    AdjacencyMatrix.weight 1 2 gAM = Ret (Some Js.PosInf) gAM /\
    AdjacencyMatrix.neighbors 1 gAM = Ret [] gAM /\
    AdjacencyList.size (AdjacencyList.create (Some 3))
    = Ret 3 (AdjacencyList.create (Some 3)) /\
    AdjacencyList.weight 1 2 (AdjacencyList.create (Some 3))
    = Ret Js.PosInf (AdjacencyList.create (Some 3)) /\
    AdjacencyList.neighbors 1 (AdjacencyList.create (Some 3))
    = Ret [] (AdjacencyList.create (Some 3)) /\
    EdgeList.size (EdgeList.create (Some 3))
    = Ret 3 (EdgeList.create (Some 3)) /\
    EdgeList.weight 1 2 (EdgeList.create (Some 3))
    = Ret Js.PosInf (EdgeList.create (Some 3)) /\
    EdgeList.neighbors 1 (EdgeList.create (Some 3))
    = Ret [] (EdgeList.create (Some 3)).
Proof. apply (new_storage_has_no_edges 3 1 2); lia. Defined.

End StorageLaws.

(** ** More on the indexed priority queue: what the index map records *)

Module QueueLaws.

Import IndexedPriorityQueue.

(** X22.  [enqueue(value, priority)] records for [value] whatever index
    the heap call reports ([updateAt] when [findIndex] knows the value,
    [insert] otherwise) and leaves the index recorded for every other
    value as it was, also when the heap call moved their entries. *)
Theorem enqueue_records_returned_index (V : Type) (eqb : V -> V -> bool)
        (value : V) (priority : Z) (q : t V) (known newIndex : Z)
        (h' : DAryHeap.arr (entry V)) :
  (forall a b, eqb a b = true <-> a = b) ->
  findIndex eqb value q = Ret known q ->
  (if -1 <? known
   then BinaryHeap.updateAt (@compare V) known (value, priority) (heap q)
   else BinaryHeap.insert (@compare V) (value, priority) (heap q))
  = Ret newIndex h' ->
  exists q',
    enqueue eqb value priority q = Ret tt q' /\
    heap q' = h' /\
    findIndex eqb value q'
    = Ret (if -1 <? newIndex then newIndex else -1) q' /\
    forall other, other <> value ->
      JsMap.get eqb (hash q') other = JsMap.get eqb (hash q) other.
Proof.
  intros Heq Hfind Hheap.
  exists (mk h' (JsMap.set eqb (hash q) value newIndex)).
  split; [| split; [reflexivity | split]].
  - unfold enqueue, bind at 1. rewrite Hfind.
    destruct (-1 <? known); unfold bind, onHeap; rewrite Hheap;
      reflexivity.
  - unfold findIndex, bind, gets. cbn [hash].
    rewrite (JsMapFacts.map_get_set eqb Heq),
      (JsMapFacts.eqb_refl eqb Heq).
    destruct (-1 <? newIndex); reflexivity.
  - intros other Hne. cbn [hash].
    rewrite (JsMapFacts.map_get_set eqb Heq).
    destruct (eqb other value) eqn:E; [| reflexivity].
    apply Heq in E. contradiction.
Qed.

Lemma enqueue_records_returned_index_witness :
  exists q',
    enqueue String.eqb "a"%string 1 (create string) = Ret tt q' /\
    heap q' = [Some ("a"%string, 1)] /\
    findIndex String.eqb "a"%string q'
    = Ret (if -1 <? 0 then 0 else -1) q' /\
    forall other, other <> "a"%string ->
      JsMap.get String.eqb (hash q') other
      = JsMap.get String.eqb (hash (create string)) other.
Proof.
  apply (enqueue_records_returned_index string String.eqb "a"%string 1
           (create string) (-1) 0 [Some ("a"%string, 1)]).
  - intros a b. apply String.eqb_eq.
  - reflexivity.
  - reflexivity.
Defined.

(** X23.  [dequeue()] returns the entry the heap's [poll] returns and
    forgets the index of that entry's value, so that [findIndex] answers
    [-1] for it; the index recorded for every other value stays as it
    was, although [poll] has moved entries. *)
Theorem dequeue_untracks_polled_value (V : Type) (eqb : V -> V -> bool)
        (q : t V) (value : V) (priority : Z)
        (h' : DAryHeap.arr (entry V)) :
  (forall a b, eqb a b = true <-> a = b) ->
  NoDup (JsMap.keys (hash q)) ->
  BinaryHeap.poll (@compare V) (heap q) = Ret (Some (value, priority)) h' ->
  exists q',
    dequeue eqb q = Ret (Some (value, priority)) q' /\
    heap q' = h' /\
    findIndex eqb value q' = Ret (-1) q' /\
    forall other, other <> value ->
      JsMap.get eqb (hash q') other = JsMap.get eqb (hash q) other.
Proof.
  intros Heq Hkeys Hpoll.
  exists (mk h' (JsMap.delete eqb (hash q) value)).
  split; [| split; [reflexivity | split]].
  - unfold dequeue, bind at 1, onHeap. rewrite Hpoll. reflexivity.
  - unfold findIndex, bind, gets. cbn [hash].
    rewrite (StorageLaws.get_delete eqb Heq) by assumption.
    now rewrite (JsMapFacts.eqb_refl eqb Heq).
  - intros other Hne. cbn [hash].
    rewrite (StorageLaws.get_delete eqb Heq) by assumption.
    destruct (eqb other value) eqn:E; [| reflexivity].
    apply Heq in E. contradiction.
Qed.

Lemma dequeue_untracks_polled_value_witness :
  exists q',
    dequeue String.eqb
            (mk [Some ("a"%string, 1); Some ("b"%string, 2)]
                [("a"%string, 0); ("b"%string, 1)])
    = Ret (Some ("a"%string, 1)) q' /\
    heap q' = [Some ("b"%string, 2)] /\
    findIndex String.eqb "a"%string q' = Ret (-1) q' /\
    forall other, other <> "a"%string ->
      JsMap.get String.eqb (hash q') other
      = JsMap.get String.eqb
                  (hash (mk [Some ("a"%string, 1); Some ("b"%string, 2)]
                            [("a"%string, 0); ("b"%string, 1)])) other.
Proof.
  apply (dequeue_untracks_polled_value string String.eqb
           (mk [Some ("a"%string, 1); Some ("b"%string, 2)]
               [("a"%string, 0); ("b"%string, 1)])
           "a"%string 1 [Some ("b"%string, 2)]).
  - intros a b. apply String.eqb_eq.
  - simpl. repeat constructor; simpl; intuition discriminate.
  - reflexivity.
Defined.

End QueueLaws.

(** ** More on the topological sort: cyclic graphs *)

Module TopSortLaws.

Import DfsTopSort TopSortInv DfsTopSortFacts.

Lemma vertices_nodup (n : nat) : NoDup (map Z.of_nat (seq 0 n)).
Proof.
  apply Finite.Injective_map_NoDup; [| apply seq_NoDup].
  intros a b. apply Nat2Z.inj.
Qed.

(** A graph with the cycle 0 -> 1 -> 0 and the edge 1 -> 2. *)
Lemma looped_wellFormed : wellFormed looped.
Proof.
  split; [simpl; lia |]. intros u Hu. simpl in Hu.
  assert (H : u = 0 \/ u = 1 \/ u = 2) by lia.
  destruct H as [-> | [-> | ->]]; simpl; eexists;
    (split; [reflexivity |]); intros v Hv; simpl in Hv; lia.
Qed.

(** X24.  On every graph whose [neighbors] are vertices of the graph,
    cyclic or not, [execute] returns normally an array without holes that
    lists each vertex [0 .. size - 1] exactly once. *)
Theorem execute_lists_each_vertex_once (g : DirectedGraph) :
  wellFormed g ->
  exists fin st,
    execute g = Ret (map Some fin) st /\
    NoDup fin /\
    forall v, In v fin <-> 0 <= v < size g.
Proof.
  intros Wf.
  destruct (execute_spec g Wf) as (fin & st & E & L & N & _ & Hall).
  exists fin, st. split; [exact E |]. split; [exact N |].
  intros v. split; [| apply Hall].
  set (vs := map Z.of_nat (seq 0 (Z.to_nat (size g)))).
  assert (Hincl : incl fin vs).
  { apply NoDup_length_incl.
    - apply vertices_nodup.
    - unfold vs. rewrite length_map, length_seq. lia.
    - intros x Hx. apply Hall. unfold vs in Hx.
      apply in_map_iff in Hx. destruct Hx as (k & <- & Hk).
      apply in_seq in Hk. lia. }
  intros Hv. apply Hincl in Hv. unfold vs in Hv.
  apply in_map_iff in Hv. destruct Hv as (k & <- & Hk).
  apply in_seq in Hk. lia.
Qed.

Lemma execute_lists_each_vertex_once_witness :
  exists fin st,
    execute looped = Ret (map Some fin) st /\
    NoDup fin /\
    forall v, In v fin <-> 0 <= v < size looped.
Proof.
  apply (execute_lists_each_vertex_once looped). exact looped_wellFormed.
Defined.

End TopSortLaws.
